(** * Davis: molecular dynamics on the unit sphere

    A shallow embedding of [davis.c] (the C kernel of the Davis simulation)
    and the properties its specification states about it.

    The C code computes on [double].  The embedding is written once, over an
    interface [Scalar] of the arithmetic the code uses, and instantiated
    twice: at the real numbers (exact arithmetic, where the algebraic
    properties of the integrator and of the force sweeps live) and at
    binary64 (Rocq's primitive floats, where the code can be run). *)

From Stdlib Require Import Floats.
From Stdlib Require Import ZArith List Bool Lia Permutation Sorted.
From Stdlib Require Import Reals Lra.
Import ListNotations.

(** ** The arithmetic of [double] used by the code *)

Class Scalar (T : Type) : Type := {
  of_long : Z -> T;           (* conversion of a [long] to [double] *)
  lit_half : T;               (* the literal [0.5] *)
  sadd : T -> T -> T;
  ssub : T -> T -> T;
  smul : T -> T -> T;
  sdiv : T -> T -> T;
  sneg : T -> T;
  ssqrt : T -> T;             (* [sqrt] of math.h *)
  sltb : T -> T -> bool;      (* [<] *)
  floor_int : T -> Z          (* [(int)floor(x)] *)
}.

Declare Scope scalar_scope.
Delimit Scope scalar_scope with sc.
Notation "a + b" := (sadd a b) : scalar_scope.
Notation "a - b" := (ssub a b) : scalar_scope.
Notation "a * b" := (smul a b) : scalar_scope.
Notation "a / b" := (sdiv a b) : scalar_scope.
Notation "- a" := (sneg a) : scalar_scope.
Notation "a <? b" := (sltb a b) : scalar_scope.

(** ** Memory: arrays indexed by [long], and loops *)

(** A read or a write outside the array is undefined in C: it is [None]. *)
Definition get {A : Type} (l : list A) (i : Z) : option A :=
  if (i <? 0)%Z then None else nth_error l (Z.to_nat i).

Fixpoint upd {A : Type} (l : list A) (n : nat) (x : A) : list A :=
  match l, n with
  | [], _ => []
  | _ :: t, O => x :: t
  | h :: t, S n' => h :: upd t n' x
  end.

Definition put {A : Type} (l : list A) (i : Z) (x : A) : option (list A) :=
  if ((0 <=? i) && (i <? Z.of_nat (length l)))%Z
  then Some (upd l (Z.to_nat i) x) else None.

Definition bind {A B : Type} (c : option A) (k : A -> option B) : option B :=
  match c with Some x => k x | None => None end.

Notation "x <- c ;; k" := (bind c (fun x => k))
  (at level 61, c at next level, right associativity).

(** The access [e = &l[i]] followed by assignments through [e] that make
    [*e] into [f *e]. *)
Definition rewrite_at {A : Type} (f : A -> A) (i : Z) (l : list A)
  : option (list A) :=
  e <- get l i ;; put l i (f e).

(** The values [lo, lo+1, ..., hi-1] a counting loop runs through. *)
Definition zrange (lo hi : Z) : list Z :=
  map (fun k => (lo + Z.of_nat k)%Z) (seq 0 (Z.to_nat (hi - lo))).

Fixpoint foldM {S I : Type} (body : I -> S -> option S) (l : list I) (s : S)
  : option S :=
  match l with
  | [] => Some s
  | i :: l' => s' <- body i s ;; foldM body l' s'
  end.

(** [for (long i = lo; i < hi; i++) body] with bounds the body leaves alone. *)
Definition for_range {S : Type} (lo hi : Z) (body : Z -> S -> option S)
  : S -> option S :=
  foldM body (zrange lo hi).

(** [for (long i = head; i != -1; i = next(i)) body]: the walk along a linked
    list.  [next_of] reads the link in the current state; the walk stops with
    [None] when the fuel is used up (a list with a cycle) or a read fails. *)
Fixpoint for_chain {S : Type} (fuel : nat) (next_of : S -> Z -> option Z)
  (i : Z) (body : Z -> S -> option S) (s : S) : option S :=
  if (i =? -1)%Z then Some s
  else match fuel with
       | O => None
       | S fuel' =>
           s' <- body i s ;;
           n <- next_of s' i ;;
           for_chain fuel' next_of n body s'
       end.

(** ** The data model of davis.h *)

Section Model.

Context {T : Type} {Sc : Scalar T}.
Local Open Scope scalar_scope.

(** Modelled from the spec: davis.h is not among the sources; its [vec] is
    "an ordered triple (x, y, z) of 64-bit floating point components". *)
Record vec : Type := mkvec { x : T; y : T; z : T }.

(** Modelled from the spec: "Particle: {r: Vec position, v: Vec velocity,
    a: Vec acceleration, next: signed integer index}" (davis.h). *)
Record Particle : Type := mkParticle { r : vec; v : vec; a : vec; next : Z }.

(** Modelled from the spec: "Stats: {ww_counter: candidate pair count,
    real_ww_counter: count of pairs within cutoff, E_pot: accumulated
    potential energy}" (davis.h). *)
Record Stats : Type :=
  mkStats { ww_counter : Z; real_ww_counter : Z; E_pot : T }.

(** Modelled from the spec: "Cells: {dr: double cell edge length, binning:
    positive integer L, num_cells: L^3, cells: sequence of L^3 signed
    indices}" (davis.h). *)
Record Cells : Type :=
  mkCells { dr : T; binning : Z; num_cells : Z; cells : list Z }.

Definition lit_zero : T := of_long 0.
Definition lit_one : T := of_long 1.
Definition lit_two : T := of_long 2.

(** Modelled from the spec: the vector macros of davis.h, "3-vector
    add/subtract/scale/dot/magnitude^2 operating on triples of doubles.
    Arithmetic is componentwise; dot and magnitude are standard Euclidean." *)
Definition VEC_ZERO : vec := mkvec lit_zero lit_zero lit_zero.

Definition vec_add (u w : vec) : vec :=
  mkvec (x u + x w) (y u + y w) (z u + z w).

Definition vec_sub (u w : vec) : vec :=
  mkvec (x u - x w) (y u - y w) (z u - z w).

Definition vec_sclr (s : T) (u : vec) : vec :=
  mkvec (s * x u) (s * y u) (s * z u).

Definition vec_dot (u w : vec) : T :=
  x u * x w + y u * y w + z u * z w.

Definition vec_magnitude2 (u : vec) : T := vec_dot u u.

(** [vec_inc(u, w)] is [u += w] and [vec_dec(u, w)] is [u -= w]; the
    assignment to the field is written with the setters below. *)
Definition vec_inc (u w : vec) : vec := vec_add u w.
Definition vec_dec (u w : vec) : vec := vec_sub u w.

(** Modelled from the spec: the macros [MAX] and [MIN] of davis.h. *)
Definition MAX (m n : Z) : Z := if (m <? n)%Z then n else m.
Definition MIN (m n : Z) : Z := if (m <? n)%Z then m else n.

Definition set_r (p : Particle) (u : vec) : Particle :=
  mkParticle u (v p) (a p) (next p).
Definition set_v (p : Particle) (u : vec) : Particle :=
  mkParticle (r p) u (a p) (next p).
Definition set_a (p : Particle) (u : vec) : Particle :=
  mkParticle (r p) (v p) u (next p).
Definition set_next (p : Particle) (n : Z) : Particle :=
  mkParticle (r p) (v p) (a p) n.

(** ** The integrator: [dvs_advance] and [dvs_correct] *)

(** The argument of the square root in [dvs_advance], from the saved position
    [old_r] and the predicted position [r1]. *)
Definition rattle_discriminant (old_r r1 : vec) : T :=
  let r0_dot_r := vec_dot old_r r1 in
  let r0_sqr := vec_dot r1 r1 in
  lit_one - r0_sqr + r0_dot_r * r0_dot_r.

(** [lambda] of [dvs_advance]. *)
Definition rattle_lambda (old_r r1 : vec) : T :=
  let r0_dot_r := vec_dot old_r r1 in
  - r0_dot_r + ssqrt (rattle_discriminant old_r r1).

(** The velocity and the position after the first two statements of the loop
    body: the half kick and the drift. *)
Definition kicked_v (dt_hlf : T) (p : Particle) : vec :=
  vec_inc (v p) (vec_sclr dt_hlf (a p)).

Definition predicted_r (dt : T) (p : Particle) : vec :=
  vec_inc (r p) (vec_sclr dt (kicked_v (lit_half * dt) p)).

(** The body of the loop of [dvs_advance] on the particle [*p]. *)
Definition advance_particle (dt : T) (p : Particle) : Particle :=
  let dt_hlf := lit_half * dt in
  let old_r := r p in
  let p := set_v p (kicked_v dt_hlf p) in
  let p := set_r p (vec_inc (r p) (vec_sclr dt (v p))) in
  let p := set_a p VEC_ZERO in
  let lambda := rattle_lambda old_r (r p) in
  let p := set_r p (vec_inc (r p) (vec_sclr lambda old_r)) in
  let p := set_v p (vec_inc (v p) (vec_sclr (lambda / dt) old_r)) in
  p.

Definition dvs_advance (nparticles : Z) (ps : list Particle) (dt : T)
  : option (list Particle) :=
  for_range 0 nparticles (rewrite_at (advance_particle dt)) ps.

(** The body of the loop of [dvs_correct] on the particle [*p]. *)
Definition correct_particle (dt : T) (p : Particle) : Particle :=
  let dt_hlf := lit_half * dt in
  let p := set_v p (vec_inc (v p) (vec_sclr dt_hlf (a p))) in
  let lambda := - vec_dot (v p) (r p) in
  let p := set_v p (vec_inc (v p) (vec_sclr lambda (r p))) in
  p.

Definition dvs_correct (nparticles : Z) (ps : list Particle) (dt : T)
  : option (list Particle) :=
  for_range 0 nparticles (rewrite_at (correct_particle dt)) ps.

(** ** The two-body force kernel *)

(** The memory the force sweeps work on: the particle array and the [Stats]
    they are handed, and a ghost log of the calls of the kernel, which the
    code does not have.  A call [dvs_calc_force(ps + i, ps + j, ...)] is
    logged as [(i, j)]. *)
Record Mem : Type :=
  mkMem { particles : list Particle; stats : Stats; calls : list (Z * Z) }.

(** [force_mag] of the kernel, and its increment of [E_pot]. *)
Definition force_magnitude (r2 cutoff2 : T) : T :=
  lit_one / r2 - lit_one / cutoff2.

Definition pair_energy (cutoff rlen : T) : T :=
  lit_one / rlen + rlen / (cutoff * cutoff) - lit_two / cutoff.

(** The force that the kernel adds to [p->a] and takes from [q->a] when the
    pair interacts: the radial force and the damping. *)
Definition pair_force (cutoff gamma : T) (p q : Particle) : vec :=
  let dr := vec_sub (r p) (r q) in
  let r2 := vec_magnitude2 dr in
  let cutoff2 := cutoff * cutoff in
  let rlen := ssqrt r2 in
  let force_mag := force_magnitude r2 cutoff2 in
  let force := vec_sclr (force_mag / rlen) dr in
  let dv := vec_sub (v p) (v q) in
  let damping := vec_sclr (- gamma) dv in
  vec_inc force damping.

(** The test [r2 < cutoff2] of the kernel. *)
Definition within_cutoff (cutoff : T) (p q : Particle) : bool :=
  let dr := vec_sub (r p) (r q) in
  let r2 := vec_magnitude2 dr in
  let cutoff2 := cutoff * cutoff in
  r2 <? cutoff2.

(** [dvs_calc_force(ps + i, ps + j, cutoff, gamma, stats)].  The two
    particles are read and written in the array, so that [p] and [q] naming
    the same particle behaves as it does in C. *)
Definition dvs_calc_force (i j : Z) (cutoff gamma : T) (m : Mem)
  : option Mem :=
  p <- get (particles m) i ;;
  q <- get (particles m) j ;;
  let dr := vec_sub (r p) (r q) in
  let r2 := vec_magnitude2 dr in
  let st := stats m in
  let st := mkStats (ww_counter st + 1) (real_ww_counter st) (E_pot st) in
  let log := calls m ++ [(i, j)] in
  if within_cutoff cutoff p q then
    let rlen := ssqrt r2 in
    let st := mkStats (ww_counter st) (real_ww_counter st + 1) (E_pot st) in
    let st := mkStats (ww_counter st) (real_ww_counter st)
                (E_pot st + pair_energy cutoff rlen) in
    let force := pair_force cutoff gamma p q in
    ps1 <- put (particles m) i (set_a p (vec_inc (a p) force)) ;;
    q1 <- get ps1 j ;;
    ps2 <- put ps1 j (set_a q1 (vec_dec (a q1) force)) ;;
    Some (mkMem ps2 st log)
  else Some (mkMem (particles m) st log).

(** ** The cell grid *)

(** [Cells_new]: malloc leaves the head table indeterminate; [junk] gives
    what it holds.  [Cells_free] only releases the two blocks: the embedding
    has no heap, and no definition for it. *)
Definition Cells_new (junk : Z -> Z) (binning num_particles : Z) : Cells :=
  let num_cells := (binning * binning * binning)%Z in
  mkCells (lit_two / of_long binning) binning num_cells
    (map junk (zrange 0 num_cells)).

Definition set_cells (self : Cells) (heads : list Z) : Cells :=
  mkCells (dr self) (binning self) (num_cells self) heads.

Definition Cells_clear (self : Cells) : option Cells :=
  for_range 0 (num_cells self)
    (fun i self => heads <- put (cells self) i (-1)%Z ;;
                   Some (set_cells self heads)) self.

(** The bin of a coordinate [c] in [dvs_populate_cells]. *)
Definition bin_of (self : Cells) (c : T) : Z :=
  MAX 0 (MIN (floor_int ((c + lit_one) / dr self)) (binning self - 1)).

Definition cell_of (self : Cells) (p : Particle) : Z :=
  let L := binning self in
  let L2 := (L * L)%Z in
  let bin_x := bin_of self (x (r p)) in
  let bin_y := bin_of self (y (r p)) in
  let bin_z := bin_of self (z (r p)) in
  (bin_x + bin_y * L + bin_z * L2)%Z.

(** One round of the loop of [dvs_populate_cells], for particle [i]. *)
Definition populate_step (i : Z) (s : list Particle * Cells)
  : option (list Particle * Cells) :=
  let (ps, self) := s in
  p <- get ps i ;;
  let cellNum := cell_of self p in
  head <- get (cells self) cellNum ;;
  ps' <- put ps i (set_next p head) ;;
  heads <- put (cells self) cellNum i ;;
  Some (ps', set_cells self heads).

Definition dvs_populate_cells (nparticles : Z) (ps : list Particle)
  (self : Cells) : option (list Particle * Cells) :=
  self <- Cells_clear self ;;
  for_range 0 nparticles populate_step (ps, self).

(** ** The force sweeps *)

(** [ps[i].next] in the memory [m]. *)
Definition next_of (m : Mem) (i : Z) : option Z :=
  p <- get (particles m) i ;; Some (next p).

(** The body of the three inner loops of [dvs_calc_forces]: the cell
    [this_cell] against its neighbour at [(nnx, nny, nnz)]. *)
Definition sweep_cell_pair (fuel : nat) (self : Cells) (cutoff gamma : T)
  (this_cell nnx nny nnz : Z) (m : Mem) : option Mem :=
  let L := binning self in
  let L2 := (L * L)%Z in
  let other_cell := (nnx + nny * L + nnz * L2)%Z in
  if (this_cell >? other_cell)%Z then Some m
  else if (this_cell =? other_cell)%Z then
    head <- get (cells self) this_cell ;;
    for_chain fuel next_of head
      (fun i m =>
         n <- next_of m i ;;
         for_chain fuel next_of n
           (fun j => dvs_calc_force i j cutoff gamma) m) m
  else
    head <- get (cells self) this_cell ;;
    for_chain fuel next_of head
      (fun i m =>
         head' <- get (cells self) other_cell ;;
         for_chain fuel next_of head'
           (fun j => dvs_calc_force i j cutoff gamma) m) m.

(** The body of the three outer loops: the cell at [(x, y, z)]. *)
Definition sweep_cell (fuel : nat) (self : Cells) (cell0 cell1 : Z)
  (cutoff gamma : T) (x y z : Z) (m : Mem) : option Mem :=
  let L := binning self in
  let L2 := (L * L)%Z in
  let this_cell := (x + L * y + L2 * z)%Z in
  head <- get (cells self) this_cell ;;
  if (head =? -1)%Z then Some m
  else if ((this_cell <? cell0) || (this_cell >=? cell1))%Z then Some m
  else
    for_range (MAX 0 (z - 1)) (MIN L (z + 2)) (fun nnz =>
      for_range (MAX 0 (y - 1)) (MIN L (y + 2)) (fun nny =>
        for_range (MAX 0 (x - 1)) (MIN L (x + 2)) (fun nnx =>
          sweep_cell_pair fuel self cutoff gamma this_cell nnx nny nnz))) m.

Definition dvs_calc_forces (fuel : nat) (self : Cells) (cell0 cell1 : Z)
  (cutoff gamma : T) : Mem -> option Mem :=
  let L := binning self in
  for_range 0 L (fun z =>
    for_range 0 L (fun y =>
      for_range 0 L (fun x =>
        sweep_cell fuel self cell0 cell1 cutoff gamma x y z))).

Definition dvs_calc_brute_forces (nparticles first_particle last_particle : Z)
  (cutoff gamma : T) : Mem -> option Mem :=
  for_range first_particle last_particle (fun i =>
    for_range (i + 1) nparticles (fun j =>
      dvs_calc_force i j cutoff gamma)).

(** ** Array utilities *)

(** [dvs_collect_forces]: the state is the pair of the two arrays. *)
Definition dvs_collect_forces (nparticles : Z)
  : list Particle * list Particle -> option (list Particle * list Particle) :=
  for_range 0 nparticles
    (fun i '(accu, part) =>
       pa <- get accu i ;;
       pp <- get part i ;;
       accu' <- put accu i (set_a pa (vec_inc (a pa) (a pp))) ;;
       Some (accu', part)).

(** [dvs_visualise_positions]: the state is the array [target] of doubles,
    an object apart from [ps]. *)
Definition dvs_visualise_positions (nparticles : Z) (ps : list Particle)
  : list T -> option (list T) :=
  for_range 0 nparticles
    (fun i target =>
       p <- get ps i ;;
       target <- put target (i * 3) (x (r p)) ;;
       p <- get ps i ;;
       target <- put target (i * 3 + 1) (y (r p)) ;;
       p <- get ps i ;;
       put target (i * 3 + 2) (z (r p))).

(** [dvs_copy_particles]: [memcpy] writes the first [nparticles] particles of
    [src] over those of [dst], two arrays that do not overlap.  It is
    undefined when one of the arrays is shorter, and when [nparticles] is
    negative: [nparticles * sizeof(Particle)] is then a huge [size_t]. *)
Definition dvs_copy_particles (nparticles : Z) (src dst : list Particle)
  : option (list Particle) :=
  if ((0 <=? nparticles) && (nparticles <=? Z.of_nat (length src))
      && (nparticles <=? Z.of_nat (length dst)))%Z
  then Some (firstn (Z.to_nat nparticles) src
             ++ skipn (Z.to_nat nparticles) dst)
  else None.

End Model.

Arguments vec T : clear implicits.
Arguments Particle T : clear implicits.
Arguments Stats T : clear implicits.
Arguments Cells T : clear implicits.
Arguments Mem T : clear implicits.

(** ** Exact arithmetic: the real numbers *)

Definition Rltb (a b : R) : bool := if Rlt_dec a b then true else false.

(** The conversion [(int)] of an integral value.  Outside the range of [int]
    it is undefined in C; the model takes what the x86-64 conversion gives,
    [INT_MIN]. *)
Definition to_int (n : Z) : Z :=
  if ((- 2 ^ 31 <=? n) && (n <? 2 ^ 31))%Z then n else (- 2 ^ 31)%Z.

#[export] Instance real_scalar : Scalar R := {|
  of_long := IZR;
  lit_half := (/ 2)%R;
  sadd := Rplus;
  ssub := Rminus;
  smul := Rmult;
  sdiv := Rdiv;
  sneg := Ropp;
  ssqrt := sqrt;
  sltb := Rltb;
  floor_int := fun u => to_int (Zfloor u)
|}.

(** ** binary64: the arithmetic of [double] *)

(** [floor] of a finite double, as an integer. *)
Definition float_floor (f : float) : option Z :=
  match Prim2SF f with
  | S754_zero _ => Some 0%Z
  | S754_finite s m e =>
      let n := if s then Z.neg m else Z.pos m in
      Some (if (0 <=? e)%Z then n * 2 ^ e else n / 2 ^ (- e))%Z
  | _ => None
  end.

(** [(int)floor(x)]; infinities and NaN convert as the values out of
    range do. *)
Definition float_floor_int (f : float) : Z :=
  match float_floor f with
  | Some n => to_int n
  | None => (- 2 ^ 31)%Z
  end.

Definition float_of_long (k : Z) : float :=
  SF2Prim (binary_normalize prec emax k 0 false).

#[export] Instance float_scalar : Scalar float := {|
  of_long := float_of_long;
  lit_half := 0.5%float;
  sadd := PrimFloat.add;
  ssub := PrimFloat.sub;
  smul := PrimFloat.mul;
  sdiv := PrimFloat.div;
  sneg := PrimFloat.opp;
  ssqrt := PrimFloat.sqrt;
  sltb := PrimFloat.ltb;
  floor_int := float_floor_int
|}.

(** * The vocabulary of the properties *)

Section Lengths.

Local Open Scope R_scope.
Implicit Types (p q : Particle R) (ps : list (Particle R)) (m : Mem R)
  (e : Z * Z) (u w : vec R).

(** The Euclidean length [|u|]. *)
Definition vec_norm u : R := sqrt (vec_magnitude2 u).

End Lengths.

Section KernelRuns.

Context {T : Type} {Sc : Scalar T}.
Implicit Types (p q : Particle T) (ps accu part : list (Particle T))
  (m : Mem T) (self : Cells T).

(** What a force sweep never changes in a particle: all but [a]. *)
Definition same_frame p p' : Prop :=
  r p' = r p /\ v p' = v p /\ next p' = next p.

(** The calls of the kernel on the pairs of [l], in order. *)
Definition run_pairs (cutoff gamma : T) (l : list (Z * Z)) m : option (Mem T) :=
  foldM (fun ij => dvs_calc_force (fst ij) (snd ij) cutoff gamma) l m.

Definition in_array m (k : Z) : Prop :=
  (0 <= k < Z.of_nat (length (particles m)))%Z.

(** The pairs of the upper-triangle sweep, in the order of the two loops. *)
Definition brute_pairs (nparticles first_particle last_particle : Z)
  : list (Z * Z) :=
  flat_map (fun i => map (pair i) (zrange (i + 1) nparticles))
    (zrange first_particle last_particle).

(** The element [k] of [accu] after the rounds [0 .. i-1] of
    [dvs_collect_forces]. *)
Definition collected part (i k : Z) (pa : Particle T) : Particle T :=
  if ((0 <=? k) && (k <? i))%Z then
    match get part k with
    | Some pp => set_a pa (vec_add (a pa) (a pp))
    | None => pa
    end
  else pa.

End KernelRuns.

(** A particle on the unit sphere at (1, 0, 0) that moves outwards with the
    velocity [2^27], without acceleration. *)
Definition outward_particle {T : Type} {Sc : Scalar T} : Particle T :=
  mkParticle (mkvec lit_one lit_zero lit_zero)
    (mkvec (of_long 134217728) lit_zero lit_zero) VEC_ZERO 0.

Section ZeroStep.

Local Open Scope float_scope.
Implicit Types (p : Particle float).

(** The six points where the axes meet the unit sphere. *)
Definition axis_points : list (vec float) :=
  [mkvec 1 0 0; mkvec (-1) 0 0; mkvec 0 1 0; mkvec 0 (-1) 0; mkvec 0 0 1;
   mkvec 0 0 (-1)].

(** A particle at one of these points, with no velocity and no
    acceleration. *)
Definition at_rest_on_axis p : Prop :=
  In (r p) axis_points /\ v p = mkvec 0 0 0 /\ a p = mkvec 0 0 0.

Definition all_nan (u : vec float) : bool :=
  is_nan (x u) && is_nan (y u) && is_nan (z u).

End ZeroStep.

(** The links of an array of particles: [nexts ps k] is [ps[k].next]. *)
Definition nexts {T : Type} (ps : list (Particle T)) (k : Z) : option Z :=
  p <- get ps k ;; Some (next p).

(** The indices that [for (i = head; i != -1; i = next(i))] goes through. *)
Fixpoint chain (fuel : nat) (nxt : Z -> option Z) (i : Z) : option (list Z) :=
  if (i =? -1)%Z then Some []
  else match fuel with
       | O => None
       | S fuel' => n <- nxt i ;; l <- chain fuel' nxt n ;; Some (i :: l)
       end.

Inductive is_chain (nxt : Z -> option Z) : Z -> list Z -> Prop :=
| is_chain_end : is_chain nxt (-1) []
| is_chain_link i n l :
    i <> (-1)%Z -> nxt i = Some n -> is_chain nxt n l ->
    is_chain nxt i (i :: l).

(** A walk over the linked list of each cell of [cs], one cell after the
    other; [None] if a walk does not end within the fuel. *)
Fixpoint gather {I B : Type} (f : I -> option (list B)) (l : list I)
  : option (list B) :=
  match l with
  | [] => Some []
  | c :: l' => u <- f c ;; w <- gather f l' ;; Some (u ++ w)
  end.

Definition walk_cells {T : Type} (fuel : nat) (ps : list (Particle T))
  (self : Cells T) : option (list Z) :=
  gather (fun c => head <- get (cells self) c ;; chain fuel (nexts ps) head)
    (zrange 0 (num_cells self)).

Section Grids.

Context {T : Type} {Sc : Scalar T}.
Implicit Types (p q : Particle T) (ps accu part : list (Particle T))
  (m : Mem T) (self : Cells T).

(** A grid as [Cells_new] makes it, whatever its head table holds. *)
Definition grid_ok self : Prop :=
  (1 <= binning self)%Z /\
  num_cells self = (binning self * binning self * binning self)%Z /\
  Z.of_nat (length (cells self)) = num_cells self.

(** Two grids with the same geometry (all but the head table). *)
Definition same_grid self self' : Prop :=
  dr self' = dr self /\ binning self' = binning self /\
  num_cells self' = num_cells self /\
  length (cells self') = length (cells self).

(** What [dvs_populate_cells] never changes in a particle: all but [next]. *)
Definition same_place (p p' : Particle T) : Prop :=
  r p' = r p /\ v p' = v p /\ a p' = a p.

(** The cell of particle [k], and the particles among the first [i] that are
    in cell [c], the last one first. *)
Definition cell_index self ps (k : Z) : Z :=
  match get ps k with Some p => cell_of self p | None => (-1)%Z end.

Definition bucket self ps (i c : Z) : list Z :=
  rev (filter (fun k => (cell_index self ps k =? c)%Z) (zrange 0 i)).

(** The state of the loop of [dvs_populate_cells] before round [i]: the
    list of each cell holds the particles before [i] that are in the cell. *)
Definition populated self ps (i : Z) (s : list (Particle T) * Cells T)
  : Prop :=
  Forall2 same_place ps (fst s) /\ same_grid self (snd s) /\
  forall c, (0 <= c < num_cells self)%Z ->
    exists h, get (cells (snd s)) c = Some h /\
              is_chain (nexts (fst s)) h (bucket self ps i c).

End Grids.

(** The pairs [(i, j)] with [i] before [j] in [l], and the pairs with [i] in
    [l] and [j] in [l'], in the order of two nested loops. *)
Fixpoint tri (l : list Z) : list (Z * Z) :=
  match l with
  | [] => []
  | i :: t => map (pair i) t ++ tri t
  end.

Definition cross (l l' : list Z) : list (Z * Z) :=
  flat_map (fun i => map (pair i) l') l.

Section PairsOfCells.

(** [B c] is the list of the particles of the cell [c]; [L] the binning. *)
Variable B : Z -> list Z.
Variable L : Z.

Definition pair_list (this_cell other_cell : Z) : list (Z * Z) :=
  if (this_cell >? other_cell)%Z then []
  else if (this_cell =? other_cell)%Z then tri (B this_cell)
  else cross (B this_cell) (B other_cell).

Definition neighbour_pairs (this_cell x y z : Z) : list (Z * Z) :=
  flat_map (fun nnz =>
    flat_map (fun nny =>
      flat_map (fun nnx =>
        pair_list this_cell (nnx + nny * L + nnz * (L * L))%Z)
        (zrange (MAX 0 (x - 1)) (MIN L (x + 2))))
      (zrange (MAX 0 (y - 1)) (MIN L (y + 2))))
    (zrange (MAX 0 (z - 1)) (MIN L (z + 2))).

Definition cell_pairs_at (cell0 cell1 x y z : Z) : list (Z * Z) :=
  let this_cell := (x + L * y + L * L * z)%Z in
  if ((this_cell <? cell0) || (this_cell >=? cell1))%Z then []
  else neighbour_pairs this_cell x y z.

(** The calls of [dvs_calc_forces] over the cells [cell0 .. cell1 - 1]. *)
Definition cell_pairs (cell0 cell1 : Z) : list (Z * Z) :=
  flat_map (fun z =>
    flat_map (fun y =>
      flat_map (fun x => cell_pairs_at cell0 cell1 x y z) (zrange 0 L))
      (zrange 0 L))
    (zrange 0 L).

End PairsOfCells.

Section KernelEffect.

Context {T : Type} {Sc : Scalar T}.
Implicit Types (p q : Particle T) (ps accu part : list (Particle T))
  (m : Mem T) (self : Cells T).

Definition keeps_frame (body : Mem T -> option (Mem T)) : Prop :=
  forall m m', body m = Some m' ->
               Forall2 same_frame (particles m) (particles m').

Definition framed m m' : Prop :=
  Forall2 same_frame (particles m) (particles m').

(** The grid [self] lists the particles [B c] in each cell [c], through the
    links of [m], within the fuel. *)
Definition lists_cells (self : Cells T) m (B : Z -> list Z) (fuel : nat)
  : Prop :=
  forall c, (0 <= c < binning self * binning self * binning self)%Z ->
    exists h, get (cells self) c = Some h /\
              is_chain (next_of m) h (B c) /\ (length (B c) <= fuel)%nat.

(** The particle [pk = ps[k]] after [dvs_calc_force(ps + i, ps + j, ...)],
    where [p = ps[i]] and [q = ps[j]]. *)
Definition kernel_update (cutoff gamma : T) p q (i j k : Z) (pk : Particle T)
  : Particle T :=
  if within_cutoff cutoff p q then
    let force := pair_force cutoff gamma p q in
    let p1 := if (k =? i)%Z then set_a pk (vec_inc (a pk) force) else pk in
    if (k =? j)%Z then set_a p1 (vec_dec (a p1) force) else p1
  else pk.

Definition kernel_stats (cutoff : T) p q (st : Stats T) : Stats T :=
  if within_cutoff cutoff p q then
    mkStats (ww_counter st + 1) (real_ww_counter st + 1)
      (E_pot st
       + pair_energy cutoff (ssqrt (vec_magnitude2 (vec_sub (r p) (r q)))))%sc
  else mkStats (ww_counter st + 1) (real_ww_counter st) (E_pot st).

End KernelEffect.

(** The sum of a list in a commutative monoid. *)
Definition msum {M : Type} (zero : M) (plus : M -> M -> M) (l : list M)
  : M :=
  fold_right plus zero l.

Section PairTerms.

Local Open Scope R_scope.
Implicit Types (p q : Particle R) (ps : list (Particle R)) (m : Mem R)
  (e : Z * Z) (u w : vec R).

Definition vzero : vec R := VEC_ZERO.

Definition vsum : list (vec R) -> vec R := msum vzero vec_add.

Definition rsum : list R -> R := msum 0 Rplus.

Definition zsum : list Z -> Z := msum 0%Z Z.add.

(** The two particles of a pair, and what the pair adds to the counter of
    interacting pairs, to the energy, and to the acceleration of the
    particle [k]. *)
Definition pair_at ps e : option (Particle R * Particle R) :=
  p <- get ps (fst e) ;; q <- get ps (snd e) ;; Some (p, q).

Definition interacts ps (rc : R) e : bool :=
  match pair_at ps e with
  | Some (p, q) => within_cutoff rc p q
  | None => false
  end.

Definition count_term ps (rc : R) e : Z :=
  if interacts ps rc e then 1%Z else 0%Z.

Definition energy_term ps (rc : R) e : R :=
  match pair_at ps e with
  | Some (p, q) =>
      if within_cutoff rc p q
      then pair_energy rc (vec_norm (vec_sub (r p) (r q))) else 0
  | None => 0
  end.

Definition keep_if (b : bool) u : vec R := if b then u else vzero.

Definition force_term ps (rc gamma : R) (k : Z) e : vec R :=
  match pair_at ps e with
  | Some (p, q) =>
      if within_cutoff rc p q
      then vec_sub (keep_if (k =? fst e)%Z (pair_force rc gamma p q))
                   (keep_if (k =? snd e)%Z (pair_force rc gamma p q))
      else vzero
  | None => vzero
  end.

End PairTerms.

(** Modelled from the spec: the driver of the force sweeps is not among the
    sources; "each partition processes a disjoint slice of primary cells
    into its own copy of the particle array's [a] fields; partitions are
    later summed by [collect_forces]".  [cuts] is [c_0, c_1, ..., c_n];
    the sweep of the range [c_k, c_k+1) starts from [ps0], and its
    accelerations are added to [accu]. *)
Fixpoint sweep_partitions {T : Type} {Sc : Scalar T} (fuel : nat)
  (self : Cells T) (cuts : list Z) (cutoff gamma : T) (st : Stats T)
  (ps0 accu : list (Particle T)) : option (list (Particle T)) :=
  match cuts with
  | [] => Some accu
  | c0 :: rest =>
      match rest with
      | [] => Some accu
      | c1 :: _ =>
          m <- dvs_calc_forces fuel self c0 c1 cutoff gamma
                 (mkMem ps0 st []) ;;
          s <- dvs_collect_forces (Z.of_nat (length accu))
                 (accu, particles m) ;;
          sweep_partitions fuel self rest cutoff gamma st ps0 (fst s)
      end
  end.

(** A copy of the particles with zero accelerations. *)
Definition zero_accelerations {T : Type} {Sc : Scalar T}
  (ps : list (Particle T)) : list (Particle T) :=
  map (fun p => set_a p VEC_ZERO) ps.

(** [cuts] is [lo = c_0 <= c_1 <= ... <= c_n = hi]. *)
Inductive tiles : Z -> Z -> list Z -> Prop :=
| tiles_end c : tiles c c [c]
| tiles_step c c' hi rest :
    (c <= c')%Z -> tiles c' hi (c' :: rest) -> tiles c hi (c :: c' :: rest).

(** What the sweep of the cells [c0 .. c1 - 1], over the particles [ps0]
    listed by [B], adds to the acceleration
    of the particle [k]. *)
Definition range_force (ps0 : list (Particle R)) (self1 : Cells R)
  (B : Z -> list Z) (rc gamma : R) (c0 c1 k : Z) : vec R :=
  vsum (map (force_term ps0 rc gamma k) (cell_pairs B (binning self1) c0 c1)).

Section SweepOrder.

Local Open Scope Z_scope.

(** The particle [k] has the bins [bx k], [by' k], [bz k] in a grid of
    binning [L]. *)
Variables (L : Z) (bx by' bz : Z -> Z).

Definition cell (k : Z) : Z := bx k + L * by' k + L * L * bz k.

(** The cells of [i] and [j] touch. *)
Definition near (i j : Z) : Prop :=
  -1 <= bx j - bx i <= 1 /\ -1 <= by' j - by' i <= 1 /\
  -1 <= bz j - bz i <= 1.

(** The order in which the sweep takes the two particles of a pair. *)
Definition swept_before (i j : Z) : Prop :=
  cell i < cell j \/ (cell i = cell j /\ j < i).

(** A pair with its smaller index first, as the brute sweep takes it. *)
Definition ordered (e : Z * Z) : Z * Z :=
  if fst e <? snd e then e else (snd e, fst e).

End SweepOrder.

Section ParticleBins.

Context {T : Type} {Sc : Scalar T}.
Implicit Types (p q : Particle T) (ps accu part : list (Particle T))
  (m : Mem T) (self : Cells T).

Definition bin_x self ps (k : Z) : Z :=
  match get ps k with Some p => bin_of self (x (r p)) | None => 0%Z end.

Definition bin_y self ps (k : Z) : Z :=
  match get ps k with Some p => bin_of self (y (r p)) | None => 0%Z end.

Definition bin_z self ps (k : Z) : Z :=
  match get ps k with Some p => bin_of self (z (r p)) | None => 0%Z end.

End ParticleBins.

Section Conversions.

Local Open Scope R_scope.
Implicit Types (p q : Particle R) (ps : list (Particle R)) (m : Mem R)
  (e : Z * Z) (u w : vec R).

(** The conversion to [int] of the bin of the coordinate [c] is defined. *)
Definition bin_defined (self : Cells R) (c : R) : Prop :=
  (- 2 ^ 31 <= Zfloor ((c + 1) / dr self) < 2 ^ 31)%Z.

Definition bins_defined (self : Cells R) (p : Particle R) : Prop :=
  bin_defined self (x (r p)) /\ bin_defined self (y (r p)) /\
  bin_defined self (z (r p)).

End Conversions.

Section Binary64Runs.

Local Open Scope float_scope.
Implicit Types (p : Particle float).

Definition at_origin : vec float := mkvec 0 0 0.

(** Four particles on the unit sphere around (1, 0, 0), at rest: the points
    at the polar angles [pi/2 + k/64] and azimuths [k'/64], rounded to
    binary64. *)
Definition four_particles : list (Particle float) :=
  [ mkParticle (mkvec 0x1.ffb0036a9a71fp-1 0x1.ffdaabaeeb75ep-6
                  0x1.fffaaaaeeeef8p-7) at_origin at_origin 0;
    mkParticle (mkvec 0x1.e985fc7716853p-1 0x1.934cbc76d9553p-3
                  0x1.bc6f84edc619cp-3) at_origin at_origin 0;
    mkParticle (mkvec 0x1.fc32617ba20cap-1 (-0x1.7e44a7a5015e0p-4)
                  0x1.3facb12d1755fp-4) at_origin at_origin 0;
    mkParticle (mkvec 0x1.f6f705d8f2a46p-1 0x1.7db515037f502p-3
                  (-0x1.fffaaaaeeeeb2p-7)) at_origin at_origin 0 ].

(** Two particles at opposite points of the unit sphere. *)
Definition two_antipodes : list (Particle float) :=
  [ mkParticle (mkvec 1 0 0) at_origin at_origin 0;
    mkParticle (mkvec (-1) 0 0) at_origin at_origin 0 ].

Definition no_stats : Stats float := mkStats 0 0 0.

(** The sweep over the cells and the brute sweep, after
    [dvs_populate_cells] on a fresh grid of binning [L]: the two [Stats]. *)
Definition both_sweeps (L : Z) (cutoff gamma : float)
  (ps : list (Particle float)) : option (Stats float * Stats float) :=
  let N := Z.of_nat (length ps) in
  s <- dvs_populate_cells N ps (Cells_new (fun _ => 0%Z) L N) ;;
  mc <- dvs_calc_forces (length ps) (snd s) 0 (L * L * L) cutoff gamma
          (mkMem (fst s) no_stats []) ;;
  mb <- dvs_calc_brute_forces N 0 N cutoff gamma
          (mkMem (fst s) no_stats []) ;;
  Some (stats mc, stats mb).

(** The accelerations of the particle [k] after the sweeps over the ranges
    of [cuts] summed by [dvs_collect_forces], and after one sweep over all
    the cells. *)
Definition partitioned_and_whole (L : Z) (cuts : list Z)
  (cutoff gamma : float) (ps : list (Particle float)) (k : Z)
  : option (vec float * vec float) :=
  let N := Z.of_nat (length ps) in
  s <- dvs_populate_cells N ps (Cells_new (fun _ => 0%Z) L N) ;;
  accu <- sweep_partitions (length ps) (snd s) cuts cutoff gamma no_stats
            (zero_accelerations (fst s)) (zero_accelerations (fst s)) ;;
  full <- dvs_calc_forces (length ps) (snd s) 0 (L * L * L) cutoff gamma
            (mkMem (zero_accelerations (fst s)) no_stats []) ;;
  pa <- get accu k ;;
  pf <- get (particles full) k ;;
  Some (a pa, a pf).

(** 0.1 and 1e-12, rounded to binary64. *)
Definition one_tenth : float := 0x1.999999999999ap-4.

Definition tolerance : float := 0x1.19799812dea11p-40.

(** A particle at rest at (0.6, 0.8, 0), rounded to binary64, where
    [r . r] evaluates to 1, with an acceleration along its position. *)
Definition pushed_outward : Particle float :=
  mkParticle (mkvec 0x1.3333333333333p-1 0x1.999999999999ap-1 0)
    at_origin (mkvec 3 4 0) 0.

(** A particle at rest at (1, 0, 0), with an acceleration along its
    position. *)
Definition pushed_on_axis : Particle float :=
  mkParticle (mkvec 1 0 0) at_origin (mkvec 4 0 0) 0.

(** The test [|r . v| <= tol * |v|] fails for the particle [p]. *)
Definition off_tangent (tol : float) p : bool :=
  negb (PrimFloat.abs (vec_dot (r p) (v p))
        <=? tol * PrimFloat.sqrt (vec_dot (v p) (v p))).

(** Two particles next to the unit sphere with the same [y] and [z]; their
    [x] are a little less than 1/7 and a little less than -1/7, and differ
    by a little less than 2/7. *)
Definition two_across_a_cell : list (Particle float) :=
  [ mkParticle (mkvec 0x1.249249249248cp-3 0x1.fabfa2e1bc555p-1 0)
      at_origin at_origin 0;
    mkParticle (mkvec (-0x1.2492492492496p-3) 0x1.fabfa2e1bc555p-1 0)
      at_origin at_origin 0 ].

End Binary64Runs.

(** The real number that a finite double stands for. *)
Definition real_of (f : float) : R :=
  match Prim2SF f with
  | S754_finite s m e =>
      (IZR (if s then Z.neg m else Z.pos m) * powerRZ 2 e)%R
  | _ => 0%R
  end.

Section RealSamples.

Local Open Scope R_scope.

(** Two particles on the unit sphere, at the distance [sqrt (2/5)]. *)
Definition two_neighbours : list (Particle R) :=
  [ mkParticle (mkvec 1 0 0) VEC_ZERO VEC_ZERO 0;
    mkParticle (mkvec (4 / 5) (- 3 / 5) 0) VEC_ZERO VEC_ZERO 0 ].

(** Three particles on a meridian of the unit sphere; the one in the middle
    is at the distance [sqrt (2/5)] from each of the other two. *)
Definition three_on_a_meridian : list (Particle R) :=
  [ mkParticle (mkvec (4 / 5) 0 (3 / 5)) VEC_ZERO VEC_ZERO 0;
    mkParticle (mkvec 1 0 0) VEC_ZERO VEC_ZERO 0;
    mkParticle (mkvec (4 / 5) 0 (- 3 / 5)) VEC_ZERO VEC_ZERO 0 ].

End RealSamples.

(** What a sequence of calls of the kernel keeps: [body] relates the memory
    it starts from to the memory it returns by [Inv]. *)
Definition preserves {T : Type} (Inv : Mem T -> Mem T -> Prop)
  (body : Mem T -> option (Mem T)) : Prop :=
  forall m m', body m = Some m' -> Inv m m'.

(** From [m] to [m'] the counter of the interacting pairs has grown, by no
    more than the counter of the calls, which has grown by the number of
    the calls logged since [m]. *)
Definition counted {T : Type} (m m' : Mem T) : Prop :=
  (0 <= real_ww_counter (stats m') - real_ww_counter (stats m)
     <= ww_counter (stats m') - ww_counter (stats m))%Z /\
  exists l, calls m' = calls m ++ l /\
            (ww_counter (stats m') - ww_counter (stats m)
             = Z.of_nat (length l))%Z.

(** The sum of the accelerations of an array of particles. *)
Definition total_acceleration (ps : list (Particle R)) : vec R :=
  vsum (map a ps).

(** * Properties *)

(** ** Arrays and loops *)

Section Arrays.

Context {A : Type}.
Implicit Types (l : list A) (i : Z) (n : nat).

Lemma get_Some_range l i (e : A) :
  get l i = Some e -> (0 <= i < Z.of_nat (length l))%Z.
Proof.
  unfold get. destruct (Z.ltb_spec i 0); [discriminate|].
  intros H0. assert (Z.to_nat i < length l)%nat; [|lia].
  apply nth_error_Some. congruence.
Qed.

Lemma get_in_range l i :
  (0 <= i < Z.of_nat (length l))%Z -> exists e : A, get l i = Some e.
Proof.
  intros H. unfold get. destruct (Z.ltb_spec i 0); [lia|].
  destruct (nth_error l (Z.to_nat i)) eqn:E; [eauto|].
  apply nth_error_None in E. lia.
Qed.

Lemma get_app_length (l1 l2 : list A) (e : A) :
  get (l1 ++ e :: l2) (Z.of_nat (length l1)) = Some e.
Proof.
  unfold get. destruct (Z.ltb_spec (Z.of_nat (length l1)) 0); [lia|].
  rewrite Nat2Z.id. rewrite nth_error_app2 by lia.
  now rewrite Nat.sub_diag.
Qed.

Lemma upd_length l n (e : A) : length (upd l n e) = length l.
Proof.
  revert n. induction l as [|h t IH]; intros [|n]; simpl; auto.
Qed.

Lemma upd_app_length (l1 l2 : list A) (e e' : A) :
  upd (l1 ++ e :: l2) (length l1) e' = l1 ++ e' :: l2.
Proof.
  induction l1 as [|h t IH]; simpl; [reflexivity|]. now rewrite IH.
Qed.

Lemma nth_error_upd l n m (e : A) :
  nth_error (upd l n e) m =
  if Nat.eqb m n then (if Nat.ltb n (length l) then Some e else None)
  else nth_error l m.
Proof.
  revert n m. induction l as [|h t IH]; intros n m.
  - simpl. destruct (Nat.eqb m n); destruct m; reflexivity.
  - destruct n as [|n]; destruct m as [|m]; simpl; try reflexivity.
    rewrite IH. destruct (Nat.eqb m n); [|reflexivity].
    destruct (Nat.ltb_spec n (length t)), (Nat.ltb_spec (S n) (S (length t)));
      try reflexivity; lia.
Qed.

Lemma put_Some l i (e : A) :
  (0 <= i < Z.of_nat (length l))%Z -> put l i e = Some (upd l (Z.to_nat i) e).
Proof.
  intros Hi. unfold put.
  destruct (Z.leb_spec 0 i), (Z.ltb_spec i (Z.of_nat (length l)));
    simpl; try reflexivity; lia.
Qed.

Lemma put_inv l l' i (e : A) :
  put l i e = Some l' ->
  (0 <= i < Z.of_nat (length l))%Z /\ l' = upd l (Z.to_nat i) e.
Proof.
  unfold put.
  destruct (Z.leb_spec 0 i), (Z.ltb_spec i (Z.of_nat (length l)));
    simpl; intros E; inversion E; split; auto; lia.
Qed.

Lemma put_length l l' i (e : A) : put l i e = Some l' -> length l' = length l.
Proof.
  intros H. apply put_inv in H as [_ ->]. apply upd_length.
Qed.

Lemma put_app_length (l1 l2 : list A) (e e' : A) :
  put (l1 ++ e :: l2) (Z.of_nat (length l1)) e' = Some (l1 ++ e' :: l2).
Proof.
  rewrite put_Some.
  - now rewrite Nat2Z.id, upd_app_length.
  - rewrite length_app. simpl. lia.
Qed.

Lemma get_put_same l l' i (e : A) : put l i e = Some l' -> get l' i = Some e.
Proof.
  intros H. apply put_inv in H as [Hi ->]. unfold get.
  destruct (Z.ltb_spec i 0); [lia|]. rewrite nth_error_upd, Nat.eqb_refl.
  destruct (Nat.ltb_spec (Z.to_nat i) (length l)); [reflexivity|lia].
Qed.

Lemma get_put_other l l' i j (e : A) :
  put l i e = Some l' -> j <> i -> get l' j = get l j.
Proof.
  intros H Hij. apply put_inv in H as [Hi ->]. unfold get.
  destruct (Z.ltb_spec j 0); [reflexivity|]. rewrite nth_error_upd.
  destruct (Nat.eqb_spec (Z.to_nat j) (Z.to_nat i)); [lia|reflexivity].
Qed.

Lemma get_ext l l' :
  length l = length l' -> (forall i, get l i = get l' i) -> l = l'.
Proof.
  intros Hlen H. apply nth_error_ext. intros n.
  specialize (H (Z.of_nat n)). unfold get in H.
  destruct (Z.ltb_spec (Z.of_nat n) 0); [lia|]. now rewrite Nat2Z.id in H.
Qed.

End Arrays.

Lemma Forall2_get {A B : Type} (R : A -> B -> Prop) (l : list A)
  (l' : list B) (i : Z) (e : A) :
  Forall2 R l l' -> get l i = Some e ->
  exists e', get l' i = Some e' /\ R e e'.
Proof.
  unfold get. destruct (i <? 0)%Z; [discriminate|].
  generalize (Z.to_nat i). intros n H. revert n.
  induction H as [|h h' t t' Hh Ht IH]; intros [|n] Hn; simpl in *;
    try discriminate.
  - inversion Hn; subst. eauto.
  - auto.
Qed.

Lemma Forall2_put {A B : Type} (R : A -> B -> Prop) (l : list A)
  (l' l'' : list B) (i : Z) (e : A) (e' : B) :
  Forall2 R l l' -> get l i = Some e -> R e e' -> put l' i e' = Some l'' ->
  Forall2 R l l''.
Proof.
  intros H Hget He Hput. apply put_inv in Hput as [_ ->].
  unfold get in Hget. destruct (i <? 0)%Z; [discriminate|].
  revert Hget. generalize (Z.to_nat i). intros n. revert n.
  induction H as [|h h' t t' Hh Ht IH]; intros [|n] Hn; simpl in *;
    try discriminate.
  - inversion Hn; subst. now constructor.
  - constructor; auto.
Qed.

Lemma zrange_nil lo hi : (hi <= lo)%Z -> zrange lo hi = [].
Proof.
  intros H. unfold zrange. replace (Z.to_nat (hi - lo)) with O by lia.
  reflexivity.
Qed.

Lemma zrange_cons lo hi :
  (lo < hi)%Z -> zrange lo hi = lo :: zrange (lo + 1) hi.
Proof.
  intros H. unfold zrange.
  replace (Z.to_nat (hi - lo)) with (S (Z.to_nat (hi - (lo + 1)))) by lia.
  rewrite <- cons_seq, <- seq_shift, map_cons, map_map. f_equal.
  - lia.
  - apply map_ext. intros k. lia.
Qed.

Lemma in_zrange lo hi k : In k (zrange lo hi) <-> (lo <= k < hi)%Z.
Proof.
  unfold zrange. rewrite in_map_iff. split.
  - intros (n & <- & Hn%in_seq). lia.
  - intros H. exists (Z.to_nat (k - lo)). split; [lia|]. apply in_seq. lia.
Qed.

Lemma zrange_length lo hi : length (zrange lo hi) = Z.to_nat (hi - lo).
Proof. unfold zrange. now rewrite length_map, length_seq. Qed.

Lemma zrange_NoDup lo hi : NoDup (zrange lo hi).
Proof.
  unfold zrange. apply NoDup_map_NoDup_ForallPairs; [|apply seq_NoDup].
  intros n m _ _ H. lia.
Qed.

Lemma zrange_app lo mid hi :
  (lo <= mid <= hi)%Z -> zrange lo hi = zrange lo mid ++ zrange mid hi.
Proof.
  intros H. remember (Z.to_nat (mid - lo)) as n eqn:En.
  revert lo H En. induction n as [|n IH]; intros lo H En.
  - replace mid with lo by lia. now rewrite (zrange_nil lo lo) by lia.
  - rewrite (zrange_cons lo hi) by lia.
    rewrite (zrange_cons lo mid) by lia.
    simpl. f_equal. apply IH; lia.
Qed.

Lemma foldM_app {S I : Type} (body : I -> S -> option S) l1 l2 s :
  foldM body (l1 ++ l2) s = s' <- foldM body l1 s ;; foldM body l2 s'.
Proof.
  revert s. induction l1 as [|i l1 IH]; intros s; simpl; [reflexivity|].
  destruct (body i s); simpl; auto.
Qed.

Lemma foldM_ext {S I : Type} (f g : I -> S -> option S) l s :
  (forall i s, In i l -> f i s = g i s) -> foldM f l s = foldM g l s.
Proof.
  revert s. induction l as [|i l IH]; intros s H; simpl; [reflexivity|].
  rewrite H by now left. destruct (g i s); simpl; [|reflexivity].
  apply IH. intros. apply H. now right.
Qed.

(** A loop that rewrites the element [i] of an array in round [i]. *)
Section PointwiseLoop.

Context {A : Type} (f : A -> A).

Lemma pointwise_loop_from (todo done : list A) (N : Z) :
  (N <= Z.of_nat (length done + length todo))%Z ->
  for_range (Z.of_nat (length done)) N (rewrite_at f) (done ++ todo) =
  Some (done ++ map f (firstn (Z.to_nat N - length done) todo)
             ++ skipn (Z.to_nat N - length done) todo).
Proof.
  revert done. induction todo as [|e todo IH]; intros done HN.
  - unfold for_range. rewrite zrange_nil by (simpl in HN; lia).
    simpl. now rewrite firstn_nil, skipn_nil.
  - destruct (Z.le_gt_cases N (Z.of_nat (length done))) as [Hle|Hgt].
    + unfold for_range. rewrite zrange_nil by lia.
      replace (Z.to_nat N - length done)%nat with O by lia. reflexivity.
    + unfold for_range. rewrite zrange_cons by lia. simpl foldM.
      unfold rewrite_at at 1. rewrite get_app_length. simpl bind.
      rewrite put_app_length. simpl bind.
      replace (done ++ f e :: todo) with ((done ++ [f e]) ++ todo)
        by now rewrite <- app_assoc.
      replace (Z.of_nat (length done) + 1)%Z
        with (Z.of_nat (length (done ++ [f e])))
        by (rewrite length_app; simpl; lia).
      fold (for_range (Z.of_nat (length (done ++ [f e]))) N (rewrite_at f)).
      rewrite IH by (rewrite length_app; simpl in *; lia).
      rewrite length_app. simpl length.
      replace (Z.to_nat N - length done)%nat
        with (S (Z.to_nat N - (length done + 1))) by lia.
      simpl. now rewrite <- app_assoc.
Qed.

Lemma pointwise_loop (l : list A) (N : Z) :
  (N <= Z.of_nat (length l))%Z ->
  for_range 0 N (rewrite_at f) l =
  Some (map f (firstn (Z.to_nat N) l) ++ skipn (Z.to_nat N) l).
Proof.
  intros H. generalize (pointwise_loop_from l [] N). simpl.
  rewrite Nat.sub_0_r. auto.
Qed.

Lemma get_pointwise (l : list A) (n : nat) (i : Z) :
  get (map f (firstn n l) ++ skipn n l) i =
  if (i <? Z.of_nat n)%Z then option_map f (get l i) else get l i.
Proof.
  unfold get. destruct (Z.ltb_spec i 0) as [Hneg|Hpos].
  - destruct (i <? Z.of_nat n)%Z; reflexivity.
  - rewrite nth_error_app, length_map, length_firstn.
    destruct (Z.ltb_spec i (Z.of_nat n)) as [Hlt|Hge].
    + destruct (Nat.ltb_spec (Z.to_nat i) (Nat.min n (length l))) as [H1|H1].
      * rewrite nth_error_map, nth_error_firstn.
        destruct (Nat.ltb_spec (Z.to_nat i) n); [reflexivity|lia].
      * assert (Hout : nth_error l (Z.to_nat i) = None)
          by (apply nth_error_None; lia).
        rewrite Hout. simpl. rewrite nth_error_skipn.
        apply nth_error_None. lia.
    + destruct (Nat.ltb_spec (Z.to_nat i) (Nat.min n (length l))) as [H1|H1];
        [lia|].
      rewrite nth_error_skipn.
      destruct (Nat.le_gt_cases n (length l)).
      * f_equal. lia.
      * transitivity (@None A); [|symmetry]; apply nth_error_None; lia.
Qed.

Lemma Forall_pointwise (P : A -> Prop) (l : list A) (n : nat) :
  Forall P l -> (forall e, P e -> P (f e)) ->
  Forall P (map f (firstn n l) ++ skipn n l).
Proof.
  intros Hl Hf. rewrite <- (firstn_skipn n l) in Hl.
  apply Forall_app in Hl as [H1 H2]. apply Forall_app. split; [|exact H2].
  apply Forall_map. revert H1. apply Forall_impl. exact Hf.
Qed.

End PointwiseLoop.

(** ** The integrator in exact arithmetic *)

Section RealIntegrator.

Local Open Scope R_scope.
Implicit Types (p : Particle R) (u w : vec R).

Lemma vec_magnitude2_nonneg u : 0 <= vec_magnitude2 u.
Proof.
  destruct u as [ux uy uz]. unfold vec_magnitude2, vec_dot. simpl. nra.
Qed.

Lemma vec_norm_one u : vec_norm u = 1 <-> vec_magnitude2 u = 1.
Proof.
  unfold vec_norm. split; intros H.
  - rewrite <- (sqrt_sqrt (vec_magnitude2 u)) by apply vec_magnitude2_nonneg.
    rewrite H. ring.
  - rewrite H. apply sqrt_1.
Qed.

Lemma vec_dot_add_sclr u w (s : R) :
  vec_dot (vec_add u (vec_sclr s w)) (vec_add u (vec_sclr s w)) =
  vec_dot u u + 2 * s * vec_dot w u + s * s * vec_dot w w.
Proof.
  destruct u, w. unfold vec_dot, vec_add, vec_sclr. simpl. ring.
Qed.

(** The position-level projection of RATTLE: [r1 + lambda * old_r] is on the
    sphere when [old_r] is and the discriminant is not negative. *)
Lemma rattle_r_on_sphere (old_r r1 : vec R) :
  vec_magnitude2 old_r = 1 ->
  0 <= rattle_discriminant old_r r1 ->
  vec_magnitude2 (vec_inc r1 (vec_sclr (rattle_lambda old_r r1) old_r)) = 1.
Proof.
  intros Hold Hd. unfold vec_magnitude2, vec_inc in *.
  rewrite vec_dot_add_sclr, Hold. unfold rattle_lambda.
  pose proof (sqrt_sqrt _ Hd) as Hs.
  remember (rattle_discriminant old_r r1) as D eqn:ED.
  cbn [ssqrt sneg sadd real_scalar].
  set (b := vec_dot old_r r1) in *. set (n := vec_dot r1 r1) in *.
  replace (n + 2 * (- b + sqrt D) * b + (- b + sqrt D) * (- b + sqrt D) * 1)
    with (n - b * b + sqrt D * sqrt D) by ring.
  rewrite Hs, ED. unfold rattle_discriminant. fold b n.
  cbn [ssub sadd smul real_scalar lit_one of_long]. ring.
Qed.

Lemma advance_particle_position (dt : R) p :
  r (advance_particle dt p) =
  vec_add (predicted_r dt p)
    (vec_sclr (rattle_lambda (r p) (predicted_r dt p)) (r p)).
Proof. reflexivity. Qed.

(** The velocity-level projection of RATTLE. *)
Lemma rattle_v_tangent (pos vel : vec R) :
  vec_magnitude2 pos = 1 ->
  vec_dot pos (vec_inc vel (vec_sclr (- vec_dot vel pos) pos)) = 0.
Proof.
  intros H. destruct pos as [px py pz], vel as [wx wy wz].
  unfold vec_magnitude2, vec_dot, vec_inc, vec_add, vec_sclr in *.
  simpl in *.
  replace (px * (wx + - (wx * px + wy * py + wz * pz) * px) +
           py * (wy + - (wx * px + wy * py + wz * pz) * py) +
           pz * (wz + - (wx * px + wy * py + wz * pz) * pz))
    with ((wx * px + wy * py + wz * pz) * (1 - (px * px + py * py + pz * pz)))
    by ring.
  rewrite H. ring.
Qed.

End RealIntegrator.

(** ** C1 and C2: the two projections of RATTLE *)

Section RattleClaims.

Local Open Scope R_scope.

(** C1. In exact arithmetic: when every particle of the array is on the unit
    sphere and, for each of them, the discriminant
    [1 - |r1|^2 + (r_old . r1)^2] of its predicted position [r1] is not
    negative, [dvs_advance] returns, every particle of the result is on the
    unit sphere, and the position of each advanced particle is
    [r1 + lambda * r_old] with
    [lambda = - (r_old . r1) + sqrt (1 - |r1|^2 + (r_old . r1)^2)]. *)
Theorem advance_keeps_sphere (N : Z) (ps : list (Particle R)) (dt : R) :
  (N <= Z.of_nat (length ps))%Z ->
  Forall (fun p => vec_norm (r p) = 1) ps ->
  Forall (fun p =>
            0 <= 1 - vec_magnitude2 (predicted_r dt p)
                 + vec_dot (r p) (predicted_r dt p)
                   * vec_dot (r p) (predicted_r dt p)) ps ->
  exists ps',
    dvs_advance N ps dt = Some ps' /\
    Forall (fun p' => vec_norm (r p') = 1) ps' /\
    forall i p, (0 <= i < N)%Z -> get ps i = Some p ->
      exists p',
        get ps' i = Some p' /\
        let r1 := predicted_r dt p in
        let lambda :=
          - vec_dot (r p) r1
          + sqrt (1 - vec_magnitude2 r1 + vec_dot (r p) r1 * vec_dot (r p) r1)
        in r p' = vec_add r1 (vec_sclr lambda (r p)).
Proof.
  intros HN Hsphere Hdisc.
  exists (map (advance_particle dt) (firstn (Z.to_nat N) ps)
          ++ skipn (Z.to_nat N) ps).
  split; [|split].
  - unfold dvs_advance. now apply pointwise_loop.
  - assert (Hboth : Forall (fun p =>
               vec_norm (r p) = 1 /\
               vec_norm (r (advance_particle dt p)) = 1) ps).
    { rewrite Forall_forall in *. intros p Hp. split; [now apply Hsphere|].
      apply vec_norm_one. rewrite advance_particle_position.
      apply rattle_r_on_sphere.
      - apply vec_norm_one. now apply Hsphere.
      - apply (Hdisc p Hp). }
    rewrite <- (firstn_skipn (Z.to_nat N) ps) in Hboth.
    apply Forall_app in Hboth as [H1 H2]. apply Forall_app. split.
    + apply Forall_map. revert H1. apply Forall_impl. now intros p [_ H].
    + revert H2. apply Forall_impl. now intros p [H _].
  - intros i p Hi Hget. exists (advance_particle dt p). split.
    + rewrite get_pointwise.
      destruct (Z.ltb_spec i (Z.of_nat (Z.to_nat N))); [|lia].
      now rewrite Hget.
    + apply advance_particle_position.
Qed.

Lemma advance_keeps_sphere_witness :
  exists ps',
    dvs_advance 1 [mkParticle (mkvec 1 0 0) (mkvec 0 1 0) (mkvec 0 0 0) 0] 1
    = Some ps' /\
    Forall (fun p' => vec_norm (r p') = 1) ps'.
Proof.
  destruct (advance_keeps_sphere 1
              [mkParticle (mkvec 1 0 0) (mkvec 0 1 0) (mkvec 0 0 0) 0] 1)
    as (ps' & H1 & H2 & _).
  - simpl. lia.
  - constructor; [|constructor]. apply vec_norm_one.
    unfold vec_magnitude2, vec_dot. simpl. ring.
  - constructor; [|constructor].
    unfold vec_magnitude2, vec_dot, predicted_r, kicked_v, vec_inc, vec_add,
      vec_sclr. simpl. lra.
  - exists ps'. split; assumption.
Defined.

(** C2. In exact arithmetic: when every particle of the array is on the unit
    sphere, [dvs_correct] returns and every velocity of the result is tangent
    to the sphere, [r . v = 0]; the velocity of each corrected particle is
    [v1 + lambda * r] with [v1 = v + (dt/2) * a] and [lambda = - (v1 . r)],
    and its position is unchanged. *)
Theorem correct_makes_tangent (N : Z) (ps : list (Particle R)) (dt : R) :
  N = Z.of_nat (length ps) ->
  Forall (fun p => vec_norm (r p) = 1) ps ->
  exists ps',
    dvs_correct N ps dt = Some ps' /\
    Forall (fun p' => vec_norm (r p') = 1 /\ vec_dot (r p') (v p') = 0) ps' /\
    forall i p, get ps i = Some p ->
      exists p',
        get ps' i = Some p' /\
        r p' = r p /\
        let v1 := vec_add (v p) (vec_sclr (/ 2 * dt) (a p)) in
        let lambda := - vec_dot v1 (r p) in
        v p' = vec_add v1 (vec_sclr lambda (r p)).
Proof.
  intros HN Hsphere.
  exists (map (correct_particle dt) ps). split; [|split].
  - unfold dvs_correct.
    rewrite pointwise_loop by lia.
    rewrite HN, Nat2Z.id, firstn_all, skipn_all. now rewrite app_nil_r.
  - apply Forall_map. revert Hsphere. apply Forall_impl. intros p Hp.
    split; [exact Hp|]. apply vec_norm_one in Hp.
    now apply rattle_v_tangent.
  - intros i p Hget. exists (correct_particle dt p). split; [|split].
    + unfold get in *. destruct (i <? 0)%Z; [discriminate|].
      now rewrite nth_error_map, Hget.
    + reflexivity.
    + reflexivity.
Qed.

Lemma correct_makes_tangent_witness :
  exists ps',
    dvs_correct 1 [mkParticle (mkvec 1 0 0) (mkvec 1 1 0) (mkvec 2 0 1) 0] 1
    = Some ps' /\
    Forall (fun p' => vec_norm (r p') = 1 /\ vec_dot (r p') (v p') = 0) ps'.
Proof.
  destruct (correct_makes_tangent 1
              [mkParticle (mkvec 1 0 0) (mkvec 1 1 0) (mkvec 2 0 1) 0] 1)
    as (ps' & H1 & H2 & _).
  - reflexivity.
  - constructor; [|constructor]. apply vec_norm_one.
    unfold vec_magnitude2, vec_dot. simpl. ring.
  - exists ps'. split; assumption.
Defined.

End RattleClaims.

(** ** A large step in binary64 *)

Section LargeStep.

Local Open Scope float_scope.

(** C1 does not hold in binary64 for every step whose discriminant is not
    negative.  For [outward_particle] and [dt = 1] the predicted position is
    [(1 + 2^27, 0, 0)], exactly, and the discriminant is 1 in exact
    arithmetic; in binary64 [(1 + 2^27)^2] is rounded to [2^54 + 2^28],
    [1 - (2^54 + 2^28)] to [- (2^54 + 2^28)], the discriminant is 0,
    [lambda = - (1 + 2^27)], and [dvs_advance] leaves the particle at the
    origin. *)
Lemma advance_large_step_leaves_sphere :
  let p := outward_particle (T := float) in
  let q := outward_particle (T := R) in
  (vec_magnitude2 (r q) = 1 /\
   rattle_discriminant (r q) (predicted_r 1 q) = 1)%R /\
  vec_magnitude2 (r p) = 1 /\
  predicted_r 1 p = mkvec 134217729 0 0 /\
  rattle_discriminant (r p) (predicted_r 1 p) = 0 /\
  dvs_advance 1 [p] 1 =
  Some [mkParticle (mkvec 0 0 0) (mkvec (-1) 0 0) (mkvec 0 0 0) 0].
Proof.
  split.
  - split; cbv [outward_particle rattle_discriminant predicted_r kicked_v
                vec_magnitude2 vec_dot vec_inc vec_add vec_sclr VEC_ZERO
                lit_one lit_zero lit_half of_long sadd ssub smul real_scalar
                r v a x y z]; field.
  - repeat split; vm_compute; reflexivity.
Qed.

End LargeStep.

(** ** The projection of the velocity in binary64 *)

Section RoundedProjection.

Local Open Scope float_scope.

(** C2 does not hold in binary64 with the bound [|r . v| <= 1e-12 |v|].
    For [pushed_outward], whose [r . r] evaluates to 1, and [dt = 0.1] the
    kicked velocity is along [r], [lambda] is rounded, and [dvs_correct]
    leaves the velocity [(0, - 2^-54, 0)]: [r . v] is [- 0.8 * 2^-54], of
    the size of [|v|], against a bound of [1e-12 * 2^-54].  For
    [pushed_on_axis], at (1, 0, 0), and [dt = 2^1023] the kick overflows,
    [lambda] is minus infinity, and the three components of the velocity
    are NaN, for which the comparison of the bound is false. *)
Lemma correct_rounding_not_tangent :
  (vec_magnitude2 (r pushed_outward) = 1 /\
   dvs_correct 1 [pushed_outward] one_tenth =
   Some [set_v pushed_outward (mkvec 0 (-0x1.0p-54) 0)] /\
   vec_dot (r pushed_outward) (mkvec 0 (-0x1.0p-54) 0)
   = -0x1.999999999999ap-55 /\
   tolerance * PrimFloat.sqrt (vec_dot (mkvec 0 (-0x1.0p-54) 0)
                                 (mkvec 0 (-0x1.0p-54) 0))
   = 0x1.19799812dea11p-94 /\
   off_tangent tolerance (set_v pushed_outward (mkvec 0 (-0x1.0p-54) 0))
   = true) /\
  (vec_magnitude2 (r pushed_on_axis) = 1 /\
   dvs_correct 1 [pushed_on_axis] 0x1.0p+1023 =
   Some [set_v pushed_on_axis (mkvec nan nan nan)] /\
   off_tangent tolerance (set_v pushed_on_axis (mkvec nan nan nan)) = true).
Proof. repeat split; vm_compute; reflexivity. Qed.

End RoundedProjection.

(** ** The kernel, for any arithmetic *)

Section KernelFacts.

Context {T : Type} {Sc : Scalar T}.
Implicit Types (p q : Particle T) (ps : list (Particle T)) (m : Mem T).

Lemma same_frame_refl p : same_frame p p.
Proof. repeat split. Qed.

Lemma same_frame_trans p p' p'' :
  same_frame p p' -> same_frame p' p'' -> same_frame p p''.
Proof. unfold same_frame. intuition congruence. Qed.

Lemma same_frame_set_a p p' (u : vec T) :
  same_frame p p' -> same_frame p (set_a p' u).
Proof. unfold same_frame. simpl. tauto. Qed.

Lemma frame_refl ps : Forall2 same_frame ps ps.
Proof. induction ps; constructor; auto using same_frame_refl. Qed.

Lemma frame_trans ps ps' ps'' :
  Forall2 same_frame ps ps' -> Forall2 same_frame ps' ps'' ->
  Forall2 same_frame ps ps''.
Proof.
  intros H. revert ps''. induction H; intros ps'' H'; inversion H'; subst;
    constructor; eauto using same_frame_trans.
Qed.

Lemma frame_get ps ps' (k : Z) p :
  Forall2 same_frame ps ps' -> get ps k = Some p ->
  exists p', get ps' k = Some p' /\ same_frame p p'.
Proof.
  unfold get. destruct (k <? 0)%Z; [discriminate|].
  generalize (Z.to_nat k). intros n H. revert n.
  induction H as [|e e' l l' He Hl IH]; intros [|n] Hn; simpl in *;
    try discriminate.
  - inversion Hn; subst. eauto.
  - auto.
Qed.

Lemma frame_get_None ps ps' (k : Z) :
  Forall2 same_frame ps ps' -> get ps k = None -> get ps' k = None.
Proof.
  unfold get. destruct (k <? 0)%Z; [reflexivity|].
  intros H Hn. apply nth_error_None. apply nth_error_None in Hn.
  now rewrite <- (Forall2_length H).
Qed.

Lemma frame_put ps ps' (k : Z) p (u : vec T) :
  get ps k = Some p -> put ps k (set_a p u) = Some ps' ->
  Forall2 same_frame ps ps'.
Proof.
  intros Hget Hput. apply put_inv in Hput as [Hk ->].
  unfold get in Hget. destruct (k <? 0)%Z; [discriminate|].
  revert Hget. generalize (Z.to_nat k). clear Hk. intros n. revert n.
  induction ps as [|e l IH]; intros [|n] Hn; simpl in *; try discriminate.
  - inversion Hn; subst. constructor; [|apply frame_refl].
    apply same_frame_set_a, same_frame_refl.
  - constructor; [apply same_frame_refl|auto].
Qed.

(** The kernel runs whenever its two particles are in the array, and then it
    logs the call, counts it, and leaves the frame of every particle. *)
Lemma dvs_calc_force_runs (i j : Z) (cutoff gamma : T) m p q :
  get (particles m) i = Some p -> get (particles m) j = Some q ->
  exists m',
    dvs_calc_force i j cutoff gamma m = Some m' /\
    Forall2 same_frame (particles m) (particles m') /\
    calls m' = calls m ++ [(i, j)] /\
    ww_counter (stats m') = (ww_counter (stats m) + 1)%Z.
Proof.
  intros Hp Hq. unfold dvs_calc_force. rewrite Hp, Hq. simpl bind.
  destruct (within_cutoff cutoff p q).
  - pose proof (get_Some_range _ _ _ Hp) as Hi.
    pose proof (get_Some_range _ _ _ Hq) as Hj.
    rewrite put_Some by exact Hi. simpl bind.
    set (ps1 := upd (particles m) (Z.to_nat i) _).
    assert (Hput1 : put (particles m) i
                      (set_a p (vec_inc (a p) (pair_force cutoff gamma p q)))
                    = Some ps1) by now apply put_Some.
    assert (F1 : Forall2 same_frame (particles m) ps1)
      by (eapply frame_put; [exact Hp|exact Hput1]).
    destruct (frame_get _ _ j _ F1 Hq) as (q1 & Hq1 & _).
    rewrite Hq1. simpl bind.
    assert (Hj1 : (0 <= j < Z.of_nat (length ps1))%Z)
      by (unfold ps1; now rewrite upd_length).
    rewrite put_Some by exact Hj1. simpl bind.
    eexists. split; [reflexivity|]. simpl. repeat split.
    eapply frame_trans; [exact F1|].
    eapply frame_put; [exact Hq1|]. now apply put_Some.
  - eexists. split; [reflexivity|]. simpl. repeat split. apply frame_refl.
Qed.

Lemma dvs_calc_force_inv (i j : Z) (cutoff gamma : T) m m' :
  dvs_calc_force i j cutoff gamma m = Some m' ->
  exists p q, get (particles m) i = Some p /\ get (particles m) j = Some q.
Proof.
  unfold dvs_calc_force.
  destruct (get (particles m) i) as [p|]; [|discriminate].
  destruct (get (particles m) j) as [q|]; [|discriminate]. eauto.
Qed.

End KernelFacts.

(** ** Loop invariants and nested loops *)

Lemma for_range_inv {S : Type} (P : Z -> S -> Prop) (lo hi : Z)
  (body : Z -> S -> option S) (s : S) :
  (lo <= hi)%Z -> P lo s ->
  (forall i t, (lo <= i < hi)%Z -> P i t ->
               exists t', body i t = Some t' /\ P (i + 1)%Z t') ->
  exists s', for_range lo hi body s = Some s' /\ P hi s'.
Proof.
  intros Hle. remember (Z.to_nat (hi - lo)) as n eqn:En.
  revert lo s Hle En. induction n as [|n IH]; intros lo s Hle En H0 Hstep.
  - unfold for_range. rewrite zrange_nil by lia. simpl.
    exists s. split; [reflexivity|]. now replace hi with lo by lia.
  - unfold for_range. rewrite zrange_cons by lia. simpl.
    destruct (Hstep lo s) as (t & Ht & HP); [lia|exact H0|].
    rewrite Ht. simpl. apply IH; [lia|lia|exact HP|].
    intros i u Hi. apply Hstep. lia.
Qed.

Lemma foldM_map {S I J : Type} (h : I -> J) (body : J -> S -> option S)
  (l : list I) (s : S) :
  foldM body (map h l) s = foldM (fun i => body (h i)) l s.
Proof.
  revert s. induction l as [|i l IH]; intros s; simpl; [reflexivity|].
  destruct (body (h i) s); simpl; auto.
Qed.

(** Two nested loops run the body over the pairs the loops go through. *)
Lemma foldM_nested {S I J : Type} (inner : I -> list J)
  (body : I -> J -> S -> option S) (l : list I) (s : S) :
  foldM (fun i => foldM (body i) (inner i)) l s =
  foldM (fun ij => body (fst ij) (snd ij))
    (flat_map (fun i => map (pair i) (inner i)) l) s.
Proof.
  revert s. induction l as [|i l IH]; intros s; simpl; [reflexivity|].
  rewrite foldM_app, foldM_map. simpl.
  destruct (foldM (body i) (inner i) s); simpl; auto.
Qed.

Lemma NoDup_flat_map {A B : Type} (f : A -> list B) (l : list A) :
  NoDup l -> (forall e, In e l -> NoDup (f e)) ->
  (forall e e' b, In e l -> In e' l -> In b (f e) -> In b (f e') -> e = e') ->
  NoDup (flat_map f l).
Proof.
  induction 1 as [|e l Hnotin Hl IH]; intros Hf Hsrc; simpl; [constructor|].
  apply NoDup_app.
  - apply Hf. now left.
  - apply IH.
    + intros. apply Hf. now right.
    + intros e1 e2 b H1 H2. apply Hsrc; now right.
  - intros b Hb Hb'. apply in_flat_map in Hb' as (e' & He' & Hb').
    assert (e = e') by (apply (Hsrc e e' b); auto; [now left|now right]).
    subst. contradiction.
Qed.

Lemma NoDup_map_pair {A B : Type} (e : A) (l : list B) :
  NoDup l -> NoDup (map (pair e) l).
Proof.
  intros H. apply NoDup_map_NoDup_ForallPairs; [|exact H].
  intros b b' _ _ E. now inversion E.
Qed.

(** ** Runs of the kernel over a list of pairs *)

Section Runs.

Context {T : Type} {Sc : Scalar T}.
Implicit Types (m : Mem T).

Lemma run_pairs_runs (cutoff gamma : T) (l : list (Z * Z)) m :
  (forall i j, In (i, j) l -> in_array m i /\ in_array m j) ->
  exists m',
    run_pairs cutoff gamma l m = Some m' /\
    Forall2 same_frame (particles m) (particles m') /\
    calls m' = calls m ++ l /\
    ww_counter (stats m') = (ww_counter (stats m) + Z.of_nat (length l))%Z.
Proof.
  revert m. induction l as [|[i j] l IH]; intros m Hin.
  - exists m. simpl. rewrite app_nil_r, Z.add_0_r.
    repeat split. apply frame_refl.
  - destruct (Hin i j) as [Hi Hj]; [now left|].
    destruct (get_in_range _ _ Hi) as (p & Hp).
    destruct (get_in_range _ _ Hj) as (q & Hq).
    destruct (dvs_calc_force_runs i j cutoff gamma m p q Hp Hq)
      as (m1 & Hrun & Hframe & Hcalls & Hww).
    destruct (IH m1) as (m' & Hrun' & Hframe' & Hcalls' & Hww').
    { intros i' j' H'. unfold in_array.
      rewrite <- (Forall2_length Hframe). apply Hin. now right. }
    exists m'. unfold run_pairs in *. simpl. rewrite Hrun. simpl.
    split; [exact Hrun'|]. split; [eapply frame_trans; eauto|].
    split.
    + rewrite Hcalls', Hcalls, <- app_assoc. reflexivity.
    + rewrite Hww', Hww. simpl length. lia.
Qed.

Lemma dvs_calc_brute_forces_pairs (N first last : Z) (cutoff gamma : T) m :
  dvs_calc_brute_forces N first last cutoff gamma m =
  run_pairs cutoff gamma (brute_pairs N first last) m.
Proof.
  unfold dvs_calc_brute_forces, run_pairs, brute_pairs, for_range.
  exact (foldM_nested (fun i => zrange (i + 1) N)
           (fun i j => dvs_calc_force i j cutoff gamma) _ m).
Qed.

Lemma in_brute_pairs (N first last i j : Z) :
  In (i, j) (brute_pairs N first last) <->
  (first <= i < last)%Z /\ (i < j < N)%Z.
Proof.
  unfold brute_pairs. rewrite in_flat_map. split.
  - intros (k & Hk & Hij). apply in_map_iff in Hij as (j' & E & Hj').
    inversion E; subst. apply in_zrange in Hk, Hj'. lia.
  - intros [Hi Hj]. exists i. split; [now apply in_zrange|].
    apply in_map. apply in_zrange. lia.
Qed.

Lemma brute_pairs_NoDup (N first last : Z) :
  NoDup (brute_pairs N first last).
Proof.
  unfold brute_pairs. apply NoDup_flat_map.
  - apply zrange_NoDup.
  - intros. apply NoDup_map_pair, zrange_NoDup.
  - intros e e' [i j] _ _ H H'.
    apply in_map_iff in H as (? & E & _), H' as (? & E' & _). congruence.
Qed.

End Runs.

(** ** C8 and C9: the brute sweep and the accumulation of forces *)

Section SweepClaims.

Context {T : Type} {Sc : Scalar T}.

(** C8. For a range [first, last) of particles of the array,
    [dvs_calc_brute_forces] returns, and the calls of the kernel it adds to
    the log are, each exactly once, the pairs [(i, j)] with
    [first <= i < last] and [i < j < N], and no other; [ww_counter] grows by
    the number of these pairs. *)
Theorem brute_forces_calls (N first last : Z) (cutoff gamma : T) (m : Mem T) :
  (0 <= first)%Z -> (N <= Z.of_nat (length (particles m)))%Z ->
  exists m' l,
    dvs_calc_brute_forces N first last cutoff gamma m = Some m' /\
    calls m' = calls m ++ l /\
    NoDup l /\
    (forall i j, In (i, j) l <-> (first <= i < last)%Z /\ (i < j < N)%Z) /\
    ww_counter (stats m') = (ww_counter (stats m) + Z.of_nat (length l))%Z.
Proof.
  intros Hfirst HN.
  destruct (run_pairs_runs cutoff gamma (brute_pairs N first last) m)
    as (m' & Hrun & _ & Hcalls & Hww).
  { intros i j Hij. apply in_brute_pairs in Hij. unfold in_array. lia. }
  exists m', (brute_pairs N first last).
  rewrite dvs_calc_brute_forces_pairs.
  split; [exact Hrun|]. split; [exact Hcalls|].
  split; [apply brute_pairs_NoDup|]. split; [|exact Hww].
  intros i j. apply in_brute_pairs.
Qed.

End SweepClaims.

Section CollectClaim.

Context {T : Type} {Sc : Scalar T}.
Implicit Types (accu part : list (Particle T)).

Lemma collect_forces_loop (N : Z) accu part :
  (N <= Z.of_nat (length accu))%Z -> (N <= Z.of_nat (length part))%Z ->
  exists accu',
    dvs_collect_forces N (accu, part) = Some (accu', part) /\
    length accu' = length accu /\
    forall k pa, get accu k = Some pa ->
                 get accu' k = Some (collected part N k pa).
Proof.
  intros Ha Hp. destruct (Z.le_gt_cases N 0) as [Hneg|Hpos].
  { exists accu. unfold dvs_collect_forces, for_range.
    rewrite zrange_nil by lia. simpl. repeat split.
    intros k pa Hk. unfold collected.
    destruct (Z.leb_spec 0 k), (Z.ltb_spec k N); simpl; auto; lia. }
  destruct (for_range_inv
    (fun i (s : list (Particle T) * list (Particle T)) =>
       snd s = part /\ length (fst s) = length accu /\
       forall k pa, get accu k = Some pa ->
                    get (fst s) k = Some (collected part i k pa))
    0 N
    (fun i '(accu, part) =>
       pa <- get accu i ;;
       pp <- get part i ;;
       accu' <- put accu i (set_a pa (vec_inc (a pa) (a pp))) ;;
       Some (accu', part))
    (accu, part)) as ([accu' part'] & Hrun & Hpart & Hlen & Hget).
  - lia.
  - simpl. repeat split. intros k pa Hk. unfold collected.
    destruct (Z.leb_spec 0 k), (Z.ltb_spec k 0); simpl; auto; lia.
  - intros i [acc prt] Hi (Hprt & Hlen & Hget). simpl in Hprt, Hlen, Hget.
    subst prt.
    destruct (get_in_range accu i) as (pa & Hpa); [lia|].
    destruct (get_in_range part i) as (pp & Hpp); [lia|].
    pose proof (Hget i pa Hpa) as Hacc. unfold collected in Hacc.
    destruct (Z.ltb_spec i i); [lia|]. rewrite andb_false_r in Hacc.
    rewrite Hacc, Hpp. simpl bind.
    rewrite put_Some by lia. simpl bind. eexists. split; [reflexivity|].
    simpl. split; [reflexivity|]. split; [now rewrite upd_length|].
    intros k qa Hk.
    assert (Hput : put acc i (set_a pa (vec_inc (a pa) (a pp)))
                   = Some (upd acc (Z.to_nat i)
                             (set_a pa (vec_inc (a pa) (a pp)))))
      by (apply put_Some; lia).
    destruct (Z.eq_dec k i) as [->|Hne].
    + rewrite (get_put_same _ _ _ _ Hput). unfold collected.
      destruct (Z.leb_spec 0 i), (Z.ltb_spec i (i + 1)); try lia. simpl.
      rewrite Hpp. unfold vec_inc. congruence.
    + rewrite (get_put_other _ _ _ _ _ Hput Hne), (Hget k qa Hk).
      unfold collected.
      destruct (Z.ltb_spec k i), (Z.ltb_spec k (i + 1)); try lia; reflexivity.
  - simpl in Hpart, Hlen, Hget. subst part'. exists accu'.
    split; [exact Hrun|]. split; assumption.
Qed.

(** C9. [dvs_collect_forces] returns; it leaves [part] as it was; for every
    [i] in [0, N) it sets [accu[i].a] to [accu[i].a + part[i].a]; and it
    leaves [accu[i].r], [accu[i].v] and [accu[i].next] of every [i], and the
    particles of [accu] from [N] on, as they were. *)
Theorem collect_forces_effect (N : Z) accu part :
  (N <= Z.of_nat (length accu))%Z -> (N <= Z.of_nat (length part))%Z ->
  exists accu',
    dvs_collect_forces N (accu, part) = Some (accu', part) /\
    length accu' = length accu /\
    forall i pa, get accu i = Some pa ->
      exists pa',
        get accu' i = Some pa' /\
        r pa' = r pa /\ v pa' = v pa /\ next pa' = next pa /\
        ((0 <= i < N)%Z ->
           exists pp, get part i = Some pp /\ a pa' = vec_add (a pa) (a pp)) /\
        ((N <= i)%Z -> pa' = pa).
Proof.
  intros Ha Hp.
  destruct (collect_forces_loop N accu part Ha Hp) as (accu' & Hrun & Hlen & H).
  exists accu'. split; [exact Hrun|]. split; [exact Hlen|].
  intros i pa Hpa. exists (collected part N i pa).
  split; [now apply H|]. unfold collected.
  destruct (Z.leb_spec 0 i), (Z.ltb_spec i N); simpl;
    try (repeat split; auto; intros; lia).
  destruct (get_in_range part i) as (pp & Hpp); [lia|]. rewrite Hpp. simpl.
  repeat split; [eauto|intros; lia].
Qed.

End CollectClaim.

(** ** C3 and C7: the kernel in exact arithmetic *)

Section RealKernel.

Local Open Scope R_scope.
Implicit Types (p q : Particle R) (m : Mem R).

Lemma within_cutoff_true (rc : R) p q :
  within_cutoff rc p q = true <->
  vec_magnitude2 (vec_sub (r p) (r q)) < rc * rc.
Proof.
  unfold within_cutoff. cbn [sltb smul real_scalar]. unfold Rltb.
  destruct (Rlt_dec _ _); split; intros; auto; try discriminate;
    try contradiction.
Qed.





(** C7. For [rc > 0] the pair energy [E(d) = 1/d + d/rc^2 - 2/rc] of the
    kernel is zero at [d = rc], and at every [d] in (0, rc] its derivative is
    minus the force magnitude [1/d^2 - 1/rc^2] of the kernel, which is zero
    at [d = rc]. *)
Theorem pair_energy_shifted (rc : R) :
  0 < rc ->
  pair_energy rc rc = 0 /\
  force_magnitude (rc * rc) (rc * rc) = 0 /\
  forall d, 0 < d <= rc ->
    derivable_pt_lim (pair_energy rc) d (- force_magnitude (d * d) (rc * rc)).
Proof.
  intros Hrc. split; [|split].
  - unfold pair_energy. cbn. field. lra.
  - unfold force_magnitude. cbn. field. lra.
  - intros d [Hd _].
    assert (Hlim : derivable_pt_lim
              (fct_cte 1 / id + id * fct_cte (/ (rc * rc)) - fct_cte (2 / rc))%F
              d
              ((0 * id d - 1 * fct_cte 1 d) / Rsqr (id d)
               + (1 * fct_cte (/ (rc * rc)) d + id d * 0) - 0)).
    { apply derivable_pt_lim_minus; [|apply derivable_pt_lim_const].
      apply derivable_pt_lim_plus.
      - apply derivable_pt_lim_div;
          [apply derivable_pt_lim_const|apply derivable_pt_lim_id|].
        unfold id. lra.
      - apply derivable_pt_lim_mult;
          [apply derivable_pt_lim_id|apply derivable_pt_lim_const]. }
    replace (- force_magnitude (d * d) (rc * rc))
      with ((0 * id d - 1 * fct_cte 1 d) / Rsqr (id d)
            + (1 * fct_cte (/ (rc * rc)) d + id d * 0) - 0).
    + exact Hlim.
    + unfold force_magnitude, id, fct_cte, Rsqr. cbn. field. lra.
Qed.

Lemma pair_energy_shifted_witness :
  pair_energy 1 1 = 0 /\
  derivable_pt_lim (pair_energy 1) (/ 2) (- force_magnitude (/ 2 * / 2) (1 * 1)).
Proof.
  destruct (pair_energy_shifted 1) as (H0 & _ & Hd); [lra|].
  split; [exact H0|]. apply Hd. lra.
Defined.

End RealKernel.

(** ** C10: a zero time step in binary64 *)

Section ZeroTimeStep.

Local Open Scope float_scope.
Implicit Types (p : Particle float).

Lemma advance_particle_zero_dt p :
  at_rest_on_axis p ->
  rattle_lambda (r p) (predicted_r 0 p) = 0 /\
  advance_particle 0 p = set_v p (mkvec nan nan nan).
Proof.
  destruct p as [pr pv pa pn]. unfold at_rest_on_axis. simpl.
  intros (Hr & -> & ->).
  repeat (destruct Hr as [<-|Hr]; [split; vm_compute; reflexivity|]).
  contradiction.
Qed.

(** C10. In binary64, for an array of particles at rest on the unit sphere
    (at the points of the axes, where [|r| = 1] holds exactly) and [dt = 0]:
    [dvs_advance] returns; for every particle the computed [lambda] is 0,
    its position is unchanged, and the three components of its velocity,
    which were 0, are NaN, from [lambda / dt = 0 / 0]. *)
Theorem advance_zero_dt_nan (ps : list (Particle float)) :
  Forall at_rest_on_axis ps ->
  0 / 0 = nan /\
  exists ps',
    dvs_advance (Z.of_nat (length ps)) ps 0 = Some ps' /\
    Forall2 (fun p p' =>
               rattle_lambda (r p) (predicted_r 0 p) = 0 /\
               r p' = r p /\ all_nan (v p') = true) ps ps'.
Proof.
  intros Hps. split; [reflexivity|].
  exists (map (advance_particle 0) ps). split.
  - unfold dvs_advance. rewrite pointwise_loop by lia.
    rewrite Nat2Z.id, firstn_all, skipn_all. now rewrite app_nil_r.
  - induction Hps as [|p ps Hp Hps IH]; simpl; constructor; [|exact IH].
    destruct (advance_particle_zero_dt p Hp) as [Hl Hadv].
    rewrite Hadv. split; [exact Hl|]. split; reflexivity.
Qed.

Lemma advance_zero_dt_nan_witness :
  exists ps',
    dvs_advance 2
      [mkParticle (mkvec 1 0 0) (mkvec 0 0 0) (mkvec 0 0 0) 0;
       mkParticle (mkvec 0 0 (-1)) (mkvec 0 0 0) (mkvec 0 0 0) 0] 0
    = Some ps' /\
    Forall (fun p' => all_nan (v p') = true) ps'.
Proof.
  destruct (advance_zero_dt_nan
              [mkParticle (mkvec 1 0 0) (mkvec 0 0 0) (mkvec 0 0 0) 0;
               mkParticle (mkvec 0 0 (-1)) (mkvec 0 0 0) (mkvec 0 0 0) 0])
    as (_ & ps' & Hrun & Hall).
  - constructor; [|constructor; [|constructor]];
      unfold at_rest_on_axis, axis_points; simpl; tauto.
  - exists ps'. split; [exact Hrun|].
    inversion Hall as [|? ? ? ? (_ & _ & H1) Hall']; subst.
    inversion Hall' as [|? ? ? ? (_ & _ & H2) Hall'']; subst.
    inversion Hall''; subst. repeat constructor; assumption.
Defined.

End ZeroTimeStep.

(** ** Linked lists of particles *)

Lemma is_chain_chain nxt h l (fuel : nat) :
  is_chain nxt h l -> (length l <= fuel)%nat -> chain fuel nxt h = Some l.
Proof.
  intros H. revert fuel. induction H as [|i n l Hi Hn Hl IH]; intros fuel Hf.
  - destruct fuel; reflexivity.
  - destruct fuel as [|fuel]; [simpl in Hf; lia|]. simpl.
    destruct (Z.eqb_spec i (-1)); [contradiction|].
    rewrite Hn. simpl. rewrite IH by (simpl in Hf; lia). reflexivity.
Qed.

Lemma is_chain_ext nxt nxt' h l :
  is_chain nxt h l -> (forall k, In k l -> nxt' k = nxt k) ->
  is_chain nxt' h l.
Proof.
  induction 1 as [|i n l Hi Hn Hl IH]; intros Hext; [constructor|].
  apply (is_chain_link nxt' i n l); [exact Hi| |].
  - rewrite Hext; [exact Hn|now left].
  - apply IH. intros k Hk. apply Hext. now right.
Qed.

Lemma is_chain_inj nxt h l l' :
  is_chain nxt h l -> is_chain nxt h l' -> l = l'.
Proof.
  intros H. revert l'. induction H as [|i n l Hi Hn Hl IH]; intros l' H'.
  - inversion H'; subst; [reflexivity|contradiction].
  - inversion H' as [|i' n' l'' Hi' Hn' Hl']; subst; [contradiction|].
    f_equal. apply IH. congruence.
Qed.

Lemma gather_flat_map {I B : Type} (f : I -> option (list B))
  (g : I -> list B) (l : list I) :
  (forall c, In c l -> f c = Some (g c)) -> gather f l = Some (flat_map g l).
Proof.
  induction l as [|c l IH]; intros H; simpl; [reflexivity|].
  rewrite H by now left. simpl. rewrite IH; [reflexivity|].
  intros. apply H. now right.
Qed.

(** ** The cell grid after [dvs_populate_cells] *)

Section Populate.

Context {T : Type} {Sc : Scalar T}.
Implicit Types (ps : list (Particle T)) (self : Cells T).

Lemma MAX_MIN_range (n L : Z) :
  (1 <= L)%Z -> (0 <= MAX 0 (MIN n (L - 1)) <= L - 1)%Z.
Proof.
  intros HL. unfold MAX, MIN.
  destruct (Z.ltb_spec n (L - 1)); destruct (Z.ltb_spec 0 n);
    try destruct (Z.ltb_spec 0 (L - 1)); lia.
Qed.

Lemma cell_of_range self (p : Particle T) :
  grid_ok self -> (0 <= cell_of self p < num_cells self)%Z.
Proof.
  intros (HL & Hnum & _). rewrite Hnum. unfold cell_of, bin_of.
  pose proof (MAX_MIN_range (floor_int ((x (r p) + lit_one) / dr self)%sc)
                (binning self) HL) as Hx.
  pose proof (MAX_MIN_range (floor_int ((y (r p) + lit_one) / dr self)%sc)
                (binning self) HL) as Hy.
  pose proof (MAX_MIN_range (floor_int ((z (r p) + lit_one) / dr self)%sc)
                (binning self) HL) as Hz.
  revert Hx Hy Hz.
  generalize (MAX 0 (MIN (floor_int ((x (r p) + lit_one) / dr self)%sc)
                       (binning self - 1))).
  generalize (MAX 0 (MIN (floor_int ((y (r p) + lit_one) / dr self)%sc)
                       (binning self - 1))).
  generalize (MAX 0 (MIN (floor_int ((z (r p) + lit_one) / dr self)%sc)
                       (binning self - 1))).
  generalize (binning self) HL. clear. intros L HL bz by_ bx Hx Hy Hz. nia.
Qed.

Lemma cell_of_same_grid self self' (p p' : Particle T) :
  same_grid self self' -> r p' = r p -> cell_of self' p' = cell_of self p.
Proof.
  intros (Hdr & HL & _) Hr. unfold cell_of, bin_of. now rewrite Hdr, HL, Hr.
Qed.

Lemma Cells_new_ok (junk : Z -> Z) (L N : Z) :
  (1 <= L)%Z -> grid_ok (Cells_new junk L N).
Proof.
  intros HL. unfold grid_ok, Cells_new. simpl. split; [exact HL|].
  split; [reflexivity|]. rewrite length_map, zrange_length. nia.
Qed.

Lemma Cells_clear_spec self :
  Z.of_nat (length (cells self)) = num_cells self ->
  exists self',
    Cells_clear self = Some self' /\ same_grid self self' /\
    forall c, (0 <= c < num_cells self)%Z -> get (cells self') c = Some (-1)%Z.
Proof.
  intros Hlen.
  destruct (for_range_inv
    (fun i s => same_grid self s /\
                forall c, (0 <= c < i)%Z -> get (cells s) c = Some (-1)%Z)
    0 (num_cells self)
    (fun i s => heads <- put (cells s) i (-1)%Z ;; Some (set_cells s heads))
    self) as (self' & Hrun & Hgrid & Hall).
  - lia.
  - split; [repeat split|]. intros; lia.
  - intros i s Hi ((Hdr & HL & Hnum & Hl) & Hheads).
    destruct (put (cells s) i (-1)%Z) as [heads|] eqn:Hput;
      [|rewrite put_Some in Hput by lia; discriminate].
    simpl. eexists. split; [reflexivity|]. split.
    + unfold same_grid. simpl. rewrite (put_length _ _ _ _ Hput). auto.
    + intros c Hc. simpl. destruct (Z.eq_dec c i) as [->|Hne].
      * apply (get_put_same _ _ _ _ Hput).
      * rewrite (get_put_other _ _ _ _ _ Hput Hne). apply Hheads. lia.
  - exists self'. auto.
Qed.

Lemma zrange_snoc (i : Z) :
  (0 <= i)%Z -> zrange 0 (i + 1) = zrange 0 i ++ [i].
Proof.
  intros Hi. rewrite (zrange_app 0 i (i + 1)) by lia. f_equal.
  rewrite zrange_cons by lia. now rewrite zrange_nil by lia.
Qed.

Lemma bucket_next self ps (i c : Z) :
  (0 <= i)%Z ->
  bucket self ps (i + 1) c =
  if (cell_index self ps i =? c)%Z then i :: bucket self ps i c
  else bucket self ps i c.
Proof.
  intros Hi. unfold bucket. rewrite zrange_snoc by exact Hi.
  rewrite filter_app, rev_app_distr. simpl.
  destruct (cell_index self ps i =? c)%Z; reflexivity.
Qed.

Lemma in_bucket self ps (i c k : Z) :
  In k (bucket self ps i c) <->
  (0 <= k < i)%Z /\ cell_index self ps k = c.
Proof.
  unfold bucket. rewrite <- in_rev, filter_In, in_zrange, Z.eqb_eq.
  reflexivity.
Qed.

Lemma bucket_NoDup self ps (i c : Z) : NoDup (bucket self ps i c).
Proof.
  unfold bucket. apply NoDup_rev, NoDup_filter, zrange_NoDup.
Qed.

Lemma bucket_length self ps (i c : Z) :
  (length (bucket self ps i c) <= Z.to_nat i)%nat.
Proof.
  unfold bucket. rewrite length_rev.
  etransitivity; [apply filter_length_le|]. rewrite zrange_length. lia.
Qed.

Lemma populate_step_populated self ps (i : Z) s :
  grid_ok self -> (0 <= i < Z.of_nat (length ps))%Z ->
  populated self ps i s ->
  exists s', populate_step i s = Some s' /\ populated self ps (i + 1) s'.
Proof.
  intros Hok Hi (Hps & Hgrid & Hcells). destruct s as [ps1 self1].
  simpl in Hps, Hgrid, Hcells. unfold populate_step.
  destruct (get_in_range ps i Hi) as (p & Hp).
  destruct (Forall2_get _ _ _ _ _ Hps Hp) as (p1 & Hp1 & Hplace).
  rewrite Hp1. cbn [bind].
  assert (Hcell : cell_of self1 p1 = cell_index self ps i).
  { unfold cell_index. rewrite Hp. apply cell_of_same_grid; [exact Hgrid|].
    apply Hplace. }
  rewrite Hcell.
  assert (Hc0 : (0 <= cell_index self ps i < num_cells self)%Z).
  { unfold cell_index. rewrite Hp. now apply cell_of_range. }
  destruct (Hcells _ Hc0) as (h & Hh & Hchain). rewrite Hh. cbn [bind].
  pose proof (Forall2_length Hps) as Hlen.
  destruct (put ps1 i (set_next p1 h)) as [ps2|] eqn:Hput1;
    [|rewrite put_Some in Hput1 by lia; discriminate].
  cbn [bind].
  destruct Hok as (HL & Hnum & Hlencells).
  destruct Hgrid as (Hdr & Hbin & Hnum1 & Hlen1).
  destruct (put (cells self1) (cell_index self ps i) i) as [heads|] eqn:Hput2;
    [|rewrite put_Some in Hput2 by lia; discriminate].
  cbn [bind]. eexists. split; [reflexivity|].
  assert (Hnexts : forall k, k <> i -> nexts ps2 k = nexts ps1 k).
  { intros k Hk. unfold nexts.
    now rewrite (get_put_other _ _ _ _ _ Hput1 Hk). }
  unfold populated. cbn [fst snd]. split; [|split].
  - eapply Forall2_put; [exact Hps|exact Hp| |exact Hput1].
    unfold same_place in *. simpl. tauto.
  - unfold same_grid. simpl. rewrite (put_length _ _ _ _ Hput2). auto.
  - intros c Hc. simpl. rewrite bucket_next by lia.
    destruct (Z.eqb_spec (cell_index self ps i) c) as [<-|Hne].
    + exists i. split; [apply (get_put_same _ _ _ _ Hput2)|].
      apply (is_chain_link _ i h); [lia| |].
      * unfold nexts. now rewrite (get_put_same _ _ _ _ Hput1).
      * apply (is_chain_ext _ _ _ _ Hchain). intros k Hk. apply Hnexts.
        apply in_bucket in Hk. lia.
    + destruct (Hcells c Hc) as (h' & Hh' & Hchain').
      exists h'. split.
      * rewrite (get_put_other _ _ _ _ _ Hput2); [exact Hh'|congruence].
      * apply (is_chain_ext _ _ _ _ Hchain'). intros k Hk. apply Hnexts.
        apply in_bucket in Hk. lia.
Qed.

Lemma same_place_refl ps : Forall2 same_place ps ps.
Proof. induction ps; constructor; auto. repeat split. Qed.

(** [dvs_populate_cells] on an array of [N] particles and a grid as
    [Cells_new] makes it: the list of the cell [c] is the particles of the
    cell, the last one first. *)
Lemma dvs_populate_cells_spec (N : Z) ps self :
  grid_ok self -> N = Z.of_nat (length ps) ->
  exists ps' self',
    dvs_populate_cells N ps self = Some (ps', self') /\
    populated self ps N (ps', self').
Proof.
  intros Hok HN. pose proof Hok as (HL & Hnum & Hlen).
  destruct (Cells_clear_spec self Hlen) as (self0 & Hclear & Hgrid0 & Hempty).
  unfold dvs_populate_cells. rewrite Hclear. cbn [bind].
  destruct (for_range_inv (populated self ps) 0 N populate_step (ps, self0))
    as ([ps' self'] & Hrun & Hpop).
  - lia.
  - split; [apply same_place_refl|]. split; [exact Hgrid0|].
    intros c Hc. exists (-1)%Z. split; [now apply Hempty|].
    unfold bucket. rewrite zrange_nil by lia. simpl. constructor.
  - intros i s Hi Hs. apply populate_step_populated; auto. lia.
  - exists ps', self'. split; assumption.
Qed.

End Populate.

(** ** C5: the cell lists are a partition of the particles *)

Section PartitionClaim.

Context {T : Type} {Sc : Scalar T}.
Implicit Types (ps : list (Particle T)) (self : Cells T).

Lemma cell_index_range self ps (k : Z) :
  grid_ok self -> (0 <= k < Z.of_nat (length ps))%Z ->
  (0 <= cell_index self ps k < num_cells self)%Z.
Proof.
  intros Hok Hk. unfold cell_index.
  destruct (get_in_range ps k Hk) as (p & ->). now apply cell_of_range.
Qed.

(** The particles of all the cells, cell after cell, are the particles of
    the array, each once. *)
Lemma buckets_partition self ps :
  grid_ok self ->
  Permutation
    (flat_map (bucket self ps (Z.of_nat (length ps)))
       (zrange 0 (num_cells self)))
    (zrange 0 (Z.of_nat (length ps))).
Proof.
  intros Hok. apply NoDup_Permutation.
  - apply NoDup_flat_map.
    + apply zrange_NoDup.
    + intros. apply bucket_NoDup.
    + intros c c' k _ _ Hk Hk'. apply in_bucket in Hk, Hk'.
      destruct Hk, Hk'. congruence.
  - apply zrange_NoDup.
  - intros k. rewrite in_flat_map, in_zrange. split.
    + intros (c & _ & Hk). apply in_bucket in Hk. tauto.
    + intros Hk. exists (cell_index self ps k). split.
      * apply in_zrange. now apply cell_index_range.
      * apply in_bucket. auto.
Qed.

Lemma walk_cells_populated (N : Z) ps self ps' self' :
  N = Z.of_nat (length ps) -> populated self ps N (ps', self') ->
  walk_cells (Z.to_nat N) ps' self' =
  Some (flat_map (bucket self ps N) (zrange 0 (num_cells self))).
Proof.
  intros HN (_ & Hgrid & Hcells). simpl in Hgrid, Hcells.
  destruct Hgrid as (_ & _ & Hnum & _). unfold walk_cells. rewrite Hnum.
  apply gather_flat_map. intros c Hc. apply in_zrange in Hc.
  destruct (Hcells c Hc) as (h & -> & Hchain). cbn [bind].
  apply is_chain_chain; [exact Hchain|apply bucket_length].
Qed.

(** C5. For an array of [N] particles, wherever they are, and a grid with
    binning [L >= 1] and a head table of [L^3] entries:
    [dvs_populate_cells] returns, and then the walk along the linked lists
    of the [L^3] cells, through [next] until -1, ends and goes through each
    index of [0, N) exactly once. *)
Theorem populate_cells_partition (N : Z) ps self :
  (1 <= binning self)%Z ->
  num_cells self = (binning self * binning self * binning self)%Z ->
  Z.of_nat (length (cells self)) = num_cells self ->
  N = Z.of_nat (length ps) ->
  exists ps' self' l,
    dvs_populate_cells N ps self = Some (ps', self') /\
    walk_cells (Z.to_nat N) ps' self' = Some l /\
    NoDup l /\ (forall k, In k l <-> (0 <= k < N)%Z) /\
    Permutation l (zrange 0 N).
Proof.
  intros HL Hnum Hlen HN.
  assert (Hok : grid_ok self) by (repeat split; assumption).
  destruct (dvs_populate_cells_spec N ps self Hok HN)
    as (ps' & self' & Hrun & Hpop).
  exists ps', self', (flat_map (bucket self ps N) (zrange 0 (num_cells self))).
  split; [exact Hrun|]. split; [now apply (walk_cells_populated N ps self)|].
  pose proof (buckets_partition self ps Hok) as Hperm. rewrite <- HN in Hperm.
  split; [|split; [|exact Hperm]].
  - apply (Permutation_NoDup (Permutation_sym Hperm)), zrange_NoDup.
  - intros k. rewrite <- in_zrange. split; apply Permutation_in; auto.
    now apply Permutation_sym.
Qed.

End PartitionClaim.

(** ** The pairs of the cell-list sweep *)

Lemma flat_map_nil {A B : Type} (f : A -> list B) (l : list A) :
  (forall e, In e l -> f e = []) -> flat_map f l = [].
Proof.
  induction l as [|e l IH]; intros H; simpl; [reflexivity|].
  rewrite H by now left. apply IH. intros. apply H. now right.
Qed.

Lemma neighbour_pairs_empty (B : Z -> list Z) (L this_cell x y z : Z) :
  B this_cell = [] -> neighbour_pairs B L this_cell x y z = [].
Proof.
  intros HB. unfold neighbour_pairs.
  apply flat_map_nil; intros nnz _. apply flat_map_nil; intros nny _.
  apply flat_map_nil; intros nnx _. unfold pair_list. rewrite HB.
  destruct (_ >? _)%Z; [reflexivity|]. destruct (_ =? _)%Z; reflexivity.
Qed.

Section SweepAsRun.

Context {T : Type} {Sc : Scalar T}.
Implicit Types (m : Mem T) (l : list Z).

Lemma framed_nexts m m' (k : Z) : framed m m' -> next_of m' k = next_of m k.
Proof.
  intros H. unfold next_of. destruct (get (particles m) k) as [p|] eqn:Hp.
  - destruct (frame_get _ _ _ _ H Hp) as (p' & -> & _ & _ & Hn). simpl.
    now rewrite Hn.
  - now rewrite (frame_get_None _ _ _ H Hp).
Qed.

Lemma framed_chain m m' h l :
  framed m m' -> is_chain (next_of m) h l -> is_chain (next_of m') h l.
Proof.
  intros H Hc. apply (is_chain_ext _ _ _ _ Hc). intros k _.
  now apply framed_nexts.
Qed.

Lemma dvs_calc_force_keeps_frame (i j : Z) (cutoff gamma : T) :
  keeps_frame (dvs_calc_force i j cutoff gamma).
Proof.
  intros m m' H. destruct (dvs_calc_force_inv _ _ _ _ _ _ H) as (p & q & Hp & Hq).
  destruct (dvs_calc_force_runs i j cutoff gamma m p q Hp Hq)
    as (m1 & H1 & Hf & _). congruence.
Qed.

Lemma foldM_keeps_frame {I : Type} (body : I -> Mem T -> option (Mem T))
  (l : list I) :
  (forall i, keeps_frame (body i)) -> keeps_frame (foldM body l).
Proof.
  intros Hb. induction l as [|i l IH]; intros m m' H; simpl in H.
  - inversion H; subst. apply frame_refl.
  - destruct (body i m) as [m1|] eqn:E; [|discriminate]. simpl in H.
    eapply frame_trans; [apply (Hb i _ _ E)|apply (IH _ _ H)].
Qed.

Lemma run_pairs_keeps_frame (cutoff gamma : T) (l : list (Z * Z)) :
  keeps_frame (run_pairs cutoff gamma l).
Proof.
  apply foldM_keeps_frame. intros. apply dvs_calc_force_keeps_frame.
Qed.

Lemma run_pairs_app (cutoff gamma : T) (l1 l2 : list (Z * Z)) m :
  run_pairs cutoff gamma (l1 ++ l2) m =
  m' <- run_pairs cutoff gamma l1 m ;; run_pairs cutoff gamma l2 m'.
Proof. apply foldM_app. Qed.

(** A walk along a linked list runs the body on the elements of the list,
    when the body leaves the links alone. *)
Lemma for_chain_foldM (fuel : nat) (body : Z -> Mem T -> option (Mem T))
  (h : Z) l m :
  is_chain (next_of m) h l -> (length l <= fuel)%nat ->
  (forall i, keeps_frame (body i)) ->
  for_chain fuel next_of h body m = foldM body l m.
Proof.
  intros Hc. revert h fuel m Hc.
  induction l as [|i l IH]; intros h fuel m Hc Hfuel Hbody;
    inversion Hc as [|i' n l' Hi Hn Hl]; subst.
  - destruct fuel; reflexivity.
  - destruct fuel as [|fuel]; [simpl in Hfuel; lia|]. simpl.
    destruct (Z.eqb_spec i (-1)); [contradiction|].
    destruct (body i m) as [m1|] eqn:E; [|reflexivity]. cbn [bind].
    assert (F : framed m m1) by apply (Hbody i _ _ E).
    rewrite (framed_nexts _ _ i F), Hn. cbn [bind].
    apply IH; [now apply (framed_chain m)|simpl in Hfuel; lia|exact Hbody].
Qed.

Lemma foldM_run_pairs {I : Type} (cutoff gamma : T)
  (g : I -> list (Z * Z)) (body : I -> Mem T -> option (Mem T))
  (l : list I) m :
  (forall e m0, In e l -> framed m m0 ->
                body e m0 = run_pairs cutoff gamma (g e) m0) ->
  forall m0, framed m m0 ->
    foldM body l m0 = run_pairs cutoff gamma (flat_map g l) m0.
Proof.
  induction l as [|e l IH]; intros Hbody m0 F; simpl; [reflexivity|].
  rewrite run_pairs_app. rewrite Hbody by (auto; now left).
  destruct (run_pairs cutoff gamma (g e) m0) as [m1|] eqn:E; [|reflexivity].
  cbn [bind]. apply IH.
  - intros. apply Hbody; auto. now right.
  - eapply frame_trans; [exact F|]. apply (run_pairs_keeps_frame _ _ _ _ _ E).
Qed.

Lemma kernel_row (cutoff gamma : T) (fuel : nat) (i h : Z) l m :
  is_chain (next_of m) h l -> (length l <= fuel)%nat ->
  for_chain fuel next_of h (fun j => dvs_calc_force i j cutoff gamma) m =
  run_pairs cutoff gamma (map (pair i) l) m.
Proof.
  intros Hc Hf. rewrite (for_chain_foldM fuel _ h l m Hc Hf).
  - unfold run_pairs. now rewrite foldM_map.
  - intros j. apply dvs_calc_force_keeps_frame.
Qed.

Lemma for_chain_keeps_frame (fuel : nat)
  (body : Z -> Mem T -> option (Mem T)) (h : Z) :
  (forall i, keeps_frame (body i)) ->
  keeps_frame (for_chain fuel next_of h body).
Proof.
  intros Hb. revert h. induction fuel as [|fuel IH]; intros h m m' H;
    simpl in H; destruct (h =? -1)%Z.
  - inversion H. apply frame_refl.
  - discriminate.
  - inversion H. apply frame_refl.
  - destruct (body h m) as [m1|] eqn:E; [|discriminate]. cbn [bind] in H.
    destruct (next_of m1 h) as [n|]; [|discriminate]. cbn [bind] in H.
    eapply frame_trans; [apply (Hb h _ _ E)|apply (IH _ _ _ H)].
Qed.

(** The two loops over one cell. *)
Lemma same_cell_rows (cutoff gamma : T) (fuel : nat) (h : Z) l m :
  is_chain (next_of m) h l -> (length l <= fuel)%nat ->
  forall m0, framed m m0 ->
    foldM (fun i m =>
             n <- next_of m i ;;
             for_chain fuel next_of n
               (fun j => dvs_calc_force i j cutoff gamma) m) l m0 =
    run_pairs cutoff gamma (tri l) m0.
Proof.
  induction 1 as [|i n l Hi Hn Hl IH]; intros Hf m0 F; [reflexivity|].
  simpl in Hf. simpl foldM. simpl tri. rewrite run_pairs_app.
  rewrite (framed_nexts _ _ i F), Hn. cbn [bind].
  rewrite (kernel_row cutoff gamma fuel i n l m0)
    by (try apply (framed_chain m); auto; lia).
  destruct (run_pairs cutoff gamma (map (pair i) l) m0) as [m1|] eqn:E;
    [|reflexivity].
  cbn [bind]. apply IH; [lia|].
  eapply frame_trans; [exact F|]. apply (run_pairs_keeps_frame _ _ _ _ _ E).
Qed.

Lemma same_cell_loops (cutoff gamma : T) (fuel : nat) (h : Z) l m :
  is_chain (next_of m) h l -> (length l <= fuel)%nat ->
  for_chain fuel next_of h
    (fun i m =>
       n <- next_of m i ;;
       for_chain fuel next_of n
         (fun j => dvs_calc_force i j cutoff gamma) m) m =
  run_pairs cutoff gamma (tri l) m.
Proof.
  intros Hc Hf. rewrite (for_chain_foldM fuel _ h l m Hc Hf).
  - apply (same_cell_rows cutoff gamma fuel h l m Hc Hf). apply frame_refl.
  - intros i m0 m1 H. destruct (next_of m0 i) as [n|]; [|discriminate].
    cbn [bind] in H. revert H. apply for_chain_keeps_frame.
    intros j. apply dvs_calc_force_keeps_frame.
Qed.

(** The two loops over a cell and one of its neighbours. *)
Lemma two_cell_loops (cutoff gamma : T) (fuel : nat) (self : Cells T)
  (other_cell h h' : Z) l l' m :
  is_chain (next_of m) h l -> (length l <= fuel)%nat ->
  get (cells self) other_cell = Some h' ->
  is_chain (next_of m) h' l' -> (length l' <= fuel)%nat ->
  for_chain fuel next_of h
    (fun i m =>
       head' <- get (cells self) other_cell ;;
       for_chain fuel next_of head'
         (fun j => dvs_calc_force i j cutoff gamma) m) m =
  run_pairs cutoff gamma (cross l l') m.
Proof.
  intros Hc Hf Hh' Hc' Hf'. rewrite (for_chain_foldM fuel _ h l m Hc Hf).
  - apply (foldM_run_pairs cutoff gamma (fun i => map (pair i) l') _ l m).
    + intros i m0 _ F. rewrite Hh'. cbn [bind].
      apply kernel_row; [now apply (framed_chain m)|exact Hf'].
    + apply frame_refl.
  - intros i m0 m1 H. rewrite Hh' in H. cbn [bind] in H. revert H.
    apply for_chain_keeps_frame. intros j. apply dvs_calc_force_keeps_frame.
Qed.

Lemma MAX_MIN_neighbour (L x n : Z) :
  In n (zrange (MAX 0 (x - 1)) (MIN L (x + 2))) ->
  (0 <= n < L)%Z /\ (x - 1 <= n <= x + 1)%Z.
Proof.
  rewrite in_zrange. unfold MAX, MIN.
  destruct (Z.ltb_spec 0 (x - 1)), (Z.ltb_spec L (x + 2)); lia.
Qed.

Lemma cell_number_range (L x y z : Z) :
  (0 <= x < L)%Z -> (0 <= y < L)%Z -> (0 <= z < L)%Z ->
  (0 <= x + L * y + L * L * z < L * L * L)%Z.
Proof. intros. nia. Qed.

Lemma sweep_cell_pair_run (cutoff gamma : T) (fuel : nat) (self : Cells T)
  (B : Z -> list Z) m (this_cell nnx nny nnz : Z) m0 :
  lists_cells self m B fuel -> framed m m0 ->
  (0 <= this_cell < binning self * binning self * binning self)%Z ->
  (0 <= nnx < binning self)%Z -> (0 <= nny < binning self)%Z ->
  (0 <= nnz < binning self)%Z ->
  sweep_cell_pair fuel self cutoff gamma this_cell nnx nny nnz m0 =
  run_pairs cutoff gamma
    (pair_list B this_cell
       (nnx + nny * binning self + nnz * (binning self * binning self))) m0.
Proof.
  intros HB F Hthis Hx Hy Hz. unfold sweep_cell_pair, pair_list.
  set (L := binning self) in *.
  set (other_cell := (nnx + nny * L + nnz * (L * L))%Z).
  assert (Hother : (0 <= other_cell < L * L * L)%Z)
    by (unfold other_cell; nia).
  destruct (this_cell >? other_cell)%Z; [reflexivity|].
  destruct (HB this_cell Hthis) as (h & Hh & Hc & Hf).
  destruct (HB other_cell Hother) as (h' & Hh' & Hc' & Hf').
  rewrite Hh. cbn [bind].
  destruct (this_cell =? other_cell)%Z.
  - apply same_cell_loops; [now apply (framed_chain m)|exact Hf].
  - apply (two_cell_loops cutoff gamma fuel self other_cell h h');
      auto; now apply (framed_chain m).
Qed.

Lemma sweep_cell_run (cutoff gamma : T) (fuel : nat) (self : Cells T)
  (B : Z -> list Z) m (cell0 cell1 x y z : Z) m0 :
  lists_cells self m B fuel -> framed m m0 ->
  (0 <= x < binning self)%Z -> (0 <= y < binning self)%Z ->
  (0 <= z < binning self)%Z ->
  sweep_cell fuel self cell0 cell1 cutoff gamma x y z m0 =
  run_pairs cutoff gamma
    (cell_pairs_at B (binning self) cell0 cell1 x y z) m0.
Proof.
  intros HB F Hx Hy Hz. unfold sweep_cell, cell_pairs_at.
  set (L := binning self) in *.
  set (this_cell := (x + L * y + L * L * z)%Z).
  assert (Hthis : (0 <= this_cell < L * L * L)%Z)
    by now apply cell_number_range.
  destruct (HB this_cell Hthis) as (h & Hh & Hc & Hf).
  rewrite Hh. cbn [bind].
  destruct (Z.eqb_spec h (-1)) as [->|Hne].
  - assert (HBnil : B this_cell = [])
      by (apply (is_chain_inj _ _ _ _ Hc); constructor).
    rewrite (neighbour_pairs_empty B L this_cell x y z HBnil).
    now destruct (_ || _).
  - destruct (_ || _); [reflexivity|]. unfold for_range, neighbour_pairs.
    apply (foldM_run_pairs cutoff gamma _ _ _ m); [|exact F].
    intros nnz m1 Hnnz F1. apply MAX_MIN_neighbour in Hnnz as [Hnnz _].
    apply (foldM_run_pairs cutoff gamma _ _ _ m); [|exact F1].
    intros nny m2 Hnny F2. apply MAX_MIN_neighbour in Hnny as [Hnny _].
    apply (foldM_run_pairs cutoff gamma _ _ _ m); [|exact F2].
    intros nnx m3 Hnnx F3. apply MAX_MIN_neighbour in Hnnx as [Hnnx _].
    now apply (sweep_cell_pair_run cutoff gamma fuel self B m).
Qed.

(** [dvs_calc_forces] calls the kernel on the pairs of [cell_pairs]. *)
Lemma dvs_calc_forces_pairs (cutoff gamma : T) (fuel : nat) (self : Cells T)
  (B : Z -> list Z) (cell0 cell1 : Z) m :
  lists_cells self m B fuel ->
  dvs_calc_forces fuel self cell0 cell1 cutoff gamma m =
  run_pairs cutoff gamma (cell_pairs B (binning self) cell0 cell1) m.
Proof.
  intros HB. unfold dvs_calc_forces, cell_pairs, for_range.
  apply (foldM_run_pairs cutoff gamma _ _ _ m); [|apply frame_refl].
  intros z m1 Hz F1. apply in_zrange in Hz.
  apply (foldM_run_pairs cutoff gamma _ _ _ m); [|exact F1].
  intros y m2 Hy F2. apply in_zrange in Hy.
  apply (foldM_run_pairs cutoff gamma _ _ _ m); [|exact F2].
  intros x m3 Hx F3. apply in_zrange in Hx.
  now apply (sweep_cell_run cutoff gamma fuel self B m).
Qed.

End SweepAsRun.

(** ** What one call of the kernel does to each particle *)

Section KernelUpdate.

Context {T : Type} {Sc : Scalar T}.
Implicit Types (p q : Particle T) (m : Mem T).

Lemma dvs_calc_force_result (i j : Z) (cutoff gamma : T) m m' p q :
  dvs_calc_force i j cutoff gamma m = Some m' ->
  get (particles m) i = Some p -> get (particles m) j = Some q ->
  stats m' = kernel_stats cutoff p q (stats m) /\
  forall k pk, get (particles m) k = Some pk ->
    get (particles m') k = Some (kernel_update cutoff gamma p q i j k pk).
Proof.
  intros Hrun Hp Hq. unfold dvs_calc_force in Hrun.
  rewrite Hp, Hq in Hrun. cbn [bind] in Hrun.
  unfold kernel_stats, kernel_update.
  destruct (within_cutoff cutoff p q).
  - set (force := pair_force cutoff gamma p q) in *.
    destruct (put (particles m) i (set_a p (vec_inc (a p) force)))
      as [ps1|] eqn:Hput1; [|discriminate]. cbn [bind] in Hrun.
    destruct (get ps1 j) as [q1|] eqn:Hq1; [|discriminate].
    cbn [bind] in Hrun.
    destruct (put ps1 j (set_a q1 (vec_dec (a q1) force)))
      as [ps2|] eqn:Hput2; [|discriminate]. cbn [bind] in Hrun.
    inversion Hrun; subst m'; clear Hrun. cbn [stats particles].
    split; [reflexivity|]. intros k pk Hk. cbv zeta.
    destruct (Z.eqb_spec k j) as [->|Hkj].
    + rewrite (get_put_same _ _ _ _ Hput2). f_equal.
      destruct (Z.eqb_spec j i) as [->|Hji].
      * rewrite (get_put_same _ _ _ _ Hput1) in Hq1. congruence.
      * rewrite (get_put_other _ _ _ _ _ Hput1 Hji) in Hq1. congruence.
    + rewrite (get_put_other _ _ _ _ _ Hput2 Hkj).
      destruct (Z.eqb_spec k i) as [->|Hki].
      * rewrite (get_put_same _ _ _ _ Hput1). congruence.
      * now rewrite (get_put_other _ _ _ _ _ Hput1 Hki).
  - inversion Hrun; subst m'. cbn [stats particles]. auto.
Qed.

End KernelUpdate.

(** ** Sums over lists of pairs *)

Section Sums.

Variable M : Type.
Variable zero : M.
Variable plus : M -> M -> M.
Hypothesis plus_comm : forall u w, plus u w = plus w u.
Hypothesis plus_assoc : forall u w t, plus u (plus w t) = plus (plus u w) t.
Hypothesis plus_zero : forall u, plus zero u = u.

Lemma msum_app (l1 l2 : list M) :
  msum zero plus (l1 ++ l2) = plus (msum zero plus l1) (msum zero plus l2).
Proof.
  induction l1 as [|u l1 IH]; simpl; [now rewrite plus_zero|].
  now rewrite IH, plus_assoc.
Qed.

Lemma msum_perm (l1 l2 : list M) : Permutation l1 l2 -> msum zero plus l1 = msum zero plus l2.
Proof.
  induction 1 as [|e l l' _ IH|e e' l|l l' l'' _ IH _ IH']; simpl.
  - reflexivity.
  - now rewrite IH.
  - now rewrite !plus_assoc, (plus_comm e' e).
  - now rewrite IH.
Qed.

Lemma msum_filter {A : Type} (f : A -> M) (b : A -> bool) (l : list A) :
  (forall e, In e l -> b e = false -> f e = zero) ->
  msum zero plus (map f l) = msum zero plus (map f (filter b l)).
Proof.
  induction l as [|e l IH]; intros H; simpl; [reflexivity|].
  rewrite IH by (intros; apply H; auto; now right).
  destruct (b e) eqn:E; simpl; [reflexivity|].
  rewrite (H e) by (auto; now left). apply plus_zero.
Qed.

Lemma msum_flat_map {A B : Type} (f : B -> M) (g : A -> list B)
  (l : list A) :
  msum zero plus (map f (flat_map g l)) = msum zero plus (map (fun e => msum zero plus (map f (g e))) l).
Proof.
  induction l as [|e l IH]; simpl; [reflexivity|].
  now rewrite map_app, msum_app, IH.
Qed.

Lemma msum_ext {A : Type} (f g : A -> M) (l : list A) :
  (forall e, In e l -> f e = g e) -> msum zero plus (map f l) = msum zero plus (map g l).
Proof.
  intros H. f_equal. apply map_ext_in. exact H.
Qed.

End Sums.

Arguments msum_app {M} zero plus _ _ l1 l2.
Arguments msum_perm {M} zero plus _ _ l1 l2 _.
Arguments msum_filter {M} zero plus _ {A} f b l _.
Arguments msum_flat_map {M} zero plus _ _ {A B} f g l.
Arguments msum_ext {M} zero plus {A} f g l _.

(** ** Runs of the kernel in exact arithmetic *)

Section RealRuns.

Local Open Scope R_scope.
Implicit Types (p q : Particle R) (ps : list (Particle R)) (m : Mem R)
  (e : Z * Z) (u w : vec R).

Lemma vec_ext u w : x u = x w -> y u = y w -> z u = z w -> u = w.
Proof. destruct u, w. simpl. congruence. Qed.

Ltac vec_ring :=
  apply vec_ext;
  unfold vzero, VEC_ZERO, vec_inc, vec_dec, vec_add, vec_sub, vec_sclr,
    lit_zero;
  cbn [x y z sadd ssub smul sneg real_scalar of_long]; ring.

Lemma vec_add_comm u w : vec_add u w = vec_add w u.
Proof. vec_ring. Qed.

Lemma vec_add_assoc u w t :
  vec_add u (vec_add w t) = vec_add (vec_add u w) t.
Proof. vec_ring. Qed.

Lemma vec_add_zero u : vec_add vzero u = u.
Proof. vec_ring. Qed.

Lemma within_cutoff_frame (rc : R) p q p' q' :
  same_frame p p' -> same_frame q q' ->
  within_cutoff rc p' q' = within_cutoff rc p q.
Proof.
  intros (Hr & _) (Hr' & _). unfold within_cutoff. now rewrite Hr, Hr'.
Qed.

Lemma pair_force_frame (rc gamma : R) p q p' q' :
  same_frame p p' -> same_frame q q' ->
  pair_force rc gamma p' q' = pair_force rc gamma p q.
Proof.
  intros (Hr & Hv & _) (Hr' & Hv' & _). unfold pair_force.
  now rewrite Hr, Hr', Hv, Hv'.
Qed.

Lemma frame_get_rev ps ps' (k : Z) p' :
  Forall2 same_frame ps ps' -> get ps' k = Some p' ->
  exists p, get ps k = Some p /\ same_frame p p'.
Proof.
  intros F Hp'. destruct (get ps k) as [p|] eqn:Hp.
  - destruct (frame_get _ _ _ _ F Hp) as (p1 & Hp1 & Hf).
    exists p. split; congruence.
  - rewrite (frame_get_None _ _ _ F Hp) in Hp'. discriminate.
Qed.

(** After the calls of the kernel on the pairs of [l], the counter of
    interacting pairs, the energy and each acceleration have grown by the
    sums of what the pairs add. *)
Lemma run_pairs_sum (rc gamma : R) (l : list (Z * Z)) m m' :
  run_pairs rc gamma l m = Some m' ->
  real_ww_counter (stats m') =
    (real_ww_counter (stats m)
     + zsum (map (count_term (particles m) rc) l))%Z /\
  E_pot (stats m') =
    E_pot (stats m) + rsum (map (energy_term (particles m) rc) l) /\
  forall k pk, get (particles m) k = Some pk ->
    exists pk',
      get (particles m') k = Some pk' /\ same_frame pk pk' /\
      a pk' = vec_add (a pk)
                (vsum (map (force_term (particles m) rc gamma k) l)).
Proof.
  revert m'. induction l as [|e l IH] using rev_ind; intros m' Hrun.
  - inversion Hrun; subst m'. cbn. split; [lia|]. split; [ring|].
    intros k pk Hk. exists pk. split; [exact Hk|].
    split; [apply same_frame_refl|]. vec_ring.
  - rewrite run_pairs_app in Hrun.
    destruct (run_pairs rc gamma l m) as [m1|] eqn:Hl; [|discriminate].
    cbn [bind] in Hrun. destruct (IH m1 eq_refl) as (Hc & He & Ha).
    pose proof (run_pairs_keeps_frame _ _ _ _ _ Hl) as F.
    unfold run_pairs in Hrun. simpl in Hrun.
    destruct (dvs_calc_force (fst e) (snd e) rc gamma m1) as [m2|] eqn:Hk;
      [|discriminate].
    cbn [bind] in Hrun. inversion Hrun; subst m2; clear Hrun.
    destruct (dvs_calc_force_inv _ _ _ _ _ _ Hk) as (p1 & q1 & Hp1 & Hq1).
    destruct (frame_get_rev _ _ _ _ F Hp1) as (p & Hp & Fp).
    destruct (frame_get_rev _ _ _ _ F Hq1) as (q & Hq & Fq).
    destruct (dvs_calc_force_result _ _ _ _ _ _ _ _ Hk Hp1 Hq1)
      as (Hst & Hps).
    assert (Hpair : pair_at (particles m) e = Some (p, q))
      by (unfold pair_at; now rewrite Hp, Hq).
    pose proof (within_cutoff_frame rc p q p1 q1 Fp Fq) as Hw.
    pose proof (pair_force_frame rc gamma p q p1 q1 Fp Fq) as Hforce.
    rewrite !map_app.
    unfold zsum, rsum, vsum in *.
    rewrite (msum_app 0%Z Z.add Z.add_assoc Z.add_0_l).
    rewrite (msum_app 0 Rplus (fun r1 r2 r3 => eq_sym (Rplus_assoc r1 r2 r3))
               Rplus_0_l).
    cbn [map msum fold_right].
    set (Zl := msum 0%Z Z.add (map (count_term (particles m) rc) l)) in *.
    set (Rl := msum 0 Rplus (map (energy_term (particles m) rc) l)) in *.
    rewrite Hst. unfold kernel_stats. rewrite Hw.
    unfold count_term, interacts, energy_term. rewrite Hpair.
    split; [|split].
    + destruct (within_cutoff rc p q); cbn [real_ww_counter]; lia.
    + destruct Fp as (Hrp & _), Fq as (Hrq & _). rewrite Hrp, Hrq.
      destruct (within_cutoff rc p q); cbn [E_pot]; rewrite He;
        [unfold vec_norm|]; cbn [sadd ssqrt real_scalar]; ring.
    + intros k pk Hpk. destruct (Ha k pk Hpk) as (pk1 & Hpk1 & Fk & Hak).
      exists (kernel_update rc gamma p1 q1 (fst e) (snd e) k pk1).
      split; [now apply Hps|].
      rewrite map_app, (msum_app vzero vec_add vec_add_assoc vec_add_zero).
      cbn [map msum fold_right].
      set (Sl := msum vzero vec_add
                   (map (force_term (particles m) rc gamma k) l)) in *.
      unfold kernel_update, force_term. rewrite Hpair, Hw, Hforce.
      destruct (within_cutoff rc p q).
      * cbv zeta. unfold keep_if.
        destruct (k =? fst e)%Z, (k =? snd e)%Z; cbn [a set_a];
          (split; [repeat apply same_frame_set_a; exact Fk|]);
          rewrite Hak; vec_ring.
      * split; [exact Fk|]. rewrite Hak. vec_ring.
Qed.

End RealRuns.

(** ** Sweeps over a partition of the cells *)

Lemma tiles_le lo hi cuts : tiles lo hi cuts -> (lo <= hi)%Z.
Proof. induction 1; lia. Qed.

Lemma flat_map_perm_app {A B : Type} (f g h : A -> list B) (l : list A) :
  (forall e, In e l -> Permutation (f e) (g e ++ h e)) ->
  Permutation (flat_map f l) (flat_map g l ++ flat_map h l).
Proof.
  induction l as [|e l IH]; intros H; simpl; [constructor|].
  rewrite (H e) by now left. rewrite IH by (intros; apply H; now right).
  rewrite <- !app_assoc. apply Permutation_app_head.
  rewrite !app_assoc. apply Permutation_app_tail. apply Permutation_app_comm.
Qed.

Lemma cell_pairs_split (B : Z -> list Z) (L c0 c1 c2 : Z) :
  (c0 <= c1 <= c2)%Z ->
  Permutation (cell_pairs B L c0 c2)
    (cell_pairs B L c0 c1 ++ cell_pairs B L c1 c2).
Proof.
  intros Hc. unfold cell_pairs.
  apply flat_map_perm_app; intros z _.
  apply flat_map_perm_app; intros y _.
  apply flat_map_perm_app; intros x _.
  unfold cell_pairs_at. cbv zeta.
  set (this_cell := (x + L * y + L * L * z)%Z).
  destruct (Z.ltb_spec this_cell c0), (Z.geb_spec this_cell c1),
    (Z.ltb_spec this_cell c1), (Z.geb_spec this_cell c2);
    cbn [orb]; try lia; rewrite ?app_nil_r; reflexivity.
Qed.

Lemma cell_pairs_none (B : Z -> list Z) (L c : Z) : cell_pairs B L c c = [].
Proof.
  unfold cell_pairs.
  apply flat_map_nil; intros z _. apply flat_map_nil; intros y _.
  apply flat_map_nil; intros x _. unfold cell_pairs_at. cbv zeta.
  destruct (Z.ltb_spec (x + L * y + L * L * z) c),
    (Z.geb_spec (x + L * y + L * L * z) c); cbn [orb]; try reflexivity; lia.
Qed.

Lemma in_tri (l : list Z) (i j : Z) :
  In (i, j) (tri l) -> In i l /\ In j l.
Proof.
  induction l as [|h t IH]; simpl; [tauto|].
  rewrite in_app_iff, in_map_iff. intros [(j' & E & Hj)|H].
  - inversion E; subst. auto.
  - destruct (IH H). auto.
Qed.

Lemma in_cross (l l' : list Z) (i j : Z) :
  In (i, j) (cross l l') <-> In i l /\ In j l'.
Proof.
  unfold cross. rewrite in_flat_map. split.
  - intros (k & Hk & H). apply in_map_iff in H as (j' & E & Hj).
    inversion E; subst. auto.
  - intros [Hi Hj]. exists i. split; [exact Hi|]. now apply in_map.
Qed.

(** Every call of the cell sweep is on two listed particles. *)
Lemma in_cell_pairs_listed (B : Z -> list Z) (L c0 c1 i j : Z) :
  In (i, j) (cell_pairs B L c0 c1) ->
  exists c c', In i (B c) /\ In j (B c').
Proof.
  unfold cell_pairs. intros H.
  apply in_flat_map in H as (z & _ & H).
  apply in_flat_map in H as (y & _ & H).
  apply in_flat_map in H as (x & _ & H).
  unfold cell_pairs_at in H. cbv zeta in H.
  destruct (_ || _); [contradiction|]. unfold neighbour_pairs in H.
  apply in_flat_map in H as (nnz & _ & H).
  apply in_flat_map in H as (nny & _ & H).
  apply in_flat_map in H as (nnx & _ & H).
  unfold pair_list in H. destruct (_ >? _)%Z; [contradiction|].
  destruct (_ =? _)%Z.
  - apply in_tri in H. eauto.
  - apply in_cross in H. eauto.
Qed.

Section PopulatedLists.

Context {T : Type} {Sc : Scalar T}.

Lemma nexts_zero_accelerations (ps : list (Particle T)) (k : Z) :
  nexts (zero_accelerations ps) k = nexts ps k.
Proof.
  unfold nexts, zero_accelerations, get. destruct (k <? 0)%Z; [reflexivity|].
  rewrite nth_error_map. now destruct (nth_error ps (Z.to_nat k)).
Qed.

(** After [dvs_populate_cells], the grid lists the particles of each cell,
    for every memory with the links of the populated array. *)
Lemma populated_lists_cells (N : Z) (ps ps1 : list (Particle T))
  (self self1 : Cells T) (m : Mem T) :
  grid_ok self -> populated self ps N (ps1, self1) ->
  (forall k, next_of m k = nexts ps1 k) ->
  lists_cells self1 m (bucket self ps N) (Z.to_nat N).
Proof.
  intros (_ & Hnum & _) (_ & (_ & Hbin & _) & Hcells) Hm c Hc.
  simpl in Hbin, Hcells. rewrite Hbin, <- Hnum in Hc.
  destruct (Hcells c Hc) as (h & Hh & Hchain). exists h.
  split; [exact Hh|]. split; [|apply bucket_length].
  apply (is_chain_ext _ _ _ _ Hchain). intros k _. apply Hm.
Qed.

Lemma cell_pairs_in_array (N : Z) (ps : list (Particle T)) (self : Cells T)
  (L c0 c1 i j : Z) :
  In (i, j) (cell_pairs (bucket self ps N) L c0 c1) ->
  (0 <= i < N)%Z /\ (0 <= j < N)%Z.
Proof.
  intros H. apply in_cell_pairs_listed in H as (c & c' & Hi & Hj).
  apply in_bucket in Hi, Hj. tauto.
Qed.

End PopulatedLists.

Section PartitionSum.

Local Open Scope R_scope.

Variables (ps0 : list (Particle R)) (self1 : Cells R) (B : Z -> list Z).
Variables (fuel : nat) (rc gamma : R).

Hypothesis lists :
  forall st log, lists_cells self1 (mkMem ps0 st log) B fuel.
Hypothesis in_array_pairs :
  forall c0 c1 i j, In (i, j) (cell_pairs B (binning self1) c0 c1) ->
    (0 <= i < Z.of_nat (length ps0))%Z /\ (0 <= j < Z.of_nat (length ps0))%Z.

Lemma range_force_split (c0 c1 c2 k : Z) :
  (c0 <= c1 <= c2)%Z ->
  range_force ps0 self1 B rc gamma c0 c2 k = vec_add (range_force ps0 self1 B rc gamma c0 c1 k) (range_force ps0 self1 B rc gamma c1 c2 k).
Proof.
  intros Hc. unfold range_force, vsum.
  rewrite <- (msum_app vzero vec_add vec_add_assoc vec_add_zero), <- map_app.
  apply (msum_perm vzero vec_add vec_add_comm vec_add_assoc).
  apply Permutation_map. now apply cell_pairs_split.
Qed.

Lemma range_force_none (c k : Z) : range_force ps0 self1 B rc gamma c c k = vzero.
Proof. unfold range_force. now rewrite cell_pairs_none. Qed.

(** One sweep over a range of cells, from the memory [m]. *)
Lemma sweep_range_runs (c0 c1 : Z) (st : Stats R) (log : list (Z * Z)) :
  exists m',
    dvs_calc_forces fuel self1 c0 c1 rc gamma (mkMem ps0 st log) = Some m' /\
    run_pairs rc gamma (cell_pairs B (binning self1) c0 c1)
      (mkMem ps0 st log) = Some m' /\
    length (particles m') = length ps0 /\
    forall k pk, get ps0 k = Some pk ->
      exists pk',
        get (particles m') k = Some pk' /\ same_frame pk pk' /\
        a pk' = vec_add (a pk) (range_force ps0 self1 B rc gamma c0 c1 k).
Proof.
  destruct (run_pairs_runs rc gamma (cell_pairs B (binning self1) c0 c1)
              (mkMem ps0 st log)) as (m' & Hrun & F & _).
  { intros i j Hij. unfold in_array. simpl. now apply (in_array_pairs c0 c1). }
  exists m'. rewrite (dvs_calc_forces_pairs rc gamma fuel self1 B) by apply lists.
  split; [exact Hrun|]. split; [exact Hrun|].
  split; [symmetry; apply (Forall2_length F)|].
  apply (run_pairs_sum rc gamma _ _ _ Hrun).
Qed.

Hypothesis zero_a : Forall (fun p => a p = vzero) ps0.

Lemma sweep_partitions_sum (st : Stats R) (lo hi : Z) (cuts : list Z) :
  tiles lo hi cuts ->
  forall accu, length accu = length ps0 ->
  exists accu',
    sweep_partitions fuel self1 cuts rc gamma st ps0 accu = Some accu' /\
    length accu' = length ps0 /\
    forall k pa, get accu k = Some pa ->
      exists pa',
        get accu' k = Some pa' /\
        a pa' = vec_add (a pa) (range_force ps0 self1 B rc gamma lo hi k).
Proof.
  induction 1 as [c|c c' hi rest Hle Htiles IH]; intros accu Hlen.
  - exists accu. simpl. split; [reflexivity|]. split; [exact Hlen|].
    intros k pa Hk. exists pa. split; [exact Hk|].
    rewrite range_force_none, vec_add_comm. symmetry. apply vec_add_zero.
  - simpl sweep_partitions.
    destruct (sweep_range_runs c c' st []) as (m' & Hrun & _ & Hlen' & Hacc).
    rewrite Hrun. cbn [bind].
    destruct (collect_forces_loop (Z.of_nat (length accu)) accu (particles m'))
      as (accu1 & Hcollect & Hlen1 & Hget1); [lia|lia|].
    rewrite Hcollect. cbn [bind fst].
    destruct (IH accu1) as (accu' & Hsweep & Hlen2 & Hget2); [congruence|].
    exists accu'. split; [exact Hsweep|]. split; [exact Hlen2|].
    intros k pa Hk. pose proof (get_Some_range _ _ _ Hk) as Hrange.
    destruct (get_in_range ps0 k) as (p0 & Hp0); [lia|].
    destruct (Hacc k p0 Hp0) as (pp & Hpp & _ & Happ).
    destruct (Hget2 k _ (Hget1 k pa Hk)) as (pa' & Hpa' & Ha').
    exists pa'. split; [exact Hpa'|]. rewrite Ha'.
    unfold collected.
    destruct (Z.leb_spec 0 k), (Z.ltb_spec k (Z.of_nat (length accu)));
      try lia.
    cbn [andb]. rewrite Hpp. cbn [a set_a]. rewrite Happ.
    rewrite Forall_forall in zero_a.
    assert (Hz : a p0 = vzero).
    { apply zero_a. unfold get in Hp0. destruct (k <? 0)%Z; [discriminate|].
      now apply nth_error_In in Hp0. }
    rewrite Hz, vec_add_zero.
    rewrite (range_force_split c c' hi k)
      by (pose proof (tiles_le _ _ _ Htiles); lia).
    symmetry. apply vec_add_assoc.
Qed.

End PartitionSum.

Lemma get_of_nat {A : Type} (l : list A) (n : nat) :
  get l (Z.of_nat n) = nth_error l n.
Proof.
  unfold get. destruct (Z.ltb_spec (Z.of_nat n) 0); [lia|].
  now rewrite Nat2Z.id.
Qed.

Lemma get_cons {A : Type} (h : A) (t : list A) (k : Z) :
  (0 <= k)%Z -> get (h :: t) (k + 1) = get t k.
Proof.
  intros Hk. unfold get.
  destruct (Z.ltb_spec (k + 1) 0), (Z.ltb_spec k 0); try lia.
  replace (Z.to_nat (k + 1)) with (S (Z.to_nat k)) by lia. reflexivity.
Qed.

Lemma Forall2_of_get {A B : Type} (R : A -> B -> Prop) (l : list A)
  (l' : list B) :
  length l = length l' ->
  (forall k e e', get l k = Some e -> get l' k = Some e' -> R e e') ->
  Forall2 R l l'.
Proof.
  revert l'. induction l as [|h t IH]; intros [|h' t'] Hlen H;
    try discriminate; constructor.
  - apply (H 0%Z); reflexivity.
  - apply IH; [simpl in Hlen; congruence|]. intros k e e' He He'.
    pose proof (get_Some_range _ _ _ He) as Hk.
    apply (H (k + 1)%Z); rewrite get_cons by lia; assumption.
Qed.

(** ** C6: the sum over a partition of the cells, in exact arithmetic *)

Section PartitionClaimReal.

Local Open Scope R_scope.

(** C6. In exact arithmetic: for an array of [N] particles and a grid with
    binning [L >= 1], [dvs_populate_cells] returns, and then, for every
    partition [0 = c_0 <= c_1 <= ... <= c_n = L^3] of the cells, the sweeps
    of [dvs_calc_forces] over the ranges [c_k, c_k+1), each from a copy of
    the particles with zero accelerations, summed by [dvs_collect_forces],
    and the one sweep over [0, L^3) from such a copy all return, and give
    every particle the same acceleration. *)
Theorem partition_sum_exact (N : Z) (ps : list (Particle R))
  (self : Cells R) (rc gamma : R) (st : Stats R) :
  (1 <= binning self)%Z ->
  num_cells self = (binning self * binning self * binning self)%Z ->
  Z.of_nat (length (cells self)) = num_cells self ->
  N = Z.of_nat (length ps) ->
  exists ps1 self1,
    dvs_populate_cells N ps self = Some (ps1, self1) /\
    forall cuts,
      tiles 0 (binning self * binning self * binning self) cuts ->
      exists accu full,
        sweep_partitions (Z.to_nat N) self1 cuts rc gamma st
          (zero_accelerations ps1) (zero_accelerations ps1) = Some accu /\
        dvs_calc_forces (Z.to_nat N) self1 0
          (binning self * binning self * binning self) rc gamma
          (mkMem (zero_accelerations ps1) st []) = Some full /\
        Forall2 (fun p p' => a p = a p') accu (particles full).
Proof.
  intros HL Hnum Hlen HN.
  assert (Hok : grid_ok self) by (repeat split; assumption).
  destruct (dvs_populate_cells_spec N ps self Hok HN)
    as (ps1 & self1 & Hpop & Hpopulated).
  exists ps1, self1. split; [exact Hpop|]. intros cuts Hcuts.
  set (ps0 := zero_accelerations ps1).
  set (B := bucket self ps N).
  pose proof Hpopulated as (Hplace & (_ & Hbin & _) & _).
  simpl in Hplace, Hbin.
  assert (Hlen0 : length ps0 = length ps).
  { unfold ps0, zero_accelerations. rewrite length_map.
    symmetry. apply (Forall2_length Hplace). }
  assert (Hlists : forall st' log,
             lists_cells self1 (mkMem ps0 st' log) B (Z.to_nat N)).
  { intros st' log. apply (populated_lists_cells N ps ps1 self self1);
      auto. intros k. apply nexts_zero_accelerations. }
  assert (Harr : forall c0 c1 i j,
             In (i, j) (cell_pairs B (binning self1) c0 c1) ->
             (0 <= i < Z.of_nat (length ps0))%Z /\
             (0 <= j < Z.of_nat (length ps0))%Z).
  { intros c0 c1 i j Hij. rewrite Hlen0, <- HN.
    apply (cell_pairs_in_array N ps self (binning self1) c0 c1 i j Hij). }
  assert (Hzero : Forall (fun p => a p = vzero) ps0).
  { unfold ps0, zero_accelerations. apply Forall_map, Forall_forall.
    reflexivity. }
  destruct (sweep_partitions_sum ps0 self1 B (Z.to_nat N) rc gamma
              Hlists Harr Hzero st 0 _ cuts Hcuts ps0 eq_refl)
    as (accu & Hsweep & Hlena & Hacc).
  destruct (sweep_range_runs ps0 self1 B (Z.to_nat N) rc gamma
              Hlists Harr 0 (binning self * binning self * binning self)
              st [])
    as (full & Hfull & _ & Hlenf & Hfacc).
  exists accu, full. split; [exact Hsweep|]. split; [exact Hfull|].
  apply Forall2_of_get; [congruence|]. intros k pa pf Hpa Hpf.
  destruct (get_in_range ps0 k) as (p0 & Hp0).
  { rewrite <- Hlena. apply (get_Some_range _ _ _ Hpa). }
  destruct (Hacc k p0 Hp0) as (pa' & Hpa' & Ha).
  destruct (Hfacc k p0 Hp0) as (pf' & Hpf' & _ & Hf).
  congruence.
Qed.

End PartitionClaimReal.

(** ** Which pairs the cell sweep calls the kernel on *)

Lemma tri_NoDup (l : list Z) : NoDup l -> NoDup (tri l).
Proof.
  induction 1 as [|i t Hi Ht IH]; simpl; [constructor|].
  apply NoDup_app; [now apply NoDup_map_pair|exact IH|].
  intros [i' j] H H'. apply in_map_iff in H as (j' & E & _).
  inversion E; subst. apply in_tri in H'. tauto.
Qed.

Lemma cross_NoDup (l l' : list Z) : NoDup l -> NoDup l' -> NoDup (cross l l').
Proof.
  intros Hl Hl'. unfold cross. apply NoDup_flat_map; [exact Hl| |].
  - intros. now apply NoDup_map_pair.
  - intros i i' [a b] _ _ H H'.
    apply in_map_iff in H as (? & E & _), H' as (? & E' & _). congruence.
Qed.

Lemma in_tri_sorted (l : list Z) (i j : Z) :
  StronglySorted (fun u w => (w < u)%Z) l ->
  (In (i, j) (tri l) <-> In i l /\ In j l /\ (j < i)%Z).
Proof.
  induction 1 as [|h t Ht IH Hh]; simpl; [tauto|].
  rewrite Forall_forall in Hh. rewrite in_app_iff, in_map_iff, IH. split.
  - intros [(j' & E & Hj)|(Hi & Hj & Hlt)].
    + inversion E; subst. split; [now left|]. split; [now right|].
      now apply Hh.
    + tauto.
  - intros ([->|Hi] & [->|Hj] & Hlt).
    + lia.
    + left. exists j. auto.
    + specialize (Hh _ Hi). lia.
    + right. auto.
Qed.

Lemma cell_number_inj (L x y z x' y' z' : Z) :
  (0 <= x < L)%Z -> (0 <= y < L)%Z -> (0 <= x' < L)%Z -> (0 <= y' < L)%Z ->
  (x + L * y + L * L * z = x' + L * y' + L * L * z')%Z ->
  x = x' /\ y = y' /\ z = z'.
Proof.
  intros Hx Hy Hx' Hy' E.
  assert (Hz : z = z') by nia. subst z'.
  assert (Hyy : y = y') by nia. subst y'. lia.
Qed.

Section PairsOfTheSweep.

Local Open Scope Z_scope.

(** [N] particles; the particle [k] has the bins [bx k], [by' k], [bz k]
    in a grid of binning [L]; [B c] lists the particles of the cell [c],
    the last one first. *)
Variables (N L : Z) (bx by' bz : Z -> Z) (B : Z -> list Z).

Hypothesis bins_range :
  forall k, 0 <= k < N -> 0 <= bx k < L /\ 0 <= by' k < L /\ 0 <= bz k < L.
Hypothesis listed : forall c k, In k (B c) <-> 0 <= k < N /\ cell L bx by' bz k = c.
Hypothesis sorted : forall c, StronglySorted (fun u w => w < u) (B c).
Hypothesis nodup : forall c, NoDup (B c).

Lemma in_pair_list (this_cell other_cell i j : Z) :
  In (i, j) (pair_list B this_cell other_cell) <->
  (0 <= i < N /\ cell L bx by' bz i = this_cell) /\ (0 <= j < N /\ cell L bx by' bz j = other_cell) /\
  swept_before L bx by' bz i j.
Proof.
  unfold pair_list, swept_before.
  destruct (Z.gtb_spec this_cell other_cell) as [Hgt|Hle].
  { simpl. split; [tauto|]. intros ((_ & <-) & (_ & <-) & H). lia. }
  destruct (Z.eqb_spec this_cell other_cell) as [<-|Hne].
  - rewrite in_tri_sorted by apply sorted. rewrite !listed. split.
    + intros (Hi & Hj & Hlt). repeat split; try tauto. right. split; [|lia].
      destruct Hi as [_ ->], Hj as [_ ->]. reflexivity.
    + intros (Hi & Hj & [Hlt|[_ Hlt]]); [lia|tauto].
  - rewrite in_cross, !listed. split.
    + intros (Hi & Hj). repeat split; try tauto. left.
      destruct Hi as [_ ->], Hj as [_ ->]. lia.
    + tauto.
Qed.

Lemma pair_list_NoDup (this_cell other_cell : Z) :
  NoDup (pair_list B this_cell other_cell).
Proof.
  unfold pair_list. destruct (_ >? _); [constructor|].
  destruct (_ =? _); [apply tri_NoDup|apply cross_NoDup]; apply nodup.
Qed.

Lemma in_neighbour_pairs (x y z i j : Z) :
  0 <= x < L -> 0 <= y < L -> 0 <= z < L ->
  (In (i, j) (neighbour_pairs B L (x + L * y + L * L * z) x y z) <->
   (0 <= i < N /\ bx i = x /\ by' i = y /\ bz i = z) /\ 0 <= j < N /\
   near bx by' bz i j /\ swept_before L bx by' bz i j).
Proof.
  intros Hx Hy Hz. unfold neighbour_pairs. split.
  - intros H.
    apply in_flat_map in H as (nnz & Hnnz & H).
    apply in_flat_map in H as (nny & Hnny & H).
    apply in_flat_map in H as (nnx & Hnnx & H).
    apply MAX_MIN_neighbour in Hnnz, Hnny, Hnnx.
    apply in_pair_list in H as ((Hi & Hci) & (Hj & Hcj) & Hbefore).
    destruct (bins_range i Hi) as (Hbx & Hby & Hbz).
    destruct (bins_range j Hj) as (Hbx' & Hby' & Hbz').
    unfold cell in Hci, Hcj.
    apply cell_number_inj in Hci as (Ex0 & Ey0 & Ez0); try lia.
    assert (Hcj' : bx j + L * by' j + L * L * bz j
                   = nnx + L * nny + L * L * nnz) by lia.
    apply cell_number_inj in Hcj' as (Ex & Ey & Ez); try lia.
    unfold near. repeat split; auto; lia.
  - intros ((Hi & Hbx & Hby & Hbz) & Hj & (Hnx & Hny & Hnz) & Hbefore).
    destruct (bins_range j Hj) as (Hbx' & Hby' & Hbz').
    apply in_flat_map. exists (bz j). split.
    { apply in_zrange. unfold MAX, MIN.
      destruct (Z.ltb_spec 0 (z - 1)), (Z.ltb_spec L (z + 2)); lia. }
    apply in_flat_map. exists (by' j). split.
    { apply in_zrange. unfold MAX, MIN.
      destruct (Z.ltb_spec 0 (y - 1)), (Z.ltb_spec L (y + 2)); lia. }
    apply in_flat_map. exists (bx j). split.
    { apply in_zrange. unfold MAX, MIN.
      destruct (Z.ltb_spec 0 (x - 1)), (Z.ltb_spec L (x + 2)); lia. }
    apply in_pair_list. unfold cell. repeat split; auto; try lia; nia.
Qed.

Lemma neighbour_pairs_NoDup (this_cell x y z : Z) :
  NoDup (neighbour_pairs B L this_cell x y z).
Proof.
  assert (Hsrc : forall a b c a' b' c' i j,
    (0 <= a < L /\ 0 <= b < L) -> (0 <= a' < L /\ 0 <= b' < L) ->
    In (i, j) (pair_list B this_cell (a + b * L + c * (L * L))) ->
    In (i, j) (pair_list B this_cell (a' + b' * L + c' * (L * L))) ->
    a = a' /\ b = b' /\ c = c').
  { intros a b c a' b' c' i j Hab Hab' H H'.
    apply in_pair_list in H as (_ & (_ & E) & _).
    apply in_pair_list in H' as (_ & (_ & E') & _).
    apply (cell_number_inj L); try tauto. lia. }
  unfold neighbour_pairs. apply NoDup_flat_map; [apply zrange_NoDup| |].
  - intros nnz Hnnz. apply NoDup_flat_map; [apply zrange_NoDup| |].
    + intros nny Hnny. apply NoDup_flat_map; [apply zrange_NoDup| |].
      * intros. apply pair_list_NoDup.
      * intros nnx nnx' [i j] Hx Hx' H H'.
        apply MAX_MIN_neighbour in Hx, Hx', Hnny.
        now destruct (Hsrc nnx nny nnz nnx' nny nnz i j) as (? & _); try tauto.
    + intros nny nny' [i j] Hy Hy' H H'.
      apply in_flat_map in H as (nnx & Hx & H), H' as (nnx' & Hx' & H').
      apply MAX_MIN_neighbour in Hx, Hx', Hy, Hy'.
      now destruct (Hsrc nnx nny nnz nnx' nny' nnz i j) as (_ & ? & _);
        try tauto.
  - intros nnz nnz' [i j] Hz Hz' H H'.
    apply in_flat_map in H as (nny & Hy & H), H' as (nny' & Hy' & H').
    apply in_flat_map in H as (nnx & Hx & H), H' as (nnx' & Hx' & H').
    apply MAX_MIN_neighbour in Hx, Hx', Hy, Hy'.
    now destruct (Hsrc nnx nny nnz nnx' nny' nnz' i j) as (_ & _ & ?);
      try tauto.
Qed.

Lemma in_cell_pairs_at (cell0 cell1 x y z i j : Z) :
  0 <= x < L -> 0 <= y < L -> 0 <= z < L ->
  (In (i, j) (cell_pairs_at B L cell0 cell1 x y z) <->
   (0 <= i < N /\ bx i = x /\ by' i = y /\ bz i = z) /\ 0 <= j < N /\
   cell0 <= cell L bx by' bz i < cell1 /\ near bx by' bz i j /\ swept_before L bx by' bz i j).
Proof.
  intros Hx Hy Hz. unfold cell_pairs_at. cbv zeta.
  destruct (Z.ltb_spec (x + L * y + L * L * z) cell0) as [Hlo|Hlo];
    [|destruct (Z.geb_spec (x + L * y + L * L * z) cell1) as [Hhi|Hhi]];
    cbn [orb].
  - split; [contradiction|]. unfold cell.
    intros ((_ & -> & -> & ->) & _ & Hc & _). lia.
  - split; [contradiction|]. unfold cell.
    intros ((_ & -> & -> & ->) & _ & Hc & _). lia.
  - rewrite in_neighbour_pairs by assumption. unfold cell. split.
    + intros ((Hi & Ex & Ey & Ez) & H). rewrite Ex, Ey, Ez. tauto.
    + tauto.
Qed.

(** The calls of the sweep over the cells [cell0 .. cell1 - 1]: the pairs
    of particles in touching cells, the first one in a cell of the range,
    each pair in the order of the sweep. *)
Lemma in_cell_pairs (cell0 cell1 i j : Z) :
  In (i, j) (cell_pairs B L cell0 cell1) <->
  0 <= i < N /\ 0 <= j < N /\ cell0 <= cell L bx by' bz i < cell1 /\
  near bx by' bz i j /\ swept_before L bx by' bz i j.
Proof.
  unfold cell_pairs. split.
  - intros H.
    apply in_flat_map in H as (z & Hz & H).
    apply in_flat_map in H as (y & Hy & H).
    apply in_flat_map in H as (x & Hx & H).
    apply in_zrange in Hx, Hy, Hz.
    apply in_cell_pairs_at in H; tauto.
  - intros (Hi & H). destruct (bins_range i Hi) as (Hbx & Hby & Hbz).
    apply in_flat_map. exists (bz i). split; [now apply in_zrange|].
    apply in_flat_map. exists (by' i). split; [now apply in_zrange|].
    apply in_flat_map. exists (bx i). split; [now apply in_zrange|].
    apply in_cell_pairs_at; tauto.
Qed.

Lemma cell_pairs_NoDup (cell0 cell1 : Z) : NoDup (cell_pairs B L cell0 cell1).
Proof.
  unfold cell_pairs. apply NoDup_flat_map; [apply zrange_NoDup| |].
  - intros z Hz. apply in_zrange in Hz.
    apply NoDup_flat_map; [apply zrange_NoDup| |].
    + intros y Hy. apply in_zrange in Hy.
      apply NoDup_flat_map; [apply zrange_NoDup| |].
      * intros x Hx. unfold cell_pairs_at. cbv zeta.
        destruct (_ || _); [constructor|apply neighbour_pairs_NoDup].
      * intros x x' [i j] Hx Hx' H H'. apply in_zrange in Hx, Hx'.
        apply in_cell_pairs_at in H, H'; try assumption.
        destruct H as ((_ & ? & _) & _), H' as ((_ & ? & _) & _). congruence.
    + intros y y' [i j] Hy Hy' H H'. apply in_zrange in Hy, Hy'.
      apply in_flat_map in H as (x & Hx & H), H' as (x' & Hx' & H').
      apply in_zrange in Hx, Hx'.
      apply in_cell_pairs_at in H, H'; try assumption.
      destruct H as ((_ & _ & ? & _) & _), H' as ((_ & _ & ? & _) & _).
      congruence.
  - intros z z' [i j] Hz Hz' H H'. apply in_zrange in Hz, Hz'.
    apply in_flat_map in H as (y & Hy & H), H' as (y' & Hy' & H').
    apply in_flat_map in H as (x & Hx & H), H' as (x' & Hx' & H').
    apply in_zrange in Hx, Hx', Hy, Hy'.
    apply in_cell_pairs_at in H, H'; try assumption.
    destruct H as ((_ & _ & _ & ?) & _), H' as ((_ & _ & _ & ?) & _).
    congruence.
Qed.

Lemma swept_before_asym (i j : Z) : swept_before L bx by' bz i j -> ~ swept_before L bx by' bz j i.
Proof. unfold swept_before. lia. Qed.

Lemma swept_before_total (i j : Z) :
  i <> j -> swept_before L bx by' bz i j \/ swept_before L bx by' bz j i.
Proof. unfold swept_before. lia. Qed.

Lemma near_sym (i j : Z) : near bx by' bz i j -> near bx by' bz j i.
Proof. unfold near. lia. Qed.

Lemma cell_range (k : Z) : 0 <= k < N -> 0 <= cell L bx by' bz k < L * L * L.
Proof.
  intros Hk. destruct (bins_range k Hk) as (Hx & Hy & Hz).
  now apply cell_number_range.
Qed.

(** [int] tells which pairs interact: it does not depend on the order of
    the pair, and particles that interact are in touching cells. *)
Variable int : Z * Z -> bool.
Hypothesis int_sym : forall i j, int (i, j) = int (j, i).
Hypothesis int_near :
  forall i j, 0 <= i < N -> 0 <= j < N -> int (i, j) = true -> near bx by' bz i j.

(** The interacting pairs of the sweep over all the cells are the
    interacting pairs of the brute sweep over all the particles. *)
Lemma interacting_pairs_agree :
  Permutation (map ordered (filter int (cell_pairs B L 0 (L * L * L))))
    (filter int (brute_pairs N 0 N)).
Proof.
  apply NoDup_Permutation.
  - apply NoDup_map_NoDup_ForallPairs;
      [|apply NoDup_filter, cell_pairs_NoDup].
    intros [i j] [i' j'] H H' E.
    apply filter_In in H as [H _], H' as [H' _].
    apply in_cell_pairs in H as (_ & _ & _ & _ & Hb).
    apply in_cell_pairs in H' as (_ & _ & _ & _ & Hb').
    unfold ordered in E. simpl in E.
    destruct (Z.ltb_spec i j), (Z.ltb_spec i' j'); inversion E; subst;
      try reflexivity; exfalso; eapply swept_before_asym; eauto.
  - apply NoDup_filter, brute_pairs_NoDup.
  - intros [a b]. rewrite in_map_iff, filter_In, in_brute_pairs. split.
    + intros ([i j] & E & H). apply filter_In in H as [H Hint].
      apply in_cell_pairs in H as (Hi & Hj & _ & _ & Hb).
      assert (Hne : i <> j)
        by (intros ->; unfold swept_before in Hb; lia).
      unfold ordered in E. simpl in E.
      destruct (Z.ltb_spec i j); inversion E; subst.
      * split; [lia|exact Hint].
      * split; [lia|]. now rewrite int_sym.
    + intros (Hab & Hint).
      assert (Ha : 0 <= a < N) by lia. assert (Hb : 0 <= b < N) by lia.
      pose proof (int_near a b Ha Hb Hint) as Hnear.
      pose proof (cell_range a Ha) as Hca.
      pose proof (cell_range b Hb) as Hcb.
      destruct (swept_before_total a b) as [Hs|Hs]; [lia| |].
      * exists (a, b). split.
        { unfold ordered. simpl. destruct (Z.ltb_spec a b); [reflexivity|lia]. }
        apply filter_In. split; [|exact Hint].
        apply in_cell_pairs. tauto.
      * exists (b, a). split.
        { unfold ordered. simpl. destruct (Z.ltb_spec b a); [lia|reflexivity]. }
        apply filter_In. split; [|now rewrite int_sym].
        apply in_cell_pairs. split; [lia|]. split; [lia|]. split; [lia|].
        split; [now apply near_sym|exact Hs].
Qed.

(** So a sum over the calls, of terms that do not depend on the order of
    the pair and vanish when the pair does not interact, is the same for
    the two sweeps. *)
Lemma sweeps_sum_agree (M : Type) (zero : M) (plus : M -> M -> M)
  (f : Z * Z -> M) :
  (forall u w, plus u w = plus w u) ->
  (forall u w t, plus u (plus w t) = plus (plus u w) t) ->
  (forall u, plus zero u = u) ->
  (forall i j, f (i, j) = f (j, i)) ->
  (forall e, int e = false -> f e = zero) ->
  msum zero plus (map f (cell_pairs B L 0 (L * L * L))) =
  msum zero plus (map f (brute_pairs N 0 N)).
Proof.
  intros Hcomm Hassoc Hzero Hsym Hint.
  rewrite (msum_filter zero plus Hzero f int (cell_pairs _ _ _ _))
    by (intros; now apply Hint).
  rewrite (msum_filter zero plus Hzero f int (brute_pairs _ _ _))
    by (intros; now apply Hint).
  rewrite <- (msum_perm zero plus Hcomm Hassoc _ _
                (Permutation_map f interacting_pairs_agree)).
  rewrite map_map. apply msum_ext. intros [i j] _. unfold ordered. simpl.
  destruct (i <? j); [reflexivity|apply Hsym].
Qed.

End PairsOfTheSweep.

(** ** The bins of the particles *)

Section Bins.

Context {T : Type} {Sc : Scalar T}.
Implicit Types (ps : list (Particle T)) (self : Cells T).

Lemma cell_index_bins self ps (k : Z) :
  (0 <= k < Z.of_nat (length ps))%Z ->
  cell_index self ps k =
  cell (binning self) (bin_x self ps) (bin_y self ps) (bin_z self ps) k.
Proof.
  intros Hk. destruct (get_in_range ps k Hk) as (p & Hp).
  unfold cell_index, cell, bin_x, bin_y, bin_z. rewrite Hp.
  unfold cell_of. lia.
Qed.

Lemma bins_in_range self ps (k : Z) :
  (1 <= binning self)%Z ->
  (0 <= bin_x self ps k < binning self)%Z /\
  (0 <= bin_y self ps k < binning self)%Z /\
  (0 <= bin_z self ps k < binning self)%Z.
Proof.
  intros HL. unfold bin_x, bin_y, bin_z, bin_of.
  destruct (get ps k) as [p|]; [|lia].
  pose proof (MAX_MIN_range (floor_int ((x (r p) + lit_one) / dr self)%sc)
                (binning self) HL).
  pose proof (MAX_MIN_range (floor_int ((y (r p) + lit_one) / dr self)%sc)
                (binning self) HL).
  pose proof (MAX_MIN_range (floor_int ((z (r p) + lit_one) / dr self)%sc)
                (binning self) HL).
  lia.
Qed.

Lemma bucket_sorted self ps (n c : Z) :
  StronglySorted (fun u w => (w < u)%Z) (bucket self ps n c).
Proof.
  destruct (Z.le_gt_cases n 0) as [Hn|Hn].
  { unfold bucket. rewrite zrange_nil by lia. constructor. }
  rewrite <- (Z2Nat.id n) by lia. generalize (Z.to_nat n) as m. clear n Hn.
  induction m as [|m IH].
  - unfold bucket. rewrite zrange_nil by lia. constructor.
  - rewrite Nat2Z.inj_succ, <- Z.add_1_r, bucket_next by lia.
    destruct (_ =? _)%Z; [|exact IH]. constructor; [exact IH|].
    apply Forall_forall. intros k Hk. apply in_bucket in Hk. lia.
Qed.

Lemma in_bucket_cell self ps (N c k : Z) :
  N = Z.of_nat (length ps) ->
  In k (bucket self ps N c) <->
  (0 <= k < N)%Z /\
  cell (binning self) (bin_x self ps) (bin_y self ps) (bin_z self ps) k = c.
Proof.
  intros HN. rewrite in_bucket. split; intros [Hk Hc]; split; auto.
  - now rewrite <- cell_index_bins by lia.
  - now rewrite cell_index_bins by lia.
Qed.

End Bins.

(** ** The cell sweep against the brute sweep, in exact arithmetic *)

Section CellsAgainstBrute.

Local Open Scope R_scope.
Implicit Types (p q : Particle R) (ps : list (Particle R)) (e : Z * Z).

Lemma vec_magnitude2_sub_sym (u w : vec R) :
  vec_magnitude2 (vec_sub w u) = vec_magnitude2 (vec_sub u w).
Proof.
  unfold vec_magnitude2, vec_dot, vec_sub.
  cbn [x y z sadd ssub smul real_scalar]. ring.
Qed.

Lemma within_cutoff_sym (rc : R) p q :
  within_cutoff rc q p = within_cutoff rc p q.
Proof. unfold within_cutoff. now rewrite vec_magnitude2_sub_sym. Qed.

Lemma pair_force_antisym (rc gamma : R) p q :
  pair_force rc gamma q p = vec_sclr (-1) (pair_force rc gamma p q).
Proof.
  unfold pair_force, force_magnitude.
  rewrite (vec_magnitude2_sub_sym (r p) (r q)).
  set (k := sdiv _ _). apply vec_ext;
    unfold vec_inc, vec_add, vec_sub, vec_sclr;
    cbn [x y z sadd ssub smul sneg real_scalar]; ring.
Qed.

Lemma pair_at_swap ps (i j : Z) :
  pair_at ps (j, i) =
  match pair_at ps (i, j) with Some (p, q) => Some (q, p) | None => None end.
Proof.
  unfold pair_at. simpl.
  destruct (get ps i), (get ps j); reflexivity.
Qed.

Lemma interacts_sym ps (rc : R) (i j : Z) :
  interacts ps rc (i, j) = interacts ps rc (j, i).
Proof.
  unfold interacts. rewrite (pair_at_swap ps i j).
  destruct (pair_at ps (i, j)) as [[p q]|]; [|reflexivity].
  symmetry. apply within_cutoff_sym.
Qed.

Lemma count_term_sym ps (rc : R) (i j : Z) :
  count_term ps rc (i, j) = count_term ps rc (j, i).
Proof. unfold count_term. now rewrite interacts_sym. Qed.

Lemma energy_term_sym ps (rc : R) (i j : Z) :
  energy_term ps rc (i, j) = energy_term ps rc (j, i).
Proof.
  unfold energy_term. rewrite (pair_at_swap ps i j).
  destruct (pair_at ps (i, j)) as [[p q]|]; [|reflexivity].
  rewrite (within_cutoff_sym rc p q). unfold vec_norm.
  now rewrite (vec_magnitude2_sub_sym (r p) (r q)).
Qed.

Lemma force_term_sym ps (rc gamma : R) (k i j : Z) :
  force_term ps rc gamma k (i, j) = force_term ps rc gamma k (j, i).
Proof.
  unfold force_term. rewrite (pair_at_swap ps i j).
  destruct (pair_at ps (i, j)) as [[p q]|]; [|reflexivity].
  rewrite (within_cutoff_sym rc p q), (pair_force_antisym rc gamma p q).
  destruct (within_cutoff rc p q); [|reflexivity]. cbn [fst snd].
  unfold keep_if. set (F := pair_force rc gamma p q).
  destruct (k =? i)%Z, (k =? j)%Z; apply vec_ext;
    unfold vzero, VEC_ZERO, vec_sub, vec_sclr, lit_zero;
    cbn [x y z ssub smul real_scalar of_long]; ring.
Qed.

Lemma count_term_zero ps (rc : R) e :
  interacts ps rc e = false -> count_term ps rc e = 0%Z.
Proof. unfold count_term. now intros ->. Qed.

Lemma energy_term_zero ps (rc : R) e :
  interacts ps rc e = false -> energy_term ps rc e = 0.
Proof.
  unfold interacts, energy_term.
  destruct (pair_at ps e) as [[p q]|]; [|reflexivity]. now intros ->.
Qed.

Lemma force_term_zero ps (rc gamma : R) (k : Z) e :
  interacts ps rc e = false -> force_term ps rc gamma k e = vzero.
Proof.
  unfold interacts, force_term.
  destruct (pair_at ps e) as [[p q]|]; [|reflexivity]. now intros ->.
Qed.

(** Two coordinates less than one cell edge apart are in the same bin or in
    neighbouring bins. *)
Lemma Zfloor_close (u w : R) :
  -1 < w - u < 1 -> (-1 <= Zfloor w - Zfloor u <= 1)%Z.
Proof.
  intros H. pose proof (Zfloor_bound u). pose proof (Zfloor_bound w).
  split.
  - assert (Hlt : (Zfloor u < Zfloor w + 2)%Z); [|lia].
    apply lt_IZR. rewrite plus_IZR. lra.
  - assert (Hlt : (Zfloor w < Zfloor u + 2)%Z); [|lia].
    apply lt_IZR. rewrite plus_IZR. lra.
Qed.

Lemma to_int_in_range (n : Z) : (- 2 ^ 31 <= n < 2 ^ 31)%Z -> to_int n = n.
Proof.
  intros H. unfold to_int.
  destruct (Z.leb_spec (- 2 ^ 31) n), (Z.ltb_spec n (2 ^ 31)); simpl; lia.
Qed.

Lemma bin_of_close (self : Cells R) (c c' : R) :
  0 < dr self -> bin_defined self c -> bin_defined self c' ->
  - dr self < c' - c < dr self ->
  (-1 <= bin_of self c' - bin_of self c <= 1)%Z.
Proof.
  intros Hdr Hdef Hdef' Hc. unfold bin_of.
  cbn [floor_int sadd sdiv real_scalar lit_one of_long].
  rewrite !to_int_in_range by assumption. clear Hdef Hdef'.
  assert (Hclose : -1 < (c' + 1) / dr self - (c + 1) / dr self < 1).
  { replace ((c' + 1) / dr self - (c + 1) / dr self)
      with ((c' - c) / dr self) by (field; lra).
    split.
    - apply (Rmult_lt_reg_r (dr self)); [exact Hdr|].
      unfold Rdiv. rewrite Rmult_assoc, Rinv_l by lra. lra.
    - apply (Rmult_lt_reg_r (dr self)); [exact Hdr|].
      unfold Rdiv. rewrite Rmult_assoc, Rinv_l by lra. lra. }
  apply Zfloor_close in Hclose. revert Hclose.
  generalize (Zfloor ((c' + 1) / dr self)) (Zfloor ((c + 1) / dr self)).
  intros n n' Hn. unfold MAX, MIN.
  destruct (Z.ltb_spec n (binning self - 1)),
    (Z.ltb_spec n' (binning self - 1));
    repeat match goal with
           | |- context [(0 <? ?t)%Z] => destruct (Z.ltb_spec 0 t)
           end; lia.
Qed.

(** In the box [-1, 1]^3 of a grid with [dr = 2/L] and [L] in the range of
    [int], the conversions are defined. *)
Lemma bin_defined_in_box (self : Cells R) (c : R) :
  (1 <= binning self < 2 ^ 31)%Z -> dr self = 2 / IZR (binning self) ->
  -1 <= c <= 1 -> bin_defined self c.
Proof.
  intros HL Hdr Hc. unfold bin_defined. rewrite Hdr.
  assert (HLr : 1 <= IZR (binning self)) by (apply IZR_le; lia).
  replace ((c + 1) / (2 / IZR (binning self)))
    with ((c + 1) / 2 * IZR (binning self)) by (field; lra).
  pose proof (Zfloor_bound ((c + 1) / 2 * IZR (binning self))) as [Hlo Hhi].
  split.
  - assert (H0 : (0 <= Zfloor ((c + 1) / 2 * IZR (binning self)))%Z); [|lia].
    apply Zfloor_lub. simpl. nra.
  - assert (H1 : (Zfloor ((c + 1) / 2 * IZR (binning self))
                  < binning self + 1)%Z); [|lia].
    apply lt_IZR. rewrite plus_IZR. nra.
Qed.

Lemma square_lt (t d : R) : 0 < d -> t * t < d * d -> - d < t < d.
Proof. intros Hd H. split; apply Rnot_le_lt; intros Hc; nra. Qed.

Lemma within_cutoff_bins (self : Cells R) (rc : R) p q :
  0 < dr self -> 0 <= rc <= dr self ->
  bins_defined self p -> bins_defined self q ->
  within_cutoff rc p q = true ->
  (-1 <= bin_of self (x (r q)) - bin_of self (x (r p)) <= 1)%Z /\
  (-1 <= bin_of self (y (r q)) - bin_of self (y (r p)) <= 1)%Z /\
  (-1 <= bin_of self (z (r q)) - bin_of self (z (r p)) <= 1)%Z.
Proof.
  intros Hdr Hrc (Hpx & Hpy & Hpz) (Hqx & Hqy & Hqz) Hw.
  apply within_cutoff_true in Hw.
  unfold vec_magnitude2, vec_dot, vec_sub in Hw.
  cbn [x y z sadd ssub smul real_scalar] in Hw.
  assert (Hsq : rc * rc <= dr self * dr self) by nra.
  pose proof (Rle_0_sqr (x (r p) - x (r q))) as Hx.
  pose proof (Rle_0_sqr (y (r p) - y (r q))) as Hy.
  pose proof (Rle_0_sqr (z (r p) - z (r q))) as Hz.
  unfold Rsqr in Hx, Hy, Hz.
  split; [|split]; apply bin_of_close; try assumption;
    apply square_lt; try exact Hdr; nra.
Qed.

End CellsAgainstBrute.

(** ** C4: the cell sweep computes what the brute sweep computes *)

Section RefinementClaim.

Local Open Scope R_scope.
Implicit Types (ps : list (Particle R)) (self : Cells R).

Lemma interacts_near (N : Z) ps ps1 self (rc : R) (i j : Z) :
  Forall2 same_place ps ps1 ->
  0 < dr self -> 0 <= rc <= dr self ->
  Forall (bins_defined self) ps ->
  interacts ps1 rc (i, j) = true ->
  near (bin_x self ps) (bin_y self ps) (bin_z self ps) i j.
Proof.
  intros Hplace Hdr Hrc Hdef Hint. unfold interacts, pair_at in Hint.
  simpl in Hint.
  destruct (get ps1 i) as [p1|] eqn:Hp1; [|discriminate].
  destruct (get ps1 j) as [q1|] eqn:Hq1; [|discriminate].
  cbn [bind] in Hint.
  apply Forall2_flip in Hplace.
  destruct (Forall2_get _ _ _ _ _ Hplace Hp1) as (p & Hp & Ep & _).
  destruct (Forall2_get _ _ _ _ _ Hplace Hq1) as (q & Hq & Eq & _).
  rewrite Forall_forall in Hdef.
  assert (Hin : forall k e, get ps k = Some e -> In e ps).
  { intros k e He. unfold get in He. destruct (k <? 0)%Z; [discriminate|].
    now apply nth_error_In in He. }
  unfold near, bin_x, bin_y, bin_z. rewrite Hp, Hq.
  apply (within_cutoff_bins self rc); eauto.
  unfold within_cutoff in *. now rewrite <- Ep, <- Eq.
Qed.

(** After [dvs_populate_cells], a sum over the calls of the cell sweep is
    the sum over the calls of the brute sweep. *)
Lemma populated_sums_agree (N : Z) ps ps1 self self1 (rc : R)
  (M : Type) (zero : M) (plus : M -> M -> M) (f : Z * Z -> M) :
  grid_ok self -> 0 < dr self -> 0 <= rc <= dr self ->
  Forall (bins_defined self) ps ->
  N = Z.of_nat (length ps) -> populated self ps N (ps1, self1) ->
  (forall u w, plus u w = plus w u) ->
  (forall u w t, plus u (plus w t) = plus (plus u w) t) ->
  (forall u, plus zero u = u) ->
  (forall i j, f (i, j) = f (j, i)) ->
  (forall e, interacts ps1 rc e = false -> f e = zero) ->
  msum zero plus
    (map f (cell_pairs (bucket self ps N) (binning self) 0
              (binning self * binning self * binning self))) =
  msum zero plus (map f (brute_pairs N 0 N)).
Proof.
  intros (HL & _) Hdr Hrc Hdef HN (Hplace & _) Hcomm Hassoc Hzero Hsym Hf.
  simpl in Hplace.
  apply (sweeps_sum_agree N (binning self) (bin_x self ps) (bin_y self ps)
           (bin_z self ps) (bucket self ps N)) with (int := interacts ps1 rc);
    auto.
  - intros k _. now apply bins_in_range.
  - intros c k. now apply in_bucket_cell.
  - intros c. apply bucket_sorted.
  - intros c. apply bucket_NoDup.
  - intros i j. apply interacts_sym.
  - intros i j _ _ Hint. now apply (interacts_near N ps ps1 self rc).
Qed.

(** C4. In exact arithmetic: for an array of [N] particles whose bins
    convert to [int] (as they do in the box [-1, 1]^3), a grid with binning
    [L >= 1] and cell edge [dr = 2/L], and a cutoff [rc] with
    [0 <= rc <= dr]: after [dvs_populate_cells], the sweep of
    [dvs_calc_forces] over the cells [0, L^3) and the sweep of
    [dvs_calc_brute_forces] over the particles [0, N), from the same
    memory, both return, with the same [real_ww_counter], the same [E_pot]
    and the same particles, so the same accelerations. *)
Theorem cell_sweep_agrees_with_brute (N : Z) ps self (rc gamma : R)
  (st : Stats R) (log : list (Z * Z)) :
  (1 <= binning self)%Z ->
  num_cells self = (binning self * binning self * binning self)%Z ->
  Z.of_nat (length (cells self)) = num_cells self ->
  dr self = 2 / IZR (binning self) ->
  0 <= rc <= dr self ->
  Forall (bins_defined self) ps ->
  N = Z.of_nat (length ps) ->
  exists ps1 self1 mc mb,
    dvs_populate_cells N ps self = Some (ps1, self1) /\
    dvs_calc_forces (Z.to_nat N) self1 0
      (binning self * binning self * binning self) rc gamma
      (mkMem ps1 st log) = Some mc /\
    dvs_calc_brute_forces N 0 N rc gamma (mkMem ps1 st log) = Some mb /\
    real_ww_counter (stats mc) = real_ww_counter (stats mb) /\
    E_pot (stats mc) = E_pot (stats mb) /\
    particles mc = particles mb.
Proof.
  intros HL Hnum Hlen Hdr Hrc Hdef HN.
  assert (Hok : grid_ok self) by (repeat split; assumption).
  assert (Hpos : 0 < dr self).
  { rewrite Hdr. apply Rdiv_lt_0_compat; [lra|]. apply IZR_lt. lia. }
  destruct (dvs_populate_cells_spec N ps self Hok HN)
    as (ps1 & self1 & Hpop & Hpopulated).
  pose proof Hpopulated as (Hplace & (_ & Hbin & _) & _).
  simpl in Hplace, Hbin.
  assert (Hlen1 : Z.of_nat (length ps1) = N)
    by (rewrite <- (Forall2_length Hplace); lia).
  set (m0 := mkMem ps1 st log).
  set (B := bucket self ps N).
  set (L3 := (binning self * binning self * binning self)%Z).
  assert (Hlists : lists_cells self1 m0 B (Z.to_nat N))
    by now apply (populated_lists_cells N ps ps1 self self1).
  destruct (run_pairs_runs rc gamma (cell_pairs B (binning self) 0 L3) m0)
    as (mc & Hmc & Fc & _).
  { intros i j Hij. apply cell_pairs_in_array in Hij.
    unfold in_array. simpl. lia. }
  destruct (run_pairs_runs rc gamma (brute_pairs N 0 N) m0)
    as (mb & Hmb & Fb & _).
  { intros i j Hij. apply in_brute_pairs in Hij.
    unfold in_array. simpl. lia. }
  exists ps1, self1, mc, mb. split; [exact Hpop|].
  rewrite (dvs_calc_forces_pairs rc gamma _ self1 B) by exact Hlists.
  rewrite Hbin, dvs_calc_brute_forces_pairs.
  split; [exact Hmc|]. split; [exact Hmb|].
  destruct (run_pairs_sum rc gamma _ _ _ Hmc) as (Hcc & Hec & Hac).
  destruct (run_pairs_sum rc gamma _ _ _ Hmb) as (Hcb & Heb & Hab).
  simpl particles in *.
  assert (Hagree : forall (M : Type) (zero : M) (plus : M -> M -> M) f,
    (forall u w, plus u w = plus w u) ->
    (forall u w t, plus u (plus w t) = plus (plus u w) t) ->
    (forall u, plus zero u = u) ->
    (forall i j, f (i, j) = f (j, i)) ->
    (forall e, interacts ps1 rc e = false -> f e = zero) ->
    msum zero plus (map f (cell_pairs B (binning self) 0 L3)) =
    msum zero plus (map f (brute_pairs N 0 N))).
  { intros. now apply (populated_sums_agree N ps ps1 self self1 rc). }
  split; [|split].
  - rewrite Hcc, Hcb. f_equal. unfold zsum.
    apply Hagree; auto using Z.add_comm, Z.add_assoc, Z.add_0_l,
      count_term_sym, count_term_zero.
  - rewrite Hec, Heb. f_equal. unfold rsum.
    apply Hagree; auto using Rplus_comm, Rplus_0_l, energy_term_sym,
      energy_term_zero.
    intros. now rewrite Rplus_assoc.
  - apply get_ext.
    { now rewrite <- (Forall2_length Fc), <- (Forall2_length Fb). }
    intros k. destruct (get ps1 k) as [pk|] eqn:Hk.
    + destruct (Hac k pk Hk) as (pc & -> & (Erc & Evc & Enc) & Eac).
      destruct (Hab k pk Hk) as (pb & -> & (Erb & Evb & Enb) & Eab).
      f_equal. destruct pc as [rc' vc ac nc], pb as [rb vb ab nb].
      simpl in *. subst. f_equal. f_equal. unfold vsum.
      apply Hagree; auto using vec_add_comm, vec_add_assoc, vec_add_zero,
        force_term_sym, force_term_zero.
    + rewrite (frame_get_None _ _ _ Fc Hk).
      now rewrite (frame_get_None _ _ _ Fb Hk).
Qed.

End RefinementClaim.

(** ** Bins of given coordinates, in exact arithmetic *)

Section ExactBins.

Local Open Scope R_scope.

Lemma bin_of_floor (self : Cells R) (c : R) (n : Z) :
  IZR n <= (c + 1) / dr self < IZR n + 1 ->
  (- 2 ^ 31 <= n < 2 ^ 31)%Z ->
  bin_of self c = MAX 0 (MIN n (binning self - 1)).
Proof.
  intros Hn Hr. unfold bin_of.
  cbn [floor_int sadd sdiv real_scalar lit_one of_long].
  rewrite (Zfloor_eq n) by exact Hn.
  now rewrite to_int_in_range.
Qed.

Lemma two_neighbours_interact :
  interacts two_neighbours 1 (0, 1)%Z = true.
Proof.
  unfold interacts, pair_at, two_neighbours. cbn [fst snd].
  simpl get. cbn [bind]. apply within_cutoff_true.
  unfold vec_magnitude2, vec_dot, vec_sub. simpl. lra.
Qed.

Lemma two_neighbours_cells :
  map (cell_index (Cells_new (fun _ => 0%Z) 2 2) two_neighbours) [0; 1]%Z
  = [7; 5]%Z.
Proof.
  unfold cell_index. cbn [map].
  change (get two_neighbours 0) with (nth_error two_neighbours 0).
  change (get two_neighbours 1) with (nth_error two_neighbours 1).
  cbn [nth_error two_neighbours]. unfold cell_of. cbn [r x y z].
  rewrite (bin_of_floor _ 1 2), (bin_of_floor _ 0 1),
    (bin_of_floor _ (4 / 5) 1), (bin_of_floor _ (- 3 / 5) 0);
    try (simpl; lia); try (simpl; lra).
  reflexivity.
Qed.

Lemma three_on_a_meridian_interact :
  interacts three_on_a_meridian 1 (0, 1)%Z = true /\
  interacts three_on_a_meridian 1 (1, 2)%Z = true.
Proof.
  unfold interacts, pair_at, three_on_a_meridian. cbn [fst snd].
  simpl get. cbn [bind]. split; apply within_cutoff_true;
    unfold vec_magnitude2, vec_dot, vec_sub; simpl; lra.
Qed.

Lemma three_on_a_meridian_cells :
  map (cell_index (Cells_new (fun _ => 0%Z) 2 3) three_on_a_meridian)
    [0; 1; 2]%Z = [7; 7; 3]%Z.
Proof.
  unfold cell_index. cbn [map].
  change (get three_on_a_meridian 0) with (nth_error three_on_a_meridian 0).
  change (get three_on_a_meridian 1) with (nth_error three_on_a_meridian 1).
  change (get three_on_a_meridian 2) with (nth_error three_on_a_meridian 2).
  cbn [nth_error three_on_a_meridian]. unfold cell_of. cbn [r x y z].
  rewrite (bin_of_floor _ 1 2), (bin_of_floor _ 0 1),
    (bin_of_floor _ (4 / 5) 1), (bin_of_floor _ (3 / 5) 1),
    (bin_of_floor _ (- 3 / 5) 0);
    try (simpl; lia); try (simpl; lra).
  reflexivity.
Qed.

Ltac real_of_value f :=
  let sf := eval vm_compute in (Prim2SF f) in
  change (real_of f) with
    (match sf with
     | S754_finite s m e =>
         IZR (if s then Z.neg m else Z.pos m) * powerRZ 2 e
     | _ => 0
     end).

(** The [x] of [two_across_a_cell], taken as real numbers, are in the bins
    3 and 2 of the grid of binning 7, and less than [2/7] apart. *)
Lemma two_across_a_cell_exact_bins :
  bin_of (Cells_new (fun _ => 0%Z) 7 2) (real_of 0x1.249249249248cp-3)
  = 3%Z /\
  bin_of (Cells_new (fun _ => 0%Z) 7 2) (real_of (-0x1.2492492492496p-3))
  = 2%Z /\
  real_of 0x1.249249249248cp-3 - real_of (-0x1.2492492492496p-3) < 2 / 7.
Proof.
  real_of_value 0x1.249249249248cp-3%float.
  real_of_value (-0x1.2492492492496p-3)%float.
  cbv iota. change (powerRZ 2 (-55)) with (/ 2 ^ 55).
  assert (E : 2 ^ 55 = 36028797018963968).
  { rewrite (pow_IZR 2 55). reflexivity. }
  rewrite E. split; [|split].
  - rewrite (bin_of_floor _ _ 3); [reflexivity| |simpl; lia].
    cbn [dr Cells_new sdiv real_scalar]. unfold lit_two.
    cbn [of_long real_scalar]. split; lra.
  - rewrite (bin_of_floor _ _ 2); [reflexivity| |simpl; lia].
    cbn [dr Cells_new sdiv real_scalar]. unfold lit_two.
    cbn [of_long real_scalar]. split; lra.
  - lra.
Qed.

End ExactBins.

(** ** The sweeps in binary64 *)

Section Binary64Sweeps.

Local Open Scope float_scope.

(** C4 does not hold in binary64.  With binning 7 and [rc = dr = 2/7] the
    two particles of [two_across_a_cell] are closer than [rc] along [x]:
    in exact arithmetic their [x] are in the bins 3 and 2, which touch.
    In binary64 the sum [x + 1.0] of the first rounds up and its quotient
    by [dr] is 4: the particles are put in the bins 4 and 2, in cells that
    do not touch.  The brute sweep calls the kernel on the pair and counts
    it in [real_ww_counter]; the cell sweep makes no call. *)
Lemma rounded_bin_drops_pair :
  (dr (Cells_new (fun _ => 0%Z) 7 2) = 2 / 7 /\ (0 <=? 2 / 7) = true) /\
  (bin_of (Cells_new (fun _ => 0%Z) 7 2) (real_of 0x1.249249249248cp-3)
   = 3%Z /\
   bin_of (Cells_new (fun _ => 0%Z) 7 2) (real_of (-0x1.2492492492496p-3))
   = 2%Z /\
   real_of 0x1.249249249248cp-3 - real_of (-0x1.2492492492496p-3) < 2 / 7)%R
  /\
  map (bin_x (Cells_new (fun _ => 0%Z) 7 2) two_across_a_cell) [0; 1]%Z
  = [4; 2]%Z /\
  both_sweeps 7 (2 / 7) 0 two_across_a_cell =
  Some (mkStats 0 0 0, mkStats 1 1 0).
Proof.
  split; [split; vm_compute; reflexivity|].
  split; [exact two_across_a_cell_exact_bins|].
  split; vm_compute; reflexivity.
Qed.

(** C4 does not hold for a negative cutoff.  With binning 3 the cell edge
    2/3 is above [rc = -3], the kernel compares with [rc * rc = 9], the two
    antipodes are at the squared distance 4 and in cells that do not touch:
    the brute sweep counts the pair and its energy, the cell sweep does
    not. *)
Lemma negative_cutoff_drops_pair :
  (-3 <? 2 / 3) = true /\
  both_sweeps 3 (-3) 0 two_antipodes =
  Some (mkStats 0 0 0, mkStats 1 1 0x1.638e38e38e38ep+0).
Proof. split; vm_compute; reflexivity. Qed.

(** In binary64 the two sweeps of C4 add the pair energies in different
    orders: with binning 2 and [rc = 0.75] the six pairs of
    [four_particles] all interact, and the two values of [E_pot] differ in
    the last bit. *)
Lemma sweeps_E_pot_last_bit :
  both_sweeps 2 0.75 0 four_particles =
  Some (mkStats 6 6 0x1.cfd688f2f5b03p+3, mkStats 6 6 0x1.cfd688f2f5b04p+3).
Proof. vm_compute. reflexivity. Qed.

(** C6 does not hold bitwise.  In binary64 the sum over the two halves
    [0, 4) and [4, 8) of the cells is not the result of the one sweep: the
    accelerations of particle 2 differ in the last bit of their second
    component. *)
Lemma partition_sum_last_bit :
  partitioned_and_whole 2 [0; 4; 8]%Z 0.75 0 four_particles 2 =
  Some (mkvec (-0x1.371ac5653d590p+0) (-0x1.e38e155aadc0dp+5)
          0x1.5f2fa38b5ad36p+4,
        mkvec (-0x1.371ac5653d590p+0) (-0x1.e38e155aadc0cp+5)
          0x1.5f2fa38b5ad36p+4) /\
  (-0x1.e38e155aadc0dp+5 =? -0x1.e38e155aadc0cp+5) = false.
Proof. split; vm_compute; reflexivity. Qed.

End Binary64Sweeps.

(** ** Instances of the theorems *)

Section Instances.

Lemma cell_sweep_agrees_with_brute_witness :
  interacts two_neighbours 1%R (0, 1)%Z = true /\
  map (cell_index (Cells_new (fun _ => 0%Z) 2 2) two_neighbours) [0; 1]%Z
  = [7; 5]%Z /\
  exists ps1 self1 mc mb,
    dvs_populate_cells 2 two_neighbours (Cells_new (fun _ => 0%Z) 2 2)
    = Some (ps1, self1) /\
    dvs_calc_forces 2 self1 0 (2 * 2 * 2) 1%R 0%R
      (mkMem ps1 (mkStats 0 0 0%R) []) = Some mc /\
    dvs_calc_brute_forces 2 0 2 1%R 0%R
      (mkMem ps1 (mkStats 0 0 0%R) []) = Some mb /\
    real_ww_counter (stats mc) = real_ww_counter (stats mb) /\
    E_pot (stats mc) = E_pot (stats mb) /\
    particles mc = particles mb.
Proof.
  split; [exact two_neighbours_interact|].
  split; [exact two_neighbours_cells|].
  apply (cell_sweep_agrees_with_brute 2 two_neighbours
           (Cells_new (fun _ => 0%Z) 2 2) 1%R 0%R (mkStats 0 0 0%R) []).
  - simpl. lia.
  - reflexivity.
  - reflexivity.
  - reflexivity.
  - simpl. lra.
  - assert (Hbox : forall c : R,
               (-1 <= c <= 1)%R ->
               bin_defined (Cells_new (fun _ => 0%Z) 2 2) c).
    { intros c Hc. apply bin_defined_in_box; [simpl; lia|reflexivity|exact Hc]. }
    constructor; [|constructor; [|constructor]];
      (split; [|split]; apply Hbox; simpl; lra).
  - reflexivity.
Defined.

Lemma partition_sum_exact_witness :
  (interacts three_on_a_meridian 1%R (0, 1)%Z = true /\
   interacts three_on_a_meridian 1%R (1, 2)%Z = true) /\
  map (cell_index (Cells_new (fun _ => 0%Z) 2 3) three_on_a_meridian)
    [0; 1; 2]%Z = [7; 7; 3]%Z /\
  exists ps1 self1,
    dvs_populate_cells 3 three_on_a_meridian (Cells_new (fun _ => 0%Z) 2 3)
    = Some (ps1, self1) /\
    exists accu full,
      sweep_partitions 3 self1 [0; 4; 8]%Z 1%R 0%R (mkStats 0 0 0%R)
        (zero_accelerations ps1) (zero_accelerations ps1) = Some accu /\
      dvs_calc_forces 3 self1 0 8 1%R 0%R
        (mkMem (zero_accelerations ps1) (mkStats 0 0 0%R) []) = Some full /\
      Forall2 (fun p p' => a p = a p') accu (particles full).
Proof.
  split; [exact three_on_a_meridian_interact|].
  split; [exact three_on_a_meridian_cells|].
  destruct (partition_sum_exact 3 three_on_a_meridian
              (Cells_new (fun _ => 0%Z) 2 3) 1%R 0%R (mkStats 0 0 0%R))
    as (ps1 & self1 & Hpop & Hall).
  - simpl. lia.
  - reflexivity.
  - reflexivity.
  - reflexivity.
  - exists ps1, self1. split; [exact Hpop|].
    apply (Hall [0; 4; 8]%Z).
    apply tiles_step; [lia|]. apply tiles_step; [lia|]. apply tiles_end.
Defined.

Lemma populate_cells_partition_witness :
  exists ps' self' l,
    dvs_populate_cells 4 four_particles (Cells_new (fun _ => 0%Z) 2 4)
    = Some (ps', self') /\
    walk_cells 4 ps' self' = Some l /\
    NoDup l /\ (forall k, In k l <-> (0 <= k < 4)%Z) /\
    Permutation l (zrange 0 4).
Proof.
  apply (populate_cells_partition 4 four_particles
           (Cells_new (fun _ => 0%Z) 2 4)).
  - simpl. lia.
  - reflexivity.
  - reflexivity.
  - reflexivity.
Defined.

Lemma brute_forces_calls_witness :
  exists m' l,
    dvs_calc_brute_forces 4 1 3 0.75%float 0%float
      (mkMem four_particles no_stats []) = Some m' /\
    calls m' = [] ++ l /\
    NoDup l /\
    (forall i j, In (i, j) l <-> (1 <= i < 3)%Z /\ (i < j < 4)%Z) /\
    ww_counter (stats m') = (0 + Z.of_nat (length l))%Z.
Proof.
  apply (brute_forces_calls 4 1 3 0.75%float 0%float
           (mkMem four_particles no_stats [])).
  - lia.
  - simpl. lia.
Defined.

Lemma collect_forces_effect_witness :
  exists accu',
    dvs_collect_forces 2 (two_antipodes, two_antipodes)
    = Some (accu', two_antipodes) /\
    length accu' = 2%nat.
Proof.
  destruct (collect_forces_effect 2 two_antipodes two_antipodes)
    as (accu' & Hrun & Hlen & _).
  - simpl. lia.
  - simpl. lia.
  - exists accu'. split; [exact Hrun|exact Hlen].
Defined.

End Instances.

(** * Further properties of the code *)

(** ** Loops and lists *)

Lemma foldM_skip {S I : Type} (body : I -> S -> option S) (l : list I)
  (s : S) :
  (forall i, In i l -> body i s = Some s) -> foldM body l s = Some s.
Proof.
  induction l as [|i l IH]; intros H; [reflexivity|]. cbn [foldM].
  rewrite H by now left. cbn [bind]. apply IH. intros. apply H. now right.
Qed.

Lemma get_firstn_skipn {A : Type} (l1 l2 : list A) (n : nat) (k : Z) :
  (n <= length l1)%nat -> (n <= length l2)%nat ->
  get (firstn n l1 ++ skipn n l2) k =
  if (k <? Z.of_nat n)%Z then get l1 k else get l2 k.
Proof.
  intros H1 H2. unfold get.
  destruct (Z.ltb_spec k 0) as [Hk|Hk].
  - destruct (k <? Z.of_nat n)%Z; reflexivity.
  - destruct (Z.ltb_spec k (Z.of_nat n)) as [Hn|Hn].
    + rewrite nth_error_app1 by (rewrite length_firstn; lia).
      rewrite nth_error_firstn.
      destruct (Nat.ltb_spec (Z.to_nat k) n); [reflexivity|lia].
    + rewrite nth_error_app2 by (rewrite length_firstn; lia).
      rewrite length_firstn, nth_error_skipn. f_equal. lia.
Qed.

Lemma get_None_length {A : Type} (l l' : list A) (k : Z) :
  length l' = length l -> get l k = None -> get l' k = None.
Proof.
  intros Hlen H. destruct (get l' k) as [e|] eqn:E; [|reflexivity].
  apply get_Some_range in E. rewrite Hlen in E.
  destruct (get_in_range l k E). congruence.
Qed.

Lemma map_fixed_firstn {A : Type} (f : A -> A) (l : list A) (n : nat) :
  Forall (fun e => f e = e) (firstn n l) ->
  map f (firstn n l) ++ skipn n l = l.
Proof.
  intros H. rewrite <- (firstn_skipn n l) at 3. f_equal.
  rewrite <- (map_id (firstn n l)) at 2. apply map_ext_in.
  intros e He. rewrite Forall_forall in H. now apply H.
Qed.

Lemma map_fixed {A : Type} (f : A -> A) (l : list A) (n : nat) :
  Forall (fun e => f e = e) l -> map f (firstn n l) ++ skipn n l = l.
Proof.
  intros H. apply map_fixed_firstn.
  rewrite <- (firstn_skipn n l) in H. now apply Forall_app in H.
Qed.

(** A loop that rewrites the element [i] in round [i] runs off the array
    when it is asked for more rounds than the array has elements. *)
Section PointwiseBounds.

Context {A : Type} (f : A -> A).

Lemma pointwise_loop_None (l : list A) (N : Z) :
  (Z.of_nat (length l) < N)%Z -> for_range 0 N (rewrite_at f) l = None.
Proof.
  intros H. unfold for_range.
  rewrite (zrange_app 0 (Z.of_nat (length l)) N) by lia.
  rewrite foldM_app.
  pose proof (pointwise_loop f l (Z.of_nat (length l)) ltac:(lia)) as Hl.
  unfold for_range in Hl. rewrite Hl. cbn [bind].
  rewrite zrange_cons by lia. cbn [foldM]. unfold rewrite_at.
  rewrite Nat2Z.id, firstn_all, skipn_all, app_nil_r.
  unfold get. destruct (Z.ltb_spec (Z.of_nat (length l)) 0); [reflexivity|].
  rewrite Nat2Z.id.
  assert (E : nth_error (map f l) (length l) = None)
    by (apply nth_error_None; rewrite length_map; lia).
  now rewrite E.
Qed.

Lemma pointwise_loop_defined (l : list A) (N : Z) :
  for_range 0 N (rewrite_at f) l <> None <-> (N <= Z.of_nat (length l))%Z.
Proof.
  split.
  - intros H. destruct (Z.le_gt_cases N (Z.of_nat (length l))); [assumption|].
    exfalso. apply H. apply pointwise_loop_None. lia.
  - intros H. rewrite pointwise_loop by exact H. discriminate.
Qed.

Lemma pointwise_loop_get (l : list A) (N : Z) :
  (N <= Z.of_nat (length l))%Z ->
  exists l',
    for_range 0 N (rewrite_at f) l = Some l' /\
    length l' = length l /\
    forall k e, get l k = Some e ->
      get l' k = Some (if (k <? N)%Z then f e else e).
Proof.
  intros HN. eexists. split; [now apply pointwise_loop|]. split.
  - rewrite length_app, length_map, length_firstn, length_skipn. lia.
  - intros k e Hk. rewrite get_pointwise, Hk.
    pose proof (get_Some_range _ _ _ Hk).
    destruct (Z.ltb_spec k (Z.of_nat (Z.to_nat N))), (Z.ltb_spec k N);
      try reflexivity; lia.
Qed.

End PointwiseBounds.

(** ** The array utilities *)

Section Visualise.

Context {T : Type} {Sc : Scalar T}.
Implicit Types (ps : list (Particle T)) (target : list T).

Lemma visualise_step ps target (i : Z) p :
  get ps i = Some p -> (0 <= i)%Z ->
  (i * 3 + 2 < Z.of_nat (length target))%Z ->
  exists t3,
    (p <- get ps i ;;
     target <- put target (i * 3) (x (r p)) ;;
     p <- get ps i ;;
     target <- put target (i * 3 + 1) (y (r p)) ;;
     p <- get ps i ;;
     put target (i * 3 + 2) (z (r p))) = Some t3 /\
    length t3 = length target /\
    get t3 (i * 3) = Some (x (r p)) /\
    get t3 (i * 3 + 1) = Some (y (r p)) /\
    get t3 (i * 3 + 2) = Some (z (r p)) /\
    forall k, (k < i * 3 \/ i * 3 + 2 < k)%Z -> get t3 k = get target k.
Proof.
  intros Hp Hi Hlen. rewrite Hp. cbn [bind].
  pose proof (put_Some target (i * 3) (x (r p)) ltac:(lia)) as H1.
  rewrite H1. cbn [bind].
  set (t1 := upd target (Z.to_nat (i * 3)) (x (r p))) in *.
  pose proof (put_length _ _ _ _ H1) as L1.
  pose proof (put_Some t1 (i * 3 + 1) (y (r p)) ltac:(lia)) as H2.
  rewrite H2. cbn [bind].
  set (t2 := upd t1 (Z.to_nat (i * 3 + 1)) (y (r p))) in *.
  pose proof (put_length _ _ _ _ H2) as L2.
  pose proof (put_Some t2 (i * 3 + 2) (z (r p)) ltac:(lia)) as H3.
  set (t3 := upd t2 (Z.to_nat (i * 3 + 2)) (z (r p))) in *.
  pose proof (put_length _ _ _ _ H3) as L3.
  exists t3. split; [exact H3|]. split; [lia|].
  split; [|split; [|split]].
  - rewrite (get_put_other _ _ _ (i * 3)%Z _ H3) by lia.
    rewrite (get_put_other _ _ _ (i * 3)%Z _ H2) by lia.
    apply (get_put_same _ _ _ _ H1).
  - rewrite (get_put_other _ _ _ (i * 3 + 1)%Z _ H3) by lia.
    apply (get_put_same _ _ _ _ H2).
  - apply (get_put_same _ _ _ _ H3).
  - intros k Hk.
    rewrite (get_put_other _ _ _ k _ H3) by lia.
    rewrite (get_put_other _ _ _ k _ H2) by lia.
    apply (get_put_other _ _ _ k _ H1). lia.
Qed.

Lemma visualise_loop (N : Z) ps target :
  (N <= Z.of_nat (length ps))%Z -> (3 * N <= Z.of_nat (length target))%Z ->
  exists target',
    dvs_visualise_positions N ps target = Some target' /\
    length target' = length target /\
    (forall i p, (0 <= i < N)%Z -> get ps i = Some p ->
       get target' (i * 3) = Some (x (r p)) /\
       get target' (i * 3 + 1) = Some (y (r p)) /\
       get target' (i * 3 + 2) = Some (z (r p))) /\
    (forall k, (k < 0 \/ 3 * N <= k)%Z -> get target' k = get target k).
Proof.
  intros Hps Htg. unfold dvs_visualise_positions.
  destruct (Z.le_gt_cases 0 N) as [HN|HN].
  2:{ unfold for_range. rewrite zrange_nil by lia. exists target.
      repeat split; try reflexivity; intros; lia. }
  destruct (for_range_inv
    (fun i t =>
       length t = length target /\
       (forall j p, (0 <= j < i)%Z -> get ps j = Some p ->
          get t (j * 3) = Some (x (r p)) /\
          get t (j * 3 + 1) = Some (y (r p)) /\
          get t (j * 3 + 2) = Some (z (r p))) /\
       (forall k, (k < 0 \/ 3 * i <= k)%Z -> get t k = get target k))
    0 N
    (fun i target =>
       p <- get ps i ;;
       target <- put target (i * 3) (x (r p)) ;;
       p <- get ps i ;;
       target <- put target (i * 3 + 1) (y (r p)) ;;
       p <- get ps i ;;
       put target (i * 3 + 2) (z (r p))) target HN)
    as (t' & Hrun & Hlen & Hin & Hout).
  - split; [reflexivity|]. split; [intros; lia|reflexivity].
  - intros i t Hi (Hl & Hd & Ho).
    destruct (get_in_range ps i ltac:(lia)) as [p Hp].
    destruct (visualise_step ps t i p Hp ltac:(lia) ltac:(lia))
      as (t3 & Hs & L3 & Gx & Gy & Gz & Gk).
    exists t3. split; [exact Hs|]. split; [congruence|]. split.
    + intros j q Hj Hq. destruct (Z.eq_dec j i) as [->|Hne].
      * assert (q = p) by congruence. subst q. auto.
      * rewrite !Gk by lia. apply Hd; [lia|exact Hq].
    + intros k Hk. rewrite Gk by lia. apply Ho. lia.
  - exists t'. auto.
Qed.

(** X1. For an array of at least [N] particles and a target of at least
    [3 N] doubles, [dvs_visualise_positions] returns; it writes the position
    of the particle [i < N] to [target[3i]], [target[3i+1]] and
    [target[3i+2]], and leaves the length of the target and its entries from
    [3 N] on as they were. *)
Theorem visualise_positions_effect (N : Z) ps target :
  (N <= Z.of_nat (length ps))%Z -> (3 * N <= Z.of_nat (length target))%Z ->
  exists target',
    dvs_visualise_positions N ps target = Some target' /\
    length target' = length target /\
    (forall i p, (0 <= i < N)%Z -> get ps i = Some p ->
       get target' (i * 3) = Some (x (r p)) /\
       get target' (i * 3 + 1) = Some (y (r p)) /\
       get target' (i * 3 + 2) = Some (z (r p))) /\
    (forall k, (k < 0 \/ 3 * N <= k)%Z -> get target' k = get target k).
Proof. apply visualise_loop. Qed.

(** X2. [dvs_visualise_positions] stays inside its two arrays exactly when
    [N <= 0], or the array has at least [N] particles and the target at
    least [3 N] doubles: with a shorter array or target it reads or writes
    past the end. *)
Theorem visualise_positions_defined (N : Z) ps target :
  dvs_visualise_positions N ps target <> None <->
  (N <= 0 \/
   (N <= Z.of_nat (length ps) /\ 3 * N <= Z.of_nat (length target)))%Z.
Proof.
  split.
  - intros Hrun.
    destruct (Z.le_gt_cases N 0) as [HN|HN]; [now left|right].
    destruct (Z_le_gt_dec N (Z.of_nat (length ps))) as [Hps|Hps];
      [destruct (Z_le_gt_dec (3 * N) (Z.of_nat (length target))) as [Ht|Ht];
       [now split|]|]; exfalso; apply Hrun; clear Hrun.
    all: set (i0 := Z.min (Z.of_nat (length ps))
                      (Z.of_nat (length target) / 3)).
    all: assert (Hq : (3 * (Z.of_nat (length target) / 3)
                       <= Z.of_nat (length target)
                       < 3 * (Z.of_nat (length target) / 3) + 3)%Z)
      by (pose proof (Z.div_mod (Z.of_nat (length target)) 3 ltac:(lia));
          pose proof (Z.mod_pos_bound (Z.of_nat (length target)) 3
                        ltac:(lia)); lia).
    all: assert (Hi0 : (0 <= i0 < N)%Z) by (unfold i0; lia).
    all: unfold dvs_visualise_positions, for_range.
    all: rewrite (zrange_app 0 i0 N) by lia.
    all: rewrite foldM_app.
    all: destruct (visualise_loop i0 ps target
                     ltac:(unfold i0; lia) ltac:(unfold i0; lia))
      as (t' & Hrun & Hlen & _).
    all: unfold dvs_visualise_positions, for_range in Hrun.
    all: rewrite Hrun; cbn [bind].
    all: rewrite (zrange_cons i0 N) by lia; cbn [foldM].
    all: destruct (get ps i0) as [p|] eqn:Hp; cbn [bind]; [|reflexivity].
    all: apply get_Some_range in Hp.
    all: destruct (put t' (i0 * 3) (x (r p))) as [t1|] eqn:E1; cbn [bind];
      [|reflexivity].
    all: destruct (put t1 (i0 * 3 + 1) (y (r p))) as [t2|] eqn:E2;
      cbn [bind]; [|reflexivity].
    all: apply put_length in E1, E2.
    all: assert (E3 : put t2 (i0 * 3 + 2) (z (r p)) = None)
      by (unfold put;
          destruct (Z.ltb_spec (i0 * 3 + 2) (Z.of_nat (length t2)));
          [unfold i0 in *; lia|now rewrite andb_false_r]).
    all: now rewrite E3.
  - intros [HN|[Hps Ht]].
    + unfold dvs_visualise_positions, for_range.
      rewrite zrange_nil by lia. discriminate.
    + destruct (visualise_loop N ps target Hps Ht) as (t' & Hrun & _).
      congruence.
Qed.

End Visualise.

Lemma visualise_positions_effect_witness :
  exists target',
    dvs_visualise_positions 2 two_antipodes
      [0; 0; 0; 0; 0; 0; 0]%float = Some target' /\
    length target' = 7%nat.
Proof.
  destruct (visualise_positions_effect 2 two_antipodes
              [0; 0; 0; 0; 0; 0; 0]%float) as (t & Hrun & Hlen & _).
  - simpl. lia.
  - simpl. lia.
  - exists t. split; [exact Hrun|exact Hlen].
Defined.

Section Copy.

Context {T : Type} {Sc : Scalar T}.
Implicit Types (src dst : list (Particle T)).

Lemma copy_particles_inv (N : Z) src dst dst' :
  dvs_copy_particles N src dst = Some dst' ->
  (0 <= N <= Z.of_nat (length src))%Z /\ (N <= Z.of_nat (length dst))%Z /\
  dst' = firstn (Z.to_nat N) src ++ skipn (Z.to_nat N) dst.
Proof.
  unfold dvs_copy_particles.
  destruct (Z.leb_spec 0 N), (Z.leb_spec N (Z.of_nat (length src))),
    (Z.leb_spec N (Z.of_nat (length dst))); cbn [andb]; try discriminate.
  intros [= <-]. repeat split; assumption.
Qed.

Lemma copy_particles_runs (N : Z) src dst :
  (0 <= N <= Z.of_nat (length src))%Z -> (N <= Z.of_nat (length dst))%Z ->
  dvs_copy_particles N src dst =
  Some (firstn (Z.to_nat N) src ++ skipn (Z.to_nat N) dst).
Proof.
  intros H1 H2. unfold dvs_copy_particles.
  destruct (Z.leb_spec 0 N), (Z.leb_spec N (Z.of_nat (length src))),
    (Z.leb_spec N (Z.of_nat (length dst))); cbn [andb]; try lia.
  reflexivity.
Qed.

(** X3. For [0 <= N] and two arrays of at least [N] particles,
    [dvs_copy_particles] returns; the particles of [dst] before [N] become
    those of [src], the particles of [dst] from [N] on and its length are as
    they were, and a copy of a whole array onto one of the same length is
    the array itself. *)
Theorem copy_particles_effect (N : Z) src dst :
  (0 <= N <= Z.of_nat (length src))%Z -> (N <= Z.of_nat (length dst))%Z ->
  exists dst',
    dvs_copy_particles N src dst = Some dst' /\
    length dst' = length dst /\
    (forall k, (k < N)%Z -> get dst' k = get src k) /\
    (forall k, (N <= k)%Z -> get dst' k = get dst k) /\
    (N = Z.of_nat (length src) -> N = Z.of_nat (length dst) -> dst' = src).
Proof.
  intros HN Hd. eexists. split; [now apply copy_particles_runs|].
  split; [|split; [|split]].
  - rewrite length_app, length_firstn, length_skipn. lia.
  - intros k Hk. rewrite get_firstn_skipn by lia.
    destruct (Z.ltb_spec k (Z.of_nat (Z.to_nat N))); [reflexivity|lia].
  - intros k Hk. rewrite get_firstn_skipn by lia.
    destruct (Z.ltb_spec k (Z.of_nat (Z.to_nat N))); [lia|reflexivity].
  - intros Hs Hdd. rewrite firstn_all2, skipn_all2 by lia.
    apply app_nil_r.
Qed.

(** X4. After a copy of [N] particles from [src] to [dst], the copy back
    from the result to [src] gives [src], and a second copy from [src]
    changes nothing. *)
Theorem copy_particles_round_trip (N : Z) src dst :
  (0 <= N <= Z.of_nat (length src))%Z -> (N <= Z.of_nat (length dst))%Z ->
  exists dst',
    dvs_copy_particles N src dst = Some dst' /\
    dvs_copy_particles N dst' src = Some src /\
    dvs_copy_particles N src dst' = Some dst'.
Proof.
  intros HN Hd. eexists. split; [now apply copy_particles_runs|].
  assert (Hl : length (firstn (Z.to_nat N) src ++ skipn (Z.to_nat N) dst)
               = length dst)
    by (rewrite length_app, length_firstn, length_skipn; lia).
  assert (Hf : firstn (Z.to_nat N)
                 (firstn (Z.to_nat N) src ++ skipn (Z.to_nat N) dst)
               = firstn (Z.to_nat N) src).
  { rewrite firstn_app, length_firstn.
    replace (Z.to_nat N - Nat.min (Z.to_nat N) (length src))%nat with 0%nat
      by lia.
    rewrite firstn_firstn, Nat.min_id. cbn [firstn]. apply app_nil_r. }
  assert (Hs : skipn (Z.to_nat N)
                 (firstn (Z.to_nat N) src ++ skipn (Z.to_nat N) dst)
               = skipn (Z.to_nat N) dst).
  { rewrite skipn_app, length_firstn.
    replace (Z.to_nat N - Nat.min (Z.to_nat N) (length src))%nat with 0%nat
      by lia.
    rewrite skipn_all2 by (rewrite length_firstn; lia). reflexivity. }
  split.
  - rewrite copy_particles_runs by lia. rewrite Hf, firstn_skipn.
    reflexivity.
  - rewrite copy_particles_runs by lia. now rewrite Hs.
Qed.

(** X5. The positions written by [dvs_visualise_positions] for the first
    [N] particles of a copy made by [dvs_copy_particles] are those written
    for the source, on any target. *)
Theorem visualise_copy (N : Z) src dst (target : list T) :
  (0 <= N <= Z.of_nat (length src))%Z -> (N <= Z.of_nat (length dst))%Z ->
  exists dst',
    dvs_copy_particles N src dst = Some dst' /\
    dvs_visualise_positions N dst' target =
    dvs_visualise_positions N src target.
Proof.
  intros HN Hd. eexists. split; [now apply copy_particles_runs|].
  unfold dvs_visualise_positions, for_range. apply foldM_ext.
  intros i t Hi. apply in_zrange in Hi.
  rewrite get_firstn_skipn by lia.
  destruct (Z.ltb_spec i (Z.of_nat (Z.to_nat N))); [reflexivity|lia].
Qed.

End Copy.

Lemma copy_particles_effect_witness :
  exists dst',
    dvs_copy_particles 2 two_antipodes four_particles = Some dst' /\
    length dst' = 4%nat.
Proof.
  destruct (copy_particles_effect 2 two_antipodes four_particles)
    as (dst' & Hrun & Hlen & _).
  - simpl. lia.
  - simpl. lia.
  - exists dst'. split; [exact Hrun|exact Hlen].
Defined.

Lemma copy_particles_round_trip_witness :
  exists dst',
    dvs_copy_particles 2 two_antipodes four_particles = Some dst' /\
    dvs_copy_particles 2 dst' two_antipodes = Some two_antipodes.
Proof.
  destruct (copy_particles_round_trip 2 two_antipodes four_particles)
    as (dst' & Hrun & Hback & _).
  - simpl. lia.
  - simpl. lia.
  - exists dst'. split; [exact Hrun|exact Hback].
Defined.

Lemma visualise_copy_witness :
  exists dst',
    dvs_copy_particles 2 two_antipodes four_particles = Some dst' /\
    dvs_visualise_positions 2 dst' [0; 0; 0; 0; 0; 0]%float =
    dvs_visualise_positions 2 two_antipodes [0; 0; 0; 0; 0; 0]%float.
Proof.
  apply (visualise_copy 2 two_antipodes four_particles
           [0; 0; 0; 0; 0; 0]%float).
  - simpl. lia.
  - simpl. lia.
Defined.

Section CollectOrder.

Local Open Scope R_scope.
Implicit Types (accu part : list (Particle R)).

Lemma collected_commute part1 part2 (N k : Z) (pa : Particle R) :
  collected part2 N k (collected part1 N k pa) =
  collected part1 N k (collected part2 N k pa).
Proof.
  unfold collected. destruct ((0 <=? k) && (k <? N))%Z; [|reflexivity].
  destruct (get part1 k) as [p1|], (get part2 k) as [p2|]; try reflexivity.
  unfold set_a. cbn [r v a next]. f_equal. apply vec_ext;
    unfold vec_add; cbn [x y z sadd real_scalar]; ring.
Qed.

(** X6. In exact arithmetic the order in which two partial results are
    collected does not matter: [dvs_collect_forces] of [part1] and then of
    [part2] into [accu] gives the accumulator that the two calls give in the
    other order. *)
Theorem collect_forces_commute (N : Z) accu part1 part2 :
  (N <= Z.of_nat (length accu))%Z -> (N <= Z.of_nat (length part1))%Z ->
  (N <= Z.of_nat (length part2))%Z ->
  exists accu1 accu2 out,
    dvs_collect_forces N (accu, part1) = Some (accu1, part1) /\
    dvs_collect_forces N (accu1, part2) = Some (out, part2) /\
    dvs_collect_forces N (accu, part2) = Some (accu2, part2) /\
    dvs_collect_forces N (accu2, part1) = Some (out, part1).
Proof.
  intros Ha H1 H2.
  destruct (collect_forces_loop N accu part1 Ha H1) as (a1 & R1 & L1 & G1).
  destruct (collect_forces_loop N accu part2 Ha H2) as (a2 & R2 & L2 & G2).
  destruct (collect_forces_loop N a1 part2 ltac:(lia) H2)
    as (o1 & R12 & L12 & G12).
  destruct (collect_forces_loop N a2 part1 ltac:(lia) H1)
    as (o2 & R21 & L21 & G21).
  assert (E : o2 = o1).
  { apply get_ext; [congruence|]. intros k.
    destruct (get accu k) as [pa|] eqn:Hk.
    - rewrite (G21 _ _ (G2 _ _ Hk)), (G12 _ _ (G1 _ _ Hk)). f_equal.
      symmetry. apply collected_commute.
    - rewrite (get_None_length accu o1 k) by (congruence || exact Hk).
      apply (get_None_length accu o2 k); [congruence|exact Hk]. }
  subst o2. exists a1, a2, o1. auto.
Qed.

End CollectOrder.

Lemma collect_forces_commute_witness :
  exists accu1 accu2 out,
    dvs_collect_forces 1
      ([mkParticle (mkvec 1 0 0) (mkvec 0 0 0) (mkvec 1 2 3) 0],
       [mkParticle (mkvec 1 0 0) (mkvec 0 0 0) (mkvec 0 1 0) 0])%R
    = Some (accu1, [mkParticle (mkvec 1 0 0) (mkvec 0 0 0) (mkvec 0 1 0) 0])%R
    /\
    dvs_collect_forces 1
      (accu1, [mkParticle (mkvec 1 0 0) (mkvec 0 0 0) (mkvec 0 0 1) 0])%R
    = Some (out, [mkParticle (mkvec 1 0 0) (mkvec 0 0 0) (mkvec 0 0 1) 0])%R
    /\
    dvs_collect_forces 1
      ([mkParticle (mkvec 1 0 0) (mkvec 0 0 0) (mkvec 1 2 3) 0],
       [mkParticle (mkvec 1 0 0) (mkvec 0 0 0) (mkvec 0 0 1) 0])%R
    = Some (accu2, [mkParticle (mkvec 1 0 0) (mkvec 0 0 0) (mkvec 0 0 1) 0])%R
    /\
    dvs_collect_forces 1
      (accu2, [mkParticle (mkvec 1 0 0) (mkvec 0 0 0) (mkvec 0 1 0) 0])%R
    = Some (out, [mkParticle (mkvec 1 0 0) (mkvec 0 0 0) (mkvec 0 1 0) 0])%R.
Proof.
  apply (collect_forces_commute 1); simpl; lia.
Defined.

(** ** The integrator *)

Section IntegratorFrame.

Context {T : Type} {Sc : Scalar T}.
Implicit Types (p : Particle T) (ps : list (Particle T)).

(** X7. [dvs_advance] and [dvs_correct] stay inside the array exactly when
    it holds at least [N] particles (for [N <= 0] they do nothing); with a
    shorter array they read past its end. *)
Theorem integrator_defined (N : Z) ps (dt : T) :
  (dvs_advance N ps dt <> None <-> (N <= Z.of_nat (length ps))%Z) /\
  (dvs_correct N ps dt <> None <-> (N <= Z.of_nat (length ps))%Z).
Proof. split; apply pointwise_loop_defined. Qed.

(** X8. [dvs_advance] on an array of at least [N] particles returns an array
    of the same length; it leaves every [next] as it was, sets the
    acceleration of the particles before [N] to zero, and does not touch
    the particles from [N] on. *)
Theorem advance_frame (N : Z) ps (dt : T) :
  (N <= Z.of_nat (length ps))%Z ->
  exists ps',
    dvs_advance N ps dt = Some ps' /\
    length ps' = length ps /\
    forall k p, get ps k = Some p ->
      exists p',
        get ps' k = Some p' /\ next p' = next p /\
        ((k < N)%Z -> a p' = VEC_ZERO) /\ ((N <= k)%Z -> p' = p).
Proof.
  intros HN.
  destruct (pointwise_loop_get (advance_particle dt) ps N HN)
    as (ps' & Hrun & Hlen & Hget).
  exists ps'. split; [exact Hrun|]. split; [exact Hlen|].
  intros k p Hk. rewrite (Hget k p Hk).
  eexists. split; [reflexivity|].
  destruct (Z.ltb_spec k N); (split; [reflexivity|]);
    (split; [intros; try reflexivity; lia|intros; try reflexivity; lia]).
Qed.

(** X9. [dvs_correct] on an array of at least [N] particles returns an array
    of the same length; it changes nothing but velocities: every position,
    acceleration and [next] is as it was, and so are the particles from [N]
    on. *)
Theorem correct_frame (N : Z) ps (dt : T) :
  (N <= Z.of_nat (length ps))%Z ->
  exists ps',
    dvs_correct N ps dt = Some ps' /\
    length ps' = length ps /\
    forall k p, get ps k = Some p ->
      exists p',
        get ps' k = Some p' /\
        r p' = r p /\ a p' = a p /\ next p' = next p /\
        ((N <= k)%Z -> p' = p).
Proof.
  intros HN.
  destruct (pointwise_loop_get (correct_particle dt) ps N HN)
    as (ps' & Hrun & Hlen & Hget).
  exists ps'. split; [exact Hrun|]. split; [exact Hlen|].
  intros k p Hk. rewrite (Hget k p Hk).
  eexists. split; [reflexivity|].
  destruct (Z.ltb_spec k N); repeat (split; [reflexivity|]);
    intros; try reflexivity; lia.
Qed.

End IntegratorFrame.

Lemma advance_frame_witness :
  exists ps',
    dvs_advance 1 two_antipodes 1%float = Some ps' /\
    length ps' = 2%nat.
Proof.
  destruct (advance_frame 1 two_antipodes 1%float) as (ps' & Hrun & Hlen & _).
  - simpl. lia.
  - exists ps'. split; [exact Hrun|exact Hlen].
Defined.

Lemma correct_frame_witness :
  exists ps',
    dvs_correct 1 two_antipodes 1%float = Some ps' /\
    length ps' = 2%nat.
Proof.
  destruct (correct_frame 1 two_antipodes 1%float) as (ps' & Hrun & Hlen & _).
  - simpl. lia.
  - exists ps'. split; [exact Hrun|exact Hlen].
Defined.

Section RealSteps.

Local Open Scope R_scope.
Implicit Types (p : Particle R) (ps : list (Particle R)).

Lemma advance_particle_velocity (dt : R) p :
  dt <> 0 ->
  vec_sclr dt (v (advance_particle dt p)) =
  vec_sub (r (advance_particle dt p)) (r p).
Proof.
  intros Hdt. destruct p as [[rx ry rz] [vx vy vz] [ax ay az] n].
  unfold advance_particle, kicked_v, vec_sclr, vec_sub, vec_inc, vec_add.
  cbn [r v a x y z set_r set_v set_a].
  set (lam := rattle_lambda _ _).
  cbn [sadd ssub smul sdiv lit_half real_scalar].
  f_equal; field; exact Hdt.
Qed.

Lemma advance_particle_hemisphere (dt : R) p :
  vec_magnitude2 (r p) = 1 ->
  vec_dot (r p) (r (advance_particle dt p)) =
  sqrt (rattle_discriminant (r p) (predicted_r dt p)).
Proof.
  intros Hr. rewrite advance_particle_position.
  unfold rattle_lambda. cbn [ssqrt real_scalar].
  set (D := sqrt _). clearbody D. set (r1 := predicted_r dt p) in *.
  unfold vec_magnitude2 in Hr.
  destruct (r p) as [rx ry rz], r1 as [px py pz].
  unfold vec_dot, vec_add, vec_sclr in *.
  cbn [x y z sadd ssub smul sneg real_scalar] in *.
  transitivity ((rx * px + ry * py + rz * pz)
                + (- (rx * px + ry * py + rz * pz) + D)
                  * (rx * rx + ry * ry + rz * rz)); [ring|].
  rewrite Hr. ring.
Qed.

Lemma get_In {A : Type} (l : list A) (k : Z) (e : A) :
  get l k = Some e -> In e l.
Proof.
  unfold get. destruct (k <? 0)%Z; [discriminate|]. apply nth_error_In.
Qed.

(** X10. In exact arithmetic, for [dt <> 0], the velocity that [dvs_advance]
    leaves in a particle is its displacement over the time step:
    [dt * v' = r' - r]. *)
Theorem advance_velocity_is_displacement (N : Z) ps (dt : R) :
  dt <> 0 -> (N <= Z.of_nat (length ps))%Z ->
  exists ps',
    dvs_advance N ps dt = Some ps' /\
    forall i p p', (0 <= i < N)%Z -> get ps i = Some p ->
      get ps' i = Some p' ->
      vec_sclr dt (v p') = vec_sub (r p') (r p).
Proof.
  intros Hdt HN.
  destruct (pointwise_loop_get (advance_particle dt) ps N HN)
    as (ps' & Hrun & _ & Hget).
  exists ps'. split; [exact Hrun|]. intros i p p' Hi Hp Hp'.
  rewrite (Hget i p Hp) in Hp'.
  destruct (Z.ltb_spec i N); [|lia]. injection Hp' as <-.
  now apply advance_particle_velocity.
Qed.

(** X11. In exact arithmetic, for particles on the unit sphere and a step
    for which the discriminant [1 - |r1|^2 + (r . r1)^2] of each predicted
    position [r1] is not negative, the position [r'] that [dvs_advance]
    gives a particle satisfies [r . r' = sqrt (1 - |r1|^2 + (r . r1)^2)]:
    of the two roots the code takes the one that leaves the particle in
    the hemisphere around its old position, [r . r' >= 0], and
    [(r . r')^2] is the discriminant. *)
Theorem advance_same_hemisphere (N : Z) ps (dt : R) :
  (N <= Z.of_nat (length ps))%Z ->
  Forall (fun p => vec_norm (r p) = 1) ps ->
  Forall (fun p => 0 <= rattle_discriminant (r p) (predicted_r dt p)) ps ->
  exists ps',
    dvs_advance N ps dt = Some ps' /\
    forall i p p', (0 <= i < N)%Z -> get ps i = Some p ->
      get ps' i = Some p' ->
      vec_dot (r p) (r p') =
        sqrt (rattle_discriminant (r p) (predicted_r dt p)) /\
      0 <= vec_dot (r p) (r p') /\
      vec_dot (r p) (r p') * vec_dot (r p) (r p') =
        rattle_discriminant (r p) (predicted_r dt p).
Proof.
  intros HN Hs Hd.
  destruct (pointwise_loop_get (advance_particle dt) ps N HN)
    as (ps' & Hrun & _ & Hget).
  exists ps'. split; [exact Hrun|]. intros i p p' Hi Hp Hp'.
  rewrite (Hget i p Hp) in Hp'.
  destruct (Z.ltb_spec i N); [|lia]. injection Hp' as <-.
  rewrite Forall_forall in Hs, Hd.
  assert (Hr : vec_magnitude2 (r p) = 1).
  { apply vec_norm_one. apply Hs. apply (get_In _ _ _ Hp). }
  rewrite (advance_particle_hemisphere dt p Hr).
  split; [reflexivity|]. split; [apply sqrt_pos|].
  apply sqrt_sqrt. apply Hd. apply (get_In _ _ _ Hp).
Qed.

Lemma advance_particle_rest (dt : R) p :
  vec_norm (r p) = 1 -> v p = VEC_ZERO -> a p = VEC_ZERO ->
  advance_particle dt p = p.
Proof.
  intros Hr Hv Ha. apply vec_norm_one in Hr.
  destruct p as [[rx ry rz] pv pa n]. cbn [r v a] in *. subst pv pa.
  unfold vec_magnitude2, vec_dot in Hr. cbn [x y z smul sadd real_scalar] in Hr.
  assert (E : forall c, c * (rx * rx + ry * ry + rz * rz) = c)
    by (intros c; rewrite Hr; ring).
  unfold advance_particle, rattle_lambda, rattle_discriminant, kicked_v,
    vec_inc, vec_add, vec_sclr, vec_dot, VEC_ZERO, lit_zero, lit_one.
  cbn [r v a next x y z set_r set_v set_a sadd ssub smul sdiv sneg ssqrt
       of_long lit_half real_scalar].
  match goal with
  | |- context [sqrt ?e] =>
      replace e with
        (1 - 1 * (rx * rx + ry * ry + rz * rz)
         + (1 * (rx * rx + ry * ry + rz * rz))
           * (rx * rx + ry * ry + rz * rz)) by ring
  end.
  rewrite !E. replace (1 - 1 + 1) with 1 by ring. rewrite sqrt_1.
  unfold set_v, set_r, set_a. cbn [r v a next].
  f_equal; f_equal; unfold Rdiv.
  - transitivity (rx + (rx - rx * (rx * rx + ry * ry + rz * rz))); [ring|].
    rewrite E. ring.
  - transitivity (ry + (ry - ry * (rx * rx + ry * ry + rz * rz))); [ring|].
    rewrite E. ring.
  - transitivity (rz + (rz - rz * (rx * rx + ry * ry + rz * rz))); [ring|].
    rewrite E. ring.
  - transitivity ((/ dt * rx)
                  * (1 - 1 * (rx * rx + ry * ry + rz * rz))); [ring|].
    rewrite E. ring.
  - transitivity ((/ dt * ry)
                  * (1 - 1 * (rx * rx + ry * ry + rz * rz))); [ring|].
    rewrite E. ring.
  - transitivity ((/ dt * rz)
                  * (1 - 1 * (rx * rx + ry * ry + rz * rz))); [ring|].
    rewrite E. ring.
Qed.

Lemma correct_particle_tangent (dt : R) p :
  a p = VEC_ZERO -> vec_dot (r p) (v p) = 0 -> correct_particle dt p = p.
Proof.
  intros Ha Ht. destruct p as [[rx ry rz] [vx vy vz] pa n].
  cbn [r v a] in *. subst pa.
  unfold vec_dot in Ht. cbn [x y z smul sadd real_scalar] in Ht.
  unfold correct_particle, set_v, vec_inc, vec_add, vec_sclr, vec_dot,
    VEC_ZERO, lit_zero.
  cbn [r v a next x y z sadd smul sneg of_long lit_half real_scalar].
  replace ((vx + / 2 * dt * 0) * rx + (vy + / 2 * dt * 0) * ry
           + (vz + / 2 * dt * 0) * rz)
    with (rx * vx + ry * vy + rz * vz) by ring.
  rewrite Ht. f_equal; f_equal; ring.
Qed.

(** X12. In exact arithmetic, for [dt <> 0], particles that rest on the unit
    sphere without acceleration stay as they are: such an array is what
    [dvs_advance] returns for it, and what [dvs_correct] returns for it. *)
Theorem rest_is_fixed_point (N : Z) ps (dt : R) :
  dt <> 0 ->
  (N <= Z.of_nat (length ps))%Z ->
  Forall (fun p => vec_norm (r p) = 1 /\ v p = VEC_ZERO /\ a p = VEC_ZERO)
    ps ->
  dvs_advance N ps dt = Some ps /\ dvs_correct N ps dt = Some ps.
Proof.
  intros _ HN Hps. unfold dvs_advance, dvs_correct.
  rewrite !pointwise_loop by exact HN. split; f_equal; apply map_fixed.
  - revert Hps. apply Forall_impl. intros p (H1 & H2 & H3).
    now apply advance_particle_rest.
  - revert Hps. apply Forall_impl. intros p (H1 & H2 & H3).
    apply correct_particle_tangent; [exact H3|]. rewrite H2.
    unfold vec_dot, VEC_ZERO, lit_zero.
    cbn [x y z sadd smul of_long real_scalar]. ring.
Qed.

(** X13. In exact arithmetic, for particles on the unit sphere without
    acceleration, [dvs_correct] is a projection: a second call returns the
    result of the first unchanged. *)
Theorem correct_is_projection (N : Z) ps (dt : R) :
  (N <= Z.of_nat (length ps))%Z ->
  Forall (fun p => vec_norm (r p) = 1 /\ a p = VEC_ZERO) ps ->
  exists ps',
    dvs_correct N ps dt = Some ps' /\ dvs_correct N ps' dt = Some ps'.
Proof.
  intros HN Hps. unfold dvs_correct.
  rewrite pointwise_loop by exact HN. eexists. split; [reflexivity|].
  set (n := Z.to_nat N).
  assert (Hf : firstn n (map (correct_particle dt) (firstn n ps)
                         ++ skipn n ps)
               = map (correct_particle dt) (firstn n ps)).
  { rewrite firstn_app, length_map, length_firstn.
    replace (n - Nat.min n (length ps))%nat with 0%nat by lia.
    cbn [firstn]. rewrite app_nil_r. apply firstn_all2.
    rewrite length_map, length_firstn. lia. }
  rewrite pointwise_loop
    by (rewrite length_app, length_map, length_firstn, length_skipn; lia).
  f_equal. apply map_fixed_firstn. fold n. rewrite Hf.
  apply Forall_map.
  rewrite <- (firstn_skipn n ps) in Hps. apply Forall_app in Hps as [H1 _].
  revert H1. apply Forall_impl. intros p [Hr Ha].
  apply correct_particle_tangent; [exact Ha|].
  apply vec_norm_one in Hr. apply (rattle_v_tangent (r p) _ Hr).
Qed.

End RealSteps.

Lemma advance_velocity_is_displacement_witness :
  exists ps',
    dvs_advance 1
      [mkParticle (mkvec 1 0 0) (mkvec 0 1 0) (mkvec 0 0 1) 0]%R (/ 2)%R
    = Some ps' /\
    forall p', get ps' 0 = Some p' ->
      vec_sclr (/ 2)%R (v p') = vec_sub (r p') (mkvec 1 0 0)%R.
Proof.
  destruct (advance_velocity_is_displacement 1
              [mkParticle (mkvec 1 0 0) (mkvec 0 1 0) (mkvec 0 0 1) 0]%R
              (/ 2)%R) as (ps' & Hrun & H).
  - lra.
  - simpl. lia.
  - exists ps'. split; [exact Hrun|]. intros p' Hp'.
    exact (H 0%Z
             (mkParticle (mkvec 1 0 0) (mkvec 0 1 0) (mkvec 0 0 1) 0)%R p'
             ltac:(lia) eq_refl Hp').
Defined.

Lemma advance_same_hemisphere_witness :
  exists ps',
    dvs_advance 1
      [mkParticle (mkvec 1 0 0) (mkvec 0 1 0) (mkvec 0 0 1) 0]%R (/ 2)%R
    = Some ps' /\
    forall p', get ps' 0 = Some p' ->
      (0 <= vec_dot (mkvec 1 0 0) (r p'))%R.
Proof.
  destruct (advance_same_hemisphere 1
              [mkParticle (mkvec 1 0 0) (mkvec 0 1 0) (mkvec 0 0 1) 0]%R
              (/ 2)%R) as (ps' & Hrun & H).
  - simpl. lia.
  - constructor; [|constructor]. apply vec_norm_one.
    unfold vec_magnitude2, vec_dot. simpl. ring.
  - constructor; [|constructor].
    unfold rattle_discriminant, vec_dot, predicted_r, kicked_v, vec_inc,
      vec_add, vec_sclr. simpl. lra.
  - exists ps'. split; [exact Hrun|]. intros p' Hp'.
    exact (proj1 (proj2 (H 0%Z
                    (mkParticle (mkvec 1 0 0) (mkvec 0 1 0) (mkvec 0 0 1)
                       0)%R p' ltac:(lia) eq_refl Hp'))).
Defined.

Lemma rest_is_fixed_point_witness :
  dvs_advance 1 [mkParticle (mkvec 1 0 0) VEC_ZERO VEC_ZERO 0]%R 1%R
  = Some [mkParticle (mkvec 1 0 0) VEC_ZERO VEC_ZERO 0]%R /\
  dvs_correct 1 [mkParticle (mkvec 1 0 0) VEC_ZERO VEC_ZERO 0]%R 1%R
  = Some [mkParticle (mkvec 1 0 0) VEC_ZERO VEC_ZERO 0]%R.
Proof.
  apply (rest_is_fixed_point 1
           [mkParticle (mkvec 1 0 0) VEC_ZERO VEC_ZERO 0]%R 1%R).
  - lra.
  - simpl. lia.
  - constructor; [|constructor]. split; [|split; reflexivity].
    apply vec_norm_one. unfold vec_magnitude2, vec_dot. simpl. ring.
Defined.

Lemma correct_is_projection_witness :
  exists ps',
    dvs_correct 1 [mkParticle (mkvec 1 0 0) (mkvec 1 1 0) VEC_ZERO 0]%R 1%R
    = Some ps' /\
    dvs_correct 1 ps' 1%R = Some ps'.
Proof.
  apply (correct_is_projection 1
           [mkParticle (mkvec 1 0 0) (mkvec 1 1 0) VEC_ZERO 0]%R 1%R).
  - simpl. lia.
  - constructor; [|constructor]. split; [|reflexivity].
    apply vec_norm_one. unfold vec_magnitude2, vec_dot. simpl. ring.
Defined.

(** ** The cell grid *)

Lemma is_chain_agree (nxt nxt' : Z -> option Z) h h' l :
  is_chain nxt h l -> is_chain nxt' h' l ->
  h = h' /\ forall k, In k l -> nxt k = nxt' k.
Proof.
  intros H. revert h'. induction H as [|i n l Hi Hn Hl IH]; intros h' H'.
  - inversion H'; subst. split; [reflexivity|]. intros k [].
  - inversion H' as [|i' n' l' Hi' Hn' Hl']; subst.
    destruct (IH n' Hl') as [-> Hk]. split; [reflexivity|].
    intros k [<-|Hin]; [congruence|now apply Hk].
Qed.

Lemma is_chain_links (nxt : Z -> option Z) h l :
  is_chain nxt h l ->
  StronglySorted (fun u w => (w < u)%Z) l ->
  (forall k, In k l -> (0 <= k)%Z) ->
  (h = (-1)%Z \/ In h l) /\
  forall k, In k l ->
    exists n, nxt k = Some n /\ (n < k)%Z /\ (n = (-1)%Z \/ In n l).
Proof.
  intros H. induction H as [|i n l Hi Hn Hl IH]; intros Hs Hpos.
  - split; [now left|]. intros k [].
  - apply StronglySorted_inv in Hs as [Hs Hall].
    destruct (IH Hs (fun k Hk => Hpos k (or_intror Hk))) as [Hh Hk].
    split; [right; now left|].
    intros k [<-|Hin].
    + exists n. split; [exact Hn|]. destruct Hh as [->|Hh].
      * split; [|now left]. specialize (Hpos i (or_introl eq_refl)). lia.
      * split; [|right; now right].
        rewrite Forall_forall in Hall. now apply Hall.
    + destruct (Hk k Hin) as (n' & E & Hlt & Hn').
      exists n'. split; [exact E|]. split; [exact Hlt|].
      destruct Hn' as [->|Hn']; [now left|right; now right].
Qed.

Section GridProperties.

Context {T : Type} {Sc : Scalar T}.
Implicit Types (ps : list (Particle T)) (self : Cells T).

(** X14. [Cells_clear] on a grid whose head table has at least [num_cells]
    entries returns; it sets the first [num_cells] heads to -1 and leaves
    the rest of the table, its length, and [dr], [binning] and [num_cells]
    as they were. *)
Theorem Cells_clear_effect self :
  (num_cells self <= Z.of_nat (length (cells self)))%Z ->
  exists self',
    Cells_clear self = Some self' /\
    dr self' = dr self /\ binning self' = binning self /\
    num_cells self' = num_cells self /\
    length (cells self') = length (cells self) /\
    (forall c, (0 <= c < num_cells self)%Z ->
       get (cells self') c = Some (-1)%Z) /\
    (forall c, (num_cells self <= c)%Z ->
       get (cells self') c = get (cells self) c).
Proof.
  intros Hlen.
  destruct (Z.le_gt_cases 0 (num_cells self)) as [Hn|Hn].
  2:{ exists self. unfold Cells_clear, for_range.
      rewrite zrange_nil by lia.
      repeat split; try reflexivity; intros; lia. }
  destruct (for_range_inv
    (fun i s => same_grid self s /\
                (forall c, (0 <= c < i)%Z -> get (cells s) c = Some (-1)%Z) /\
                (forall c, (i <= c)%Z -> get (cells s) c = get (cells self) c))
    0 (num_cells self)
    (fun i s => heads <- put (cells s) i (-1)%Z ;; Some (set_cells s heads))
    self Hn) as (self' & Hrun & (Hdr & HL & Hnum & Hl) & Hall & Hrest).
  - split; [repeat split|]. split; [intros; lia|reflexivity].
  - intros i s Hi ((Hdr & HL & Hnum & Hl) & Hheads & Hrest).
    destruct (put (cells s) i (-1)%Z) as [heads|] eqn:Hput;
      [|rewrite put_Some in Hput by lia; discriminate].
    cbn [bind]. eexists. split; [reflexivity|]. split; [|split].
    + unfold same_grid. cbn [set_cells dr binning num_cells cells].
      rewrite (put_length _ _ _ _ Hput). auto.
    + intros c Hc. cbn [set_cells cells].
      destruct (Z.eq_dec c i) as [->|Hne].
      * apply (get_put_same _ _ _ _ Hput).
      * rewrite (get_put_other _ _ _ _ _ Hput Hne). apply Hheads. lia.
    + intros c Hc. cbn [set_cells cells].
      rewrite (get_put_other _ _ _ c _ Hput) by lia. apply Hrest. lia.
  - exists self'. repeat split; auto.
Qed.

Lemma same_place_get ps ps1 (k : Z) p :
  Forall2 same_place ps ps1 -> get ps k = Some p ->
  exists p1, get ps1 k = Some p1 /\ same_place p p1.
Proof.
  intros HF Hp. destruct (Forall2_get _ _ _ _ _ HF Hp) as (p1 & H1 & H2).
  eauto.
Qed.

(** X15. [dvs_populate_cells] changes nothing but the links and the heads:
    the array keeps its length and every particle its position, velocity and
    acceleration, and the grid keeps [dr], [binning], [num_cells] and the
    length of its head table. *)
Theorem populate_cells_frame (N : Z) ps self :
  (1 <= binning self)%Z ->
  num_cells self = (binning self * binning self * binning self)%Z ->
  Z.of_nat (length (cells self)) = num_cells self ->
  N = Z.of_nat (length ps) ->
  exists ps1 self1,
    dvs_populate_cells N ps self = Some (ps1, self1) /\
    length ps1 = length ps /\
    (forall k p, get ps k = Some p ->
       exists p1, get ps1 k = Some p1 /\
                  r p1 = r p /\ v p1 = v p /\ a p1 = a p) /\
    dr self1 = dr self /\ binning self1 = binning self /\
    num_cells self1 = num_cells self /\
    length (cells self1) = length (cells self).
Proof.
  intros HL Hnum Hlen HN.
  assert (Hok : grid_ok self) by (repeat split; assumption).
  destruct (dvs_populate_cells_spec N ps self Hok HN)
    as (ps1 & self1 & Hrun & Hplace & Hgrid & _).
  cbn [fst snd] in *. exists ps1, self1. split; [exact Hrun|].
  split; [|split].
  - symmetry. apply (Forall2_length Hplace).
  - intros k p Hp.
    destruct (same_place_get ps ps1 k p Hplace Hp) as (p1 & H1 & H2).
    exists p1. split; [exact H1|exact H2].
  - exact Hgrid.
Qed.

(** X16. After [dvs_populate_cells], the walk from the head of a cell [c]
    along [next] ends at -1 within [N] steps; it goes through the particles
    whose clamped bins give the cell [c], and through no other, in the order
    of decreasing index. *)
Theorem populate_cells_lists (N : Z) ps self (c : Z) :
  (1 <= binning self)%Z ->
  num_cells self = (binning self * binning self * binning self)%Z ->
  Z.of_nat (length (cells self)) = num_cells self ->
  N = Z.of_nat (length ps) ->
  (0 <= c < num_cells self)%Z ->
  exists ps1 self1 h l,
    dvs_populate_cells N ps self = Some (ps1, self1) /\
    get (cells self1) c = Some h /\
    chain (Z.to_nat N) (nexts ps1) h = Some l /\
    StronglySorted (fun u w => (w < u)%Z) l /\
    forall k, In k l <->
      exists p, get ps k = Some p /\ cell_of self p = c.
Proof.
  intros HL Hnum Hlen HN Hc.
  assert (Hok : grid_ok self) by (repeat split; assumption).
  destruct (dvs_populate_cells_spec N ps self Hok HN)
    as (ps1 & self1 & Hrun & Hplace & Hgrid & Hlists).
  destruct (Hlists c Hc) as (h & Hh & Hchain). cbn [fst snd] in *.
  exists ps1, self1, h, (bucket self ps N c).
  split; [exact Hrun|]. split; [exact Hh|]. split; [|split].
  - apply is_chain_chain; [exact Hchain|].
    pose proof (bucket_length self ps N c). lia.
  - apply bucket_sorted.
  - intros k. rewrite in_bucket. unfold cell_index. split.
    + intros [Hk Hcell]. destruct (get_in_range ps k ltac:(lia)) as [p Hp].
      rewrite Hp in Hcell. eauto.
    + intros (p & Hp & Hcell). rewrite Hp.
      apply get_Some_range in Hp. split; [lia|exact Hcell].
Qed.

(** X17. After [dvs_populate_cells] every head is -1 or the index of a
    particle, and the link of the particle [k] is -1 or the index of a
    particle before [k] that is in the same cell: the links only go down,
    so that no list has a cycle. *)
Theorem populate_cells_links (N : Z) ps self :
  (1 <= binning self)%Z ->
  num_cells self = (binning self * binning self * binning self)%Z ->
  Z.of_nat (length (cells self)) = num_cells self ->
  N = Z.of_nat (length ps) ->
  exists ps1 self1,
    dvs_populate_cells N ps self = Some (ps1, self1) /\
    (forall c h, get (cells self1) c = Some h -> (-1 <= h < N)%Z) /\
    (forall k p1, get ps1 k = Some p1 ->
       (-1 <= next p1 < k)%Z /\
       forall q1, get ps1 (next p1) = Some q1 ->
         cell_of self q1 = cell_of self p1).
Proof.
  intros HL Hnum Hlen HN.
  assert (Hok : grid_ok self) by (repeat split; assumption).
  destruct (dvs_populate_cells_spec N ps self Hok HN)
    as (ps1 & self1 & Hrun & Hplace & Hgrid & Hlists).
  cbn [fst snd] in *. exists ps1, self1. split; [exact Hrun|].
  assert (Hlinks : forall c, (0 <= c < num_cells self)%Z ->
            exists h, get (cells self1) c = Some h /\
              (h = (-1)%Z \/ In h (bucket self ps N c)) /\
              forall k, In k (bucket self ps N c) ->
                exists n, nexts ps1 k = Some n /\ (n < k)%Z /\
                          (n = (-1)%Z \/ In n (bucket self ps N c))).
  { intros c Hc. destruct (Hlists c Hc) as (h & Hh & Hchain).
    exists h. split; [exact Hh|].
    apply (is_chain_links _ _ _ Hchain); [apply bucket_sorted|].
    intros k Hk. apply in_bucket in Hk. lia. }
  assert (Hcell1 : forall k p1, get ps1 k = Some p1 ->
            cell_index self ps k = cell_of self p1).
  { intros k p1 Hp1. unfold cell_index.
    pose proof (get_Some_range _ _ _ Hp1) as Hr.
    rewrite <- (Forall2_length Hplace) in Hr.
    destruct (get_in_range ps k Hr) as [p Hp]. rewrite Hp.
    destruct (same_place_get ps ps1 k p Hplace Hp) as (p1' & E & Hr1 & _).
    assert (p1' = p1) by congruence. subst p1'.
    unfold cell_of, bin_of. now rewrite Hr1. }
  split.
  - intros c h Hh. pose proof (get_Some_range _ _ _ Hh) as Hc.
    destruct Hgrid as (_ & _ & _ & Hl1). rewrite Hl1 in Hc.
    destruct (Hlinks c ltac:(lia)) as (h' & Hh' & Hin & _).
    assert (h' = h) by congruence. subst h'.
    destruct Hin as [->|Hin]; [lia|]. apply in_bucket in Hin. lia.
  - intros k p1 Hp1. pose proof (get_Some_range _ _ _ Hp1) as Hk.
    rewrite <- (Forall2_length Hplace) in Hk.
    pose proof (cell_index_range self ps k Hok Hk) as Hc.
    destruct (Hlinks _ Hc) as (_ & _ & _ & Hnext).
    destruct (Hnext k) as (n & Hn & Hlt & Hin).
    { apply in_bucket. split; [lia|reflexivity]. }
    unfold nexts in Hn. rewrite Hp1 in Hn. cbn [bind] in Hn.
    injection Hn as <-. split.
    + destruct Hin as [->|Hin]; [lia|]. apply in_bucket in Hin. lia.
    + intros q1 Hq1. destruct Hin as [E|Hin].
      * rewrite E in Hq1. discriminate.
      * apply in_bucket in Hin. destruct Hin as [_ Hin].
        rewrite <- (Hcell1 _ _ Hq1), <- (Hcell1 _ _ Hp1). exact Hin.
Qed.

Lemma cell_index_same self self' ps ps' (k : Z) :
  Forall2 same_place ps ps' -> same_grid self self' ->
  cell_index self' ps' k = cell_index self ps k.
Proof.
  intros Hp Hg. unfold cell_index.
  destruct (get ps k) as [p|] eqn:E.
  - destruct (same_place_get ps ps' k p Hp E) as (p' & E' & Hr & _).
    rewrite E'. now apply cell_of_same_grid.
  - now rewrite (get_None_length ps ps' k (eq_sym (Forall2_length Hp)) E).
Qed.

Lemma bucket_same self self' ps ps' (i c : Z) :
  Forall2 same_place ps ps' -> same_grid self self' ->
  bucket self' ps' i c = bucket self ps i c.
Proof.
  intros Hp Hg. unfold bucket. f_equal. apply filter_ext. intros k.
  now rewrite (cell_index_same self self' ps ps' k Hp Hg).
Qed.

Lemma populated_unique (N : Z) ps ps' self self' ps1 self1 ps1' self1' :
  grid_ok self -> N = Z.of_nat (length ps) ->
  Forall2 same_place ps ps' -> same_grid self self' ->
  populated self ps N (ps1, self1) ->
  populated self' ps' N (ps1', self1') ->
  ps1' = ps1 /\ self1' = self1.
Proof.
  intros Hok HN Hpp Hgg (Hplace & Hgrid & Hlists) (Hplace' & Hgrid' & Hlists').
  cbn [fst snd] in *.
  pose proof Hok as (HL & Hnum & Hlen).
  destruct Hgg as (Gdr & GL & Gnum & Glen).
  destruct Hgrid as (Hdr1 & HL1 & Hnum1 & Hlen1).
  destruct Hgrid' as (Hdr1' & HL1' & Hnum1' & Hlen1').
  assert (Hagree : forall c, (0 <= c < num_cells self)%Z ->
            get (cells self1') c = get (cells self1) c /\
            forall k, In k (bucket self ps N c) ->
                      nexts ps1' k = nexts ps1 k).
  { intros c Hc. destruct (Hlists c Hc) as (h & Hh & Hchain).
    destruct (Hlists' c ltac:(lia)) as (h' & Hh' & Hchain').
    rewrite (bucket_same self self' ps ps' N c Hpp
               (conj Gdr (conj GL (conj Gnum Glen)))) in Hchain'.
    destruct (is_chain_agree _ _ _ _ _ Hchain' Hchain) as [-> Hk].
    split; [congruence|exact Hk]. }
  assert (Hl1 : length ps1 = length ps)
    by (symmetry; apply (Forall2_length Hplace)).
  assert (Hl1' : length ps1' = length ps).
  { rewrite <- (Forall2_length Hplace'). symmetry.
    apply (Forall2_length Hpp). }
  split.
  - apply get_ext; [congruence|].
    intros k. destruct (get ps k) as [p|] eqn:Ep.
    + destruct (same_place_get ps ps1 k p Hplace Ep)
        as (p1 & E1 & Hr1 & Hv1 & Ha1).
      destruct (same_place_get ps ps' k p Hpp Ep)
        as (p' & E' & Hr' & Hv' & Ha').
      destruct (same_place_get ps' ps1' k p' Hplace' E')
        as (p1' & E1' & Hr1' & Hv1' & Ha1').
      rewrite E1, E1'. f_equal.
      pose proof (get_Some_range _ _ _ Ep) as Hk.
      destruct (Hagree (cell_index self ps k)
                  (cell_index_range self ps k Hok Hk)) as [_ Hn].
      specialize (Hn k ltac:(apply in_bucket; split; [lia|reflexivity])).
      unfold nexts in Hn. rewrite E1, E1' in Hn. cbn [bind] in Hn.
      destruct p1 as [r1 v1 a1 n1], p1' as [r2 v2 a2 n2].
      cbn [r v a next] in *. congruence.
    + rewrite (get_None_length ps ps1 k Hl1 Ep).
      apply (get_None_length ps ps1' k Hl1' Ep).
  - assert (Hcells : cells self1' = cells self1).
    { apply get_ext; [congruence|]. intros c.
      destruct (get (cells self1) c) as [h|] eqn:E.
      - pose proof (get_Some_range _ _ _ E) as Hc.
        rewrite <- E. apply (Hagree c). lia.
      - apply (get_None_length (cells self1)); [congruence|exact E]. }
    destruct self1 as [d1 b1 c1 l1], self1' as [d2 b2 c2 l2].
    cbn [dr binning num_cells cells] in *. congruence.
Qed.

(** X18. What [dvs_populate_cells] returns depends on the positions and the
    geometry of the grid only, not on the links and heads that are there
    before: two arrays with the same positions, velocities and
    accelerations, on two grids with the same [dr], [binning], [num_cells]
    and table length, give the same result, and a second call on the result
    returns it unchanged. *)
Theorem populate_cells_ignores_old_lists (N : Z) ps ps' self self' :
  (1 <= binning self)%Z ->
  num_cells self = (binning self * binning self * binning self)%Z ->
  Z.of_nat (length (cells self)) = num_cells self ->
  N = Z.of_nat (length ps) ->
  Forall2 same_place ps ps' -> same_grid self self' ->
  exists out,
    dvs_populate_cells N ps self = Some out /\
    dvs_populate_cells N ps' self' = Some out /\
    dvs_populate_cells N (fst out) (snd out) = Some out.
Proof.
  intros HL Hnum Hlen HN Hpp Hgg.
  assert (Hok : grid_ok self) by (repeat split; assumption).
  assert (Hok' : grid_ok self').
  { destruct Hgg as (Gdr & GL & Gnum & Glen). unfold grid_ok.
    rewrite GL, Gnum, Glen. exact Hok. }
  assert (HN' : N = Z.of_nat (length ps'))
    by (rewrite <- (Forall2_length Hpp); exact HN).
  destruct (dvs_populate_cells_spec N ps self Hok HN)
    as (ps1 & self1 & Hrun & Hpop).
  destruct (dvs_populate_cells_spec N ps' self' Hok' HN')
    as (ps1' & self1' & Hrun' & Hpop').
  destruct (populated_unique N ps ps' self self' ps1 self1 ps1' self1'
              Hok HN Hpp Hgg Hpop Hpop') as [-> ->].
  exists (ps1, self1). split; [exact Hrun|]. split; [exact Hrun'|].
  cbn [fst snd].
  pose proof Hpop as (Hplace & Hgrid & _). cbn [fst snd] in *.
  assert (Hok1 : grid_ok self1).
  { destruct Hgrid as (Gdr & GL & Gnum & Glen). unfold grid_ok.
    rewrite GL, Gnum, Glen. exact Hok. }
  assert (HN1 : N = Z.of_nat (length ps1))
    by (rewrite <- (Forall2_length Hplace); exact HN).
  destruct (dvs_populate_cells_spec N ps1 self1 Hok1 HN1)
    as (ps2 & self2 & Hrun2 & Hpop2).
  destruct (populated_unique N ps ps1 self self1 ps1 self1 ps2 self2
              Hok HN Hplace Hgrid Hpop Hpop2) as [-> ->].
  exact Hrun2.
Qed.

End GridProperties.

Lemma Cells_clear_effect_witness :
  exists self',
    Cells_clear (Cells_new (T := float) (fun c => c) 2 4) = Some self' /\
    get (cells self') 7 = Some (-1)%Z.
Proof.
  destruct (Cells_clear_effect (Cells_new (T := float) (fun c => c) 2 4))
    as (self' & Hrun & _ & _ & _ & _ & Hheads & _).
  - simpl. lia.
  - exists self'. split; [exact Hrun|]. apply Hheads. simpl. lia.
Defined.

Lemma populate_cells_frame_witness :
  exists ps1 self1,
    dvs_populate_cells 4 four_particles (Cells_new (fun _ => 0%Z) 2 4)
    = Some (ps1, self1) /\
    length ps1 = 4%nat.
Proof.
  destruct (populate_cells_frame 4 four_particles
              (Cells_new (fun _ => 0%Z) 2 4))
    as (ps1 & self1 & Hrun & Hlen & _).
  - simpl. lia.
  - reflexivity.
  - reflexivity.
  - reflexivity.
  - exists ps1, self1. split; [exact Hrun|exact Hlen].
Defined.

Lemma populate_cells_lists_witness :
  exists ps1 self1 h l,
    dvs_populate_cells 4 four_particles (Cells_new (fun _ => 0%Z) 2 4)
    = Some (ps1, self1) /\
    get (cells self1) 7 = Some h /\
    chain 4 (nexts ps1) h = Some l /\
    StronglySorted (fun u w => (w < u)%Z) l.
Proof.
  destruct (populate_cells_lists 4 four_particles
              (Cells_new (fun _ => 0%Z) 2 4) 7)
    as (ps1 & self1 & h & l & Hrun & Hh & Hc & Hs & _).
  - simpl. lia.
  - reflexivity.
  - reflexivity.
  - reflexivity.
  - simpl. lia.
  - exists ps1, self1, h, l. auto.
Defined.

Lemma populate_cells_links_witness :
  exists ps1 self1,
    dvs_populate_cells 4 four_particles (Cells_new (fun _ => 0%Z) 2 4)
    = Some (ps1, self1) /\
    forall c h, get (cells self1) c = Some h -> (-1 <= h < 4)%Z.
Proof.
  destruct (populate_cells_links 4 four_particles
              (Cells_new (fun _ => 0%Z) 2 4))
    as (ps1 & self1 & Hrun & Hheads & _).
  - simpl. lia.
  - reflexivity.
  - reflexivity.
  - reflexivity.
  - exists ps1, self1. split; [exact Hrun|exact Hheads].
Defined.

Lemma populate_cells_ignores_old_lists_witness :
  exists out,
    dvs_populate_cells 4 four_particles (Cells_new (fun _ => 0%Z) 2 4)
    = Some out /\
    dvs_populate_cells 4 four_particles (Cells_new (fun c => c) 2 4)
    = Some out /\
    dvs_populate_cells 4 (fst out) (snd out) = Some out.
Proof.
  apply (populate_cells_ignores_old_lists 4 four_particles four_particles
           (Cells_new (fun _ => 0%Z) 2 4) (Cells_new (fun c => c) 2 4)).
  - simpl. lia.
  - reflexivity.
  - reflexivity.
  - reflexivity.
  - apply same_place_refl.
  - repeat split.
Defined.

(** ** The force sweeps *)

(** A relation between the memory before and after that every call of the
    kernel keeps, and that is reflexive and transitive, is kept by the two
    sweeps, whatever the grid holds. *)
Section Preserved.

Context {T : Type} {Sc : Scalar T}.

Variable Inv : Mem T -> Mem T -> Prop.
Hypothesis Inv_refl : forall m, Inv m m.
Hypothesis Inv_trans : forall m m' m'', Inv m m' -> Inv m' m'' -> Inv m m''.
Hypothesis Inv_kernel :
  forall i j cutoff gamma m m',
    dvs_calc_force i j cutoff gamma m = Some m' -> Inv m m'.

Lemma foldM_preserves {I : Type} (body : I -> Mem T -> option (Mem T))
  (l : list I) :
  (forall i, preserves Inv (body i)) -> preserves Inv (foldM body l).
Proof.
  intros Hb. induction l as [|i l IH]; intros m m' H; cbn [foldM] in H.
  - inversion H; subst. apply Inv_refl.
  - destruct (body i m) as [m1|] eqn:E; [|discriminate]. cbn [bind] in H.
    eapply Inv_trans; [apply (Hb i _ _ E)|apply (IH _ _ H)].
Qed.

Lemma for_chain_preserves (fuel : nat)
  (body : Z -> Mem T -> option (Mem T)) (h : Z) :
  (forall i, preserves Inv (body i)) ->
  preserves Inv (for_chain fuel next_of h body).
Proof.
  intros Hb. revert h. induction fuel as [|fuel IH]; intros h m m' H;
    cbn [for_chain] in H; destruct (h =? -1)%Z.
  - inversion H. apply Inv_refl.
  - discriminate.
  - inversion H. apply Inv_refl.
  - destruct (body h m) as [m1|] eqn:E; [|discriminate]. cbn [bind] in H.
    destruct (next_of m1 h) as [n|]; [|discriminate]. cbn [bind] in H.
    eapply Inv_trans; [apply (Hb h _ _ E)|apply (IH _ _ _ H)].
Qed.

Lemma dvs_calc_forces_preserves (fuel : nat) (self : Cells T)
  (cell0 cell1 : Z) (cutoff gamma : T) :
  preserves Inv (dvs_calc_forces fuel self cell0 cell1 cutoff gamma).
Proof.
  unfold dvs_calc_forces, for_range.
  apply foldM_preserves. intros z.
  apply foldM_preserves. intros y.
  apply foldM_preserves. intros x.
  intros m m' H. unfold sweep_cell in H.
  destruct (get (cells self) _) as [h|]; [|discriminate]. cbn [bind] in H.
  destruct (h =? -1)%Z; [inversion H; apply Inv_refl|].
  destruct (_ || _); [inversion H; apply Inv_refl|].
  revert H. unfold for_range.
  apply foldM_preserves. intros nnz.
  apply foldM_preserves. intros nny.
  apply foldM_preserves. intros nnx.
  clear m m'. intros m m' H. unfold sweep_cell_pair in H.
  destruct (_ >? _)%Z; [inversion H; apply Inv_refl|].
  destruct (_ =? _)%Z;
    (destruct (get (cells self) _) as [h1|]; [|discriminate];
     cbn [bind] in H; revert H; apply for_chain_preserves;
     intros i m0 m1 H).
  - destruct (next_of m0 i) as [n|]; [|discriminate]. cbn [bind] in H.
    revert H. apply for_chain_preserves.
    intros j m2 m3 H. now apply Inv_kernel in H.
  - destruct (get (cells self) _) as [h'|]; [|discriminate].
    cbn [bind] in H. revert H. apply for_chain_preserves.
    intros j m2 m3 H. now apply Inv_kernel in H.
Qed.

Lemma dvs_calc_brute_forces_preserves (N first last : Z) (cutoff gamma : T) :
  preserves Inv (dvs_calc_brute_forces N first last cutoff gamma).
Proof.
  unfold dvs_calc_brute_forces, for_range.
  apply foldM_preserves. intros i.
  apply foldM_preserves. intros j m m' H. now apply Inv_kernel in H.
Qed.

End Preserved.

Section SweepInvariants.

Context {T : Type} {Sc : Scalar T}.
Implicit Types (m : Mem T).

Lemma brute_forces_runs (N first last : Z) (cutoff gamma : T) m :
  (0 <= first)%Z -> (N <= Z.of_nat (length (particles m)))%Z ->
  exists m', dvs_calc_brute_forces N first last cutoff gamma m = Some m'.
Proof.
  intros Hf HN. rewrite dvs_calc_brute_forces_pairs.
  destruct (run_pairs_runs cutoff gamma (brute_pairs N first last) m)
    as (m' & Hrun & _).
  - intros i j Hij. apply in_brute_pairs in Hij. unfold in_array. lia.
  - eauto.
Qed.

Lemma frame_fields (ps ps' : list (Particle T)) :
  Forall2 same_frame ps ps' ->
  length ps' = length ps /\
  forall k p, get ps k = Some p ->
    exists p', get ps' k = Some p' /\
               r p' = r p /\ v p' = v p /\ next p' = next p.
Proof.
  intros H. split; [symmetry; apply (Forall2_length H)|].
  intros k p Hp. destruct (frame_get _ _ _ _ H Hp) as (p' & Hp' & Hf).
  exists p'. split; [exact Hp'|exact Hf].
Qed.

(** X19. A force sweep that returns, [dvs_calc_forces] over any range of
    cells of any grid or [dvs_calc_brute_forces] over any range of
    particles, has changed nothing but accelerations: the array has the
    length it had, and every particle the position, the velocity and the
    [next] it had. *)
Theorem force_sweeps_change_only_accelerations (fuel : nat) (self : Cells T)
  (cell0 cell1 N first last : Z) (cutoff gamma : T) m m' :
  dvs_calc_forces fuel self cell0 cell1 cutoff gamma m = Some m' \/
  dvs_calc_brute_forces N first last cutoff gamma m = Some m' ->
  length (particles m') = length (particles m) /\
  forall k p, get (particles m) k = Some p ->
    exists p', get (particles m') k = Some p' /\
               r p' = r p /\ v p' = v p /\ next p' = next p.
Proof.
  intros [H|H]; apply frame_fields; revert H.
  - apply (dvs_calc_forces_preserves framed); unfold framed.
    + intros. apply frame_refl.
    + intros ? ? ?. apply frame_trans.
    + intros i j c g. apply dvs_calc_force_keeps_frame.
  - apply (dvs_calc_brute_forces_preserves framed); unfold framed.
    + intros. apply frame_refl.
    + intros ? ? ?. apply frame_trans.
    + intros i j c g. apply dvs_calc_force_keeps_frame.
Qed.

Lemma counted_refl m : counted m m.
Proof.
  split; [lia|]. exists []. rewrite app_nil_r. split; [reflexivity|].
  cbn [length]. lia.
Qed.

Lemma counted_trans m m' m'' : counted m m' -> counted m' m'' -> counted m m''.
Proof.
  intros (H1 & l1 & E1 & L1) (H2 & l2 & E2 & L2). split; [lia|].
  exists (l1 ++ l2). rewrite E2, E1, <- app_assoc. split; [reflexivity|].
  rewrite length_app. lia.
Qed.

Lemma counted_kernel (i j : Z) (cutoff gamma : T) m m' :
  dvs_calc_force i j cutoff gamma m = Some m' -> counted m m'.
Proof.
  intros H. unfold dvs_calc_force in H.
  destruct (get (particles m) i) as [p|]; [|discriminate].
  destruct (get (particles m) j) as [q|]; [|discriminate].
  cbn [bind] in H. destruct (within_cutoff cutoff p q).
  - destruct (put _ _ _) as [ps1|]; [|discriminate]. cbn [bind] in H.
    destruct (get ps1 j) as [q1|]; [|discriminate]. cbn [bind] in H.
    destruct (put _ _ _) as [ps2|]; [|discriminate]. cbn [bind] in H.
    inversion H; subst m'. unfold counted.
    cbn [stats calls ww_counter real_ww_counter].
    split; [lia|]. exists [(i, j)]. split; [reflexivity|]. cbn [length]. lia.
  - inversion H; subst m'. unfold counted.
    cbn [stats calls ww_counter real_ww_counter].
    split; [lia|]. exists [(i, j)]. split; [reflexivity|]. cbn [length]. lia.
Qed.

(** X20. In a force sweep that returns, of either kind and whatever the
    grid holds, [ww_counter] grows by the number of the calls of the kernel,
    and [real_ww_counter] grows as well, by no more than [ww_counter]
    does. *)
Theorem force_sweeps_counters (fuel : nat) (self : Cells T)
  (cell0 cell1 N first last : Z) (cutoff gamma : T) m m' :
  dvs_calc_forces fuel self cell0 cell1 cutoff gamma m = Some m' \/
  dvs_calc_brute_forces N first last cutoff gamma m = Some m' ->
  (0 <= real_ww_counter (stats m') - real_ww_counter (stats m)
     <= ww_counter (stats m') - ww_counter (stats m))%Z /\
  exists l, calls m' = calls m ++ l /\
            (ww_counter (stats m') - ww_counter (stats m)
             = Z.of_nat (length l))%Z.
Proof.
  intros [H|H]; revert H.
  - apply (dvs_calc_forces_preserves counted counted_refl counted_trans).
    intros i j c g. apply counted_kernel.
  - apply (dvs_calc_brute_forces_preserves counted counted_refl
             counted_trans).
    intros i j c g. apply counted_kernel.
Qed.

(** X21. The brute sweep of a range of particles is the sweep of a first
    part of the range followed, in the memory it returns, by the sweep of
    the rest: the same calls in the same order, so the same result in any
    arithmetic. *)
Theorem brute_forces_compose (N first mid last : Z) (cutoff gamma : T) m :
  (first <= mid <= last)%Z ->
  dvs_calc_brute_forces N first last cutoff gamma m =
  (m' <- dvs_calc_brute_forces N first mid cutoff gamma m ;;
   dvs_calc_brute_forces N mid last cutoff gamma m').
Proof.
  intros H. unfold dvs_calc_brute_forces, for_range.
  rewrite (zrange_app first mid last H). apply foldM_app.
Qed.

Lemma brute_pairs_length (N first last : Z) :
  (first <= last <= N)%Z ->
  (2 * Z.of_nat (length (brute_pairs N first last))
   = (last - first) * (2 * N - 1 - first - last))%Z.
Proof.
  intros H. unfold brute_pairs.
  remember (Z.to_nat (last - first)) as n eqn:En.
  revert first H En. induction n as [|n IH]; intros first H En.
  - rewrite zrange_nil by lia. cbn [flat_map length]. nia.
  - rewrite zrange_cons by lia. cbn [flat_map].
    rewrite length_app, length_map, zrange_length, Nat2Z.inj_add.
    specialize (IH (first + 1)%Z ltac:(lia) ltac:(lia)). nia.
Qed.

(** X22. The brute sweep of the particles [first, last) of an array of [N]
    raises [ww_counter] by [(last - first) (2 N - 1 - first - last) / 2]:
    by [N (N - 1) / 2] when the range is the whole array. *)
Theorem brute_forces_count (N first last : Z) (cutoff gamma : T) m :
  (0 <= first <= last)%Z -> (last <= N)%Z ->
  (N <= Z.of_nat (length (particles m)))%Z ->
  exists m',
    dvs_calc_brute_forces N first last cutoff gamma m = Some m' /\
    (2 * (ww_counter (stats m') - ww_counter (stats m))
     = (last - first) * (2 * N - 1 - first - last))%Z.
Proof.
  intros Hf Hl HN. rewrite dvs_calc_brute_forces_pairs.
  destruct (run_pairs_runs cutoff gamma (brute_pairs N first last) m)
    as (m' & Hrun & _ & _ & Hww).
  - intros i j Hij. apply in_brute_pairs in Hij. unfold in_array. lia.
  - exists m'. split; [exact Hrun|]. rewrite Hww.
    pose proof (brute_pairs_length N first last ltac:(lia)). lia.
Qed.

End SweepInvariants.

Lemma force_sweeps_change_only_accelerations_witness :
  exists m',
    dvs_calc_brute_forces 4 0 4 0.75%float 0%float
      (mkMem four_particles no_stats []) = Some m' /\
    length (particles m') = 4%nat.
Proof.
  destruct (brute_forces_runs 4 0 4 0.75%float 0%float
              (mkMem four_particles no_stats []))
    as [m' H]; [lia|simpl; lia|].
  exists m'. split; [exact H|].
  exact (proj1 (force_sweeps_change_only_accelerations O
                  (Cells_new (fun _ => 0%Z) 2 4) 0 0 4 0 4 0.75%float
                  0%float (mkMem four_particles no_stats []) m'
                  (or_intror H))).
Defined.

Lemma force_sweeps_counters_witness :
  exists m',
    dvs_calc_brute_forces 4 0 4 0.75%float 0%float
      (mkMem four_particles no_stats []) = Some m' /\
    (0 <= real_ww_counter (stats m') <= ww_counter (stats m'))%Z.
Proof.
  destruct (brute_forces_runs 4 0 4 0.75%float 0%float
              (mkMem four_particles no_stats []))
    as [m' H]; [lia|simpl; lia|].
  exists m'. split; [exact H|].
  pose proof (proj1 (force_sweeps_counters O
                       (Cells_new (fun _ => 0%Z) 2 4) 0 0 4 0 4 0.75%float
                       0%float (mkMem four_particles no_stats []) m'
                       (or_intror H))) as Hc.
  unfold no_stats in Hc. simpl in Hc. lia.
Defined.

Lemma brute_forces_compose_witness :
  dvs_calc_brute_forces 4 0 4 0.75%float 0%float
    (mkMem four_particles no_stats []) =
  (m' <- dvs_calc_brute_forces 4 0 2 0.75%float 0%float
           (mkMem four_particles no_stats []) ;;
   dvs_calc_brute_forces 4 2 4 0.75%float 0%float m').
Proof. apply (brute_forces_compose 4 0 2 4). lia. Defined.

Lemma brute_forces_count_witness :
  exists m',
    dvs_calc_brute_forces 4 0 4 0.75%float 0%float
      (mkMem four_particles no_stats []) = Some m' /\
    ww_counter (stats m') = 6%Z.
Proof.
  destruct (brute_forces_count 4 0 4 0.75%float 0%float
              (mkMem four_particles no_stats []))
    as (m' & H & Hc); [lia|lia|simpl; lia|].
  exists m'. split; [exact H|]. unfold no_stats in Hc.
  cbn [stats ww_counter] in Hc. lia.
Defined.

(** The pairs of two adjacent ranges of cells, one after the other, are the
    pairs of the joined range: the three loops visit the cells in the order
    of their numbers. *)
Lemma flat_map_split {P : Type} (f g h : Z -> list P) (lo hi : Z) :
  (forall i, (lo <= i < hi)%Z -> f i = g i ++ h i) ->
  (forall i j, (lo <= i < j)%Z -> (j < hi)%Z -> h i = [] \/ g j = []) ->
  flat_map f (zrange lo hi) =
  flat_map g (zrange lo hi) ++ flat_map h (zrange lo hi).
Proof.
  remember (Z.to_nat (hi - lo)) as n eqn:En.
  revert lo En. induction n as [|n IH]; intros lo En Hf Ho.
  - rewrite zrange_nil by lia. reflexivity.
  - rewrite zrange_cons by lia. cbn [flat_map].
    rewrite (IH (lo + 1)%Z) by (try lia; intros; (apply Hf || apply Ho); lia).
    rewrite (Hf lo) by lia. rewrite <- !app_assoc. f_equal.
    rewrite !app_assoc. f_equal.
    assert (Hcase : h lo = [] \/
                    forall j, (lo + 1 <= j < hi)%Z -> g j = []).
    { destruct (h lo) as [|e t] eqn:E; [now left|right].
      intros j Hj. destruct (Ho lo j ltac:(lia) ltac:(lia)) as [C|C];
        [congruence|exact C]. }
    destruct Hcase as [->|Hg]; [now rewrite app_nil_r|].
    rewrite (flat_map_nil g); [now rewrite app_nil_r|].
    intros j Hj. apply in_zrange in Hj. now apply Hg.
Qed.

Lemma cell_pairs_at_split (B : Z -> list Z) (L c0 c1 c2 x y z : Z) :
  (c0 <= c1 <= c2)%Z ->
  cell_pairs_at B L c0 c2 x y z =
  cell_pairs_at B L c0 c1 x y z ++ cell_pairs_at B L c1 c2 x y z.
Proof.
  intros H. unfold cell_pairs_at. cbv zeta.
  set (c := (x + L * y + L * L * z)%Z).
  destruct (Z.ltb_spec c c0), (Z.geb_spec c c2), (Z.geb_spec c c1),
    (Z.ltb_spec c c1); cbn [orb]; try lia;
    try reflexivity; now rewrite ?app_nil_r.
Qed.

Lemma cell_pairs_at_below (B : Z -> list Z) (L c0 c1 x y z : Z) :
  (x + L * y + L * L * z < c0)%Z -> cell_pairs_at B L c0 c1 x y z = [].
Proof.
  intros H. unfold cell_pairs_at. cbv zeta.
  destruct (Z.ltb_spec (x + L * y + L * L * z) c0); [reflexivity|lia].
Qed.

Lemma cell_pairs_at_above (B : Z -> list Z) (L c0 c1 x y z : Z) :
  (c1 <= x + L * y + L * L * z)%Z -> cell_pairs_at B L c0 c1 x y z = [].
Proof.
  intros H. unfold cell_pairs_at. cbv zeta.
  destruct (Z.geb_spec (x + L * y + L * L * z) c1);
    [now rewrite orb_true_r|lia].
Qed.

Lemma cell_pairs_app (B : Z -> list Z) (L c0 c1 c2 : Z) :
  (c0 <= c1 <= c2)%Z ->
  cell_pairs B L c0 c2 = cell_pairs B L c0 c1 ++ cell_pairs B L c1 c2.
Proof.
  intros H. unfold cell_pairs.
  apply flat_map_split.
  - intros z Hz. apply flat_map_split.
    + intros y Hy. apply flat_map_split.
      * intros x Hx. now apply cell_pairs_at_split.
      * intros x x' Hx Hx'.
        destruct (Z_lt_le_dec (x' + L * y + L * L * z) c1) as [C|C].
        -- left. apply cell_pairs_at_below. lia.
        -- right. now apply cell_pairs_at_above.
    + intros y y' Hy Hy'.
      destruct (Z_lt_le_dec (L * y' + L * L * z) c1) as [C|C].
      * left. apply flat_map_nil. intros x Hx. apply in_zrange in Hx.
        apply cell_pairs_at_below. nia.
      * right. apply flat_map_nil. intros x Hx. apply in_zrange in Hx.
        apply cell_pairs_at_above. nia.
  - intros z z' Hz Hz'.
    destruct (Z_lt_le_dec (L * L * z') c1) as [C|C].
    + left. apply flat_map_nil. intros y Hy. apply in_zrange in Hy.
      apply flat_map_nil. intros x Hx. apply in_zrange in Hx.
      apply cell_pairs_at_below. nia.
    + right. apply flat_map_nil. intros y Hy. apply in_zrange in Hy.
      apply flat_map_nil. intros x Hx. apply in_zrange in Hx.
      apply cell_pairs_at_above. nia.
Qed.

Section CellSweepProperties.

Context {T : Type} {Sc : Scalar T}.
Implicit Types (ps : list (Particle T)) (self : Cells T) (m : Mem T).

Lemma lists_cells_framed self m m' (B : Z -> list Z) (fuel : nat) :
  lists_cells self m B fuel -> framed m m' -> lists_cells self m' B fuel.
Proof.
  intros H F c Hc. destruct (H c Hc) as (h & Hh & Hchain & Hlen).
  exists h. split; [exact Hh|]. split; [|exact Hlen].
  now apply (framed_chain m).
Qed.

Lemma populated_mem_lists (N : Z) ps self (st : Stats T)
  (log : list (Z * Z)) :
  grid_ok self -> N = Z.of_nat (length ps) ->
  exists ps1 self1,
    dvs_populate_cells N ps self = Some (ps1, self1) /\
    lists_cells self1 (mkMem ps1 st log) (bucket self ps N) (Z.to_nat N) /\
    binning self1 = binning self /\ Z.of_nat (length ps1) = N.
Proof.
  intros Hok HN.
  destruct (dvs_populate_cells_spec N ps self Hok HN)
    as (ps1 & self1 & Hrun & Hpop).
  exists ps1, self1. split; [exact Hrun|].
  pose proof Hpop as (Hplace & (_ & Hbin & _) & _). cbn [fst snd] in *.
  split; [|split; [exact Hbin|]].
  - now apply (populated_lists_cells N ps ps1 self self1).
  - rewrite <- (Forall2_length Hplace). lia.
Qed.

Lemma populated_cell_pairs (N : Z) ps self (c0 c1 : Z) :
  (1 <= binning self)%Z -> N = Z.of_nat (length ps) ->
  NoDup (cell_pairs (bucket self ps N) (binning self) c0 c1) /\
  forall i j,
    In (i, j) (cell_pairs (bucket self ps N) (binning self) c0 c1) <->
    (0 <= i < N)%Z /\ (0 <= j < N)%Z /\
    (c0 <= cell (binning self) (bin_x self ps) (bin_y self ps)
             (bin_z self ps) i < c1)%Z /\
    near (bin_x self ps) (bin_y self ps) (bin_z self ps) i j /\
    swept_before (binning self) (bin_x self ps) (bin_y self ps)
      (bin_z self ps) i j.
Proof.
  intros HL HN. split.
  - apply (cell_pairs_NoDup N (binning self) (bin_x self ps) (bin_y self ps)
             (bin_z self ps)).
    + intros k _. now apply bins_in_range.
    + intros c k. now apply in_bucket_cell.
    + intros c. apply bucket_sorted.
    + intros c. apply bucket_NoDup.
  - intros i j.
    apply (in_cell_pairs N (binning self) (bin_x self ps) (bin_y self ps)
             (bin_z self ps)).
    + intros k _. now apply bins_in_range.
    + intros c k. now apply in_bucket_cell.
    + intros c. apply bucket_sorted.
Qed.

Lemma populated_sweep_runs (N : Z) ps self (c0 c1 : Z)
  (cutoff gamma : T) (st : Stats T) (log : list (Z * Z)) :
  grid_ok self -> N = Z.of_nat (length ps) ->
  exists ps1 self1 m',
    dvs_populate_cells N ps self = Some (ps1, self1) /\
    dvs_calc_forces (Z.to_nat N) self1 c0 c1 cutoff gamma
      (mkMem ps1 st log) = Some m' /\
    calls m' = log ++ cell_pairs (bucket self ps N) (binning self) c0 c1 /\
    ww_counter (stats m') =
      (ww_counter st
       + Z.of_nat (length (cell_pairs (bucket self ps N) (binning self)
                             c0 c1)))%Z.
Proof.
  intros Hok HN.
  destruct (populated_mem_lists N ps self st log Hok HN)
    as (ps1 & self1 & Hpop & Hlists & Hbin & Hlen1).
  exists ps1, self1.
  rewrite (dvs_calc_forces_pairs cutoff gamma _ _ _ _ _ _ Hlists), Hbin.
  destruct (run_pairs_runs cutoff gamma
              (cell_pairs (bucket self ps N) (binning self) c0 c1)
              (mkMem ps1 st log)) as (m' & Hrun & _ & Hcalls & Hww).
  - intros i j Hij. apply cell_pairs_in_array in Hij.
    unfold in_array. cbn [particles]. lia.
  - exists m'. auto.
Qed.

(** X23. After [dvs_populate_cells], the sweep of the cells [c0, c2) is the
    sweep of the cells [c0, c1) followed, in the memory it returns, by the
    sweep of the cells [c1, c2): the same calls in the same order, so the
    same result in any arithmetic. *)
Theorem cell_forces_compose (N : Z) ps self (cutoff gamma : T) :
  (1 <= binning self)%Z ->
  num_cells self = (binning self * binning self * binning self)%Z ->
  Z.of_nat (length (cells self)) = num_cells self ->
  N = Z.of_nat (length ps) ->
  exists ps1 self1,
    dvs_populate_cells N ps self = Some (ps1, self1) /\
    forall (c0 c1 c2 : Z) (st : Stats T) (log : list (Z * Z)),
      (c0 <= c1 <= c2)%Z ->
      dvs_calc_forces (Z.to_nat N) self1 c0 c2 cutoff gamma
        (mkMem ps1 st log) =
      (m' <- dvs_calc_forces (Z.to_nat N) self1 c0 c1 cutoff gamma
               (mkMem ps1 st log) ;;
       dvs_calc_forces (Z.to_nat N) self1 c1 c2 cutoff gamma m').
Proof.
  intros HL Hnum Hlen HN.
  assert (Hok : grid_ok self) by (repeat split; assumption).
  destruct (dvs_populate_cells_spec N ps self Hok HN)
    as (ps1 & self1 & Hrun & Hpop).
  exists ps1, self1. split; [exact Hrun|]. intros c0 c1 c2 st log Hc.
  assert (Hlists : lists_cells self1 (mkMem ps1 st log) (bucket self ps N)
                     (Z.to_nat N))
    by now apply (populated_lists_cells N ps ps1 self self1).
  rewrite !(dvs_calc_forces_pairs cutoff gamma _ _ _ _ _ _ Hlists).
  rewrite (cell_pairs_app _ _ c0 c1 c2 Hc), run_pairs_app.
  destruct (run_pairs cutoff gamma _ (mkMem ps1 st log)) as [m1|] eqn:E;
    [|reflexivity].
  cbn [bind]. symmetry. apply dvs_calc_forces_pairs.
  apply (lists_cells_framed _ _ _ _ _ Hlists).
  apply (run_pairs_keeps_frame _ _ _ _ _ E).
Qed.

(** X24. After [dvs_populate_cells], the sweep of the cells [c0, c1)
    returns, and the calls of the kernel it adds to the log are, each
    exactly once, the pairs [(i, j)] of particles such that the cell of [i]
    is in [c0, c1), the cells of [i] and [j] touch, and the cell of [i] is
    before that of [j] or it is the same cell and [j < i]; so it never calls
    the kernel on [(i, i)], nor on both [(i, j)] and [(j, i)].
    [ww_counter] grows by the number of these pairs. *)
Theorem cell_forces_calls (N : Z) ps self (c0 c1 : Z)
  (cutoff gamma : T) (st : Stats T) (log : list (Z * Z)) :
  (1 <= binning self)%Z ->
  num_cells self = (binning self * binning self * binning self)%Z ->
  Z.of_nat (length (cells self)) = num_cells self ->
  N = Z.of_nat (length ps) ->
  exists ps1 self1 m' l,
    dvs_populate_cells N ps self = Some (ps1, self1) /\
    dvs_calc_forces (Z.to_nat N) self1 c0 c1 cutoff gamma
      (mkMem ps1 st log) = Some m' /\
    calls m' = log ++ l /\
    NoDup l /\
    (forall i j,
       In (i, j) l <->
       (0 <= i < N)%Z /\ (0 <= j < N)%Z /\
       (c0 <= cell (binning self) (bin_x self ps) (bin_y self ps)
                (bin_z self ps) i < c1)%Z /\
       near (bin_x self ps) (bin_y self ps) (bin_z self ps) i j /\
       swept_before (binning self) (bin_x self ps) (bin_y self ps)
         (bin_z self ps) i j) /\
    ww_counter (stats m') = (ww_counter st + Z.of_nat (length l))%Z.
Proof.
  intros HL Hnum Hlen HN.
  assert (Hok : grid_ok self) by (repeat split; assumption).
  destruct (populated_sweep_runs N ps self c0 c1 cutoff gamma st log Hok HN)
    as (ps1 & self1 & m' & Hpop & Hrun & Hcalls & Hww).
  destruct (populated_cell_pairs N ps self c0 c1 HL HN) as [Hnd Hin].
  exists ps1, self1, m',
    (cell_pairs (bucket self ps N) (binning self) c0 c1).
  auto 7.
Qed.

(** X25. After [dvs_populate_cells], the sweep of any range of cells calls
    the kernel at most [N (N - 1) / 2] times, the number of calls of the
    brute sweep of the whole array. *)
Theorem cell_forces_count_bound (N : Z) ps self (c0 c1 : Z)
  (cutoff gamma : T) (st : Stats T) (log : list (Z * Z)) :
  (1 <= binning self)%Z ->
  num_cells self = (binning self * binning self * binning self)%Z ->
  Z.of_nat (length (cells self)) = num_cells self ->
  N = Z.of_nat (length ps) ->
  exists ps1 self1 m',
    dvs_populate_cells N ps self = Some (ps1, self1) /\
    dvs_calc_forces (Z.to_nat N) self1 c0 c1 cutoff gamma
      (mkMem ps1 st log) = Some m' /\
    (2 * (ww_counter (stats m') - ww_counter st) <= N * (N - 1))%Z.
Proof.
  intros HL Hnum Hlen HN.
  assert (Hok : grid_ok self) by (repeat split; assumption).
  destruct (populated_sweep_runs N ps self c0 c1 cutoff gamma st log Hok HN)
    as (ps1 & self1 & m' & Hpop & Hrun & Hcalls & Hww).
  destruct (populated_cell_pairs N ps self c0 c1 HL HN) as [Hnd Hin].
  exists ps1, self1, m'. split; [exact Hpop|]. split; [exact Hrun|].
  rewrite Hww.
  set (l := cell_pairs (bucket self ps N) (binning self) c0 c1) in *.
  assert (Hle : (length (map ordered l) <= length (brute_pairs N 0 N))%nat).
  { apply NoDup_incl_length.
    - apply NoDup_map_NoDup_ForallPairs; [|exact Hnd].
      intros [i j] [i' j'] H H' E.
      apply Hin in H as (_ & _ & _ & _ & Hb).
      apply Hin in H' as (_ & _ & _ & _ & Hb').
      unfold ordered in E. cbn [fst snd] in E.
      destruct (Z.ltb_spec i j), (Z.ltb_spec i' j'); inversion E; subst;
        try reflexivity; exfalso; eapply swept_before_asym; eauto.
    - intros [a b] Hab. apply in_map_iff in Hab as ([i j] & E & H).
      apply Hin in H as (Hi & Hj & _ & _ & Hb).
      assert (Hne : i <> j)
        by (intros ->; unfold swept_before in Hb; lia).
      apply in_brute_pairs. unfold ordered in E. cbn [fst snd] in E.
      destruct (Z.ltb_spec i j); inversion E; subst; lia. }
  rewrite length_map in Hle.
  pose proof (brute_pairs_length N 0 N ltac:(lia)). lia.
Qed.

(** X26. A sweep over a range of cells in which every cell of the grid is
    empty or outside the range returns the memory as it was: no call of the
    kernel, no change of a counter. *)
Theorem cell_forces_skip_empty_cells (fuel : nat) self (c0 c1 : Z)
  (cutoff gamma : T) m :
  (forall c, (0 <= c < binning self * binning self * binning self)%Z ->
     exists h, get (cells self) c = Some h /\
               (h = (-1)%Z \/ (c < c0)%Z \/ (c1 <= c)%Z)) ->
  dvs_calc_forces fuel self c0 c1 cutoff gamma m = Some m.
Proof.
  intros H. unfold dvs_calc_forces, for_range.
  apply foldM_skip. intros z Hz. apply in_zrange in Hz.
  apply foldM_skip. intros y Hy. apply in_zrange in Hy.
  apply foldM_skip. intros x Hx. apply in_zrange in Hx.
  unfold sweep_cell.
  destruct (H (x + binning self * y + binning self * binning self * z)%Z)
    as (h & Hh & Hcase); [now apply cell_number_range|].
  rewrite Hh. cbn [bind].
  destruct (Z.eqb_spec h (-1)); [reflexivity|].
  destruct (Z.ltb_spec
              (x + binning self * y + binning self * binning self * z) c0);
    [reflexivity|].
  destruct (Z.geb_spec
              (x + binning self * y + binning self * binning self * z) c1);
    [reflexivity|]. lia.
Qed.

End CellSweepProperties.

Lemma cell_forces_compose_witness :
  exists ps1 self1,
    dvs_populate_cells 4 four_particles (Cells_new (fun _ => 0%Z) 2 4)
    = Some (ps1, self1) /\
    dvs_calc_forces 4 self1 0 8 0.75%float 0%float (mkMem ps1 no_stats []) =
    (m' <- dvs_calc_forces 4 self1 0 4 0.75%float 0%float
             (mkMem ps1 no_stats []) ;;
     dvs_calc_forces 4 self1 4 8 0.75%float 0%float m').
Proof.
  destruct (cell_forces_compose 4 four_particles
              (Cells_new (fun _ => 0%Z) 2 4) 0.75%float 0%float)
    as (ps1 & self1 & Hpop & H).
  - simpl. lia.
  - reflexivity.
  - reflexivity.
  - reflexivity.
  - exists ps1, self1. split; [exact Hpop|].
    apply (H 0 4 8 no_stats [])%Z. lia.
Defined.

Lemma cell_forces_calls_witness :
  exists ps1 self1 m' l,
    dvs_populate_cells 4 four_particles (Cells_new (fun _ => 0%Z) 2 4)
    = Some (ps1, self1) /\
    dvs_calc_forces 4 self1 0 8 0.75%float 0%float (mkMem ps1 no_stats [])
    = Some m' /\
    calls m' = [] ++ l /\ NoDup l.
Proof.
  destruct (cell_forces_calls 4 four_particles
              (Cells_new (fun _ => 0%Z) 2 4) 0 8 0.75%float 0%float
              no_stats [])
    as (ps1 & self1 & m' & l & Hpop & Hrun & Hcalls & Hnd & _).
  - simpl. lia.
  - reflexivity.
  - reflexivity.
  - reflexivity.
  - exists ps1, self1, m', l. auto.
Defined.

Lemma cell_forces_count_bound_witness :
  exists ps1 self1 m',
    dvs_populate_cells 4 four_particles (Cells_new (fun _ => 0%Z) 2 4)
    = Some (ps1, self1) /\
    dvs_calc_forces 4 self1 0 8 0.75%float 0%float (mkMem ps1 no_stats [])
    = Some m' /\
    (ww_counter (stats m') <= 6)%Z.
Proof.
  destruct (cell_forces_count_bound 4 four_particles
              (Cells_new (fun _ => 0%Z) 2 4) 0 8 0.75%float 0%float
              no_stats [])
    as (ps1 & self1 & m' & Hpop & Hrun & Hc).
  - simpl. lia.
  - reflexivity.
  - reflexivity.
  - reflexivity.
  - exists ps1, self1, m'. split; [exact Hpop|]. split; [exact Hrun|].
    unfold no_stats in Hc. cbn [ww_counter] in Hc. lia.
Defined.

Lemma cell_forces_skip_empty_cells_witness :
  dvs_calc_forces 4 (mkCells 2%float 1 1 [(-1)%Z]) 0 1 0.75%float 0%float
    (mkMem four_particles no_stats [])
  = Some (mkMem four_particles no_stats []).
Proof.
  apply (cell_forces_skip_empty_cells 4 (mkCells 2%float 1 1 [(-1)%Z])).
  intros c Hc. exists (-1)%Z. split; [|now left].
  assert (c = 0%Z) by (simpl in Hc; lia). subst c. reflexivity.
Defined.

Section RealSweeps.

Local Open Scope R_scope.
Implicit Types (p q : Particle R) (ps : list (Particle R)) (m : Mem R).

Ltac vec_alg :=
  apply vec_ext;
  unfold vzero, VEC_ZERO, vec_inc, vec_dec, vec_add, vec_sub, vec_sclr,
    lit_zero;
  cbn [x y z sadd ssub smul sneg real_scalar of_long]; ring.

Lemma total_upd ps (n : nat) p0 p :
  nth_error ps n = Some p0 ->
  total_acceleration (upd ps n p) =
  vec_add (vec_sub (total_acceleration ps) (a p0)) (a p).
Proof.
  unfold total_acceleration, vsum, msum.
  revert n. induction ps as [|h t IH]; intros [|n] H; cbn in H;
    try discriminate.
  - injection H as ->. cbn [upd map fold_right]. vec_alg.
  - cbn [upd map fold_right]. rewrite (IH n H). vec_alg.
Qed.

Lemma total_put ps ps' (i : Z) p0 p :
  get ps i = Some p0 -> put ps i p = Some ps' ->
  total_acceleration ps' =
  vec_add (vec_sub (total_acceleration ps) (a p0)) (a p).
Proof.
  intros Hg Hp. apply put_inv in Hp as [Hi ->]. apply total_upd.
  unfold get in Hg. destruct (Z.ltb_spec i 0); [lia|exact Hg].
Qed.

Lemma kernel_keeps_total (i j : Z) (rc gamma : R) m m' :
  dvs_calc_force i j rc gamma m = Some m' ->
  total_acceleration (particles m') = total_acceleration (particles m).
Proof.
  intros H. unfold dvs_calc_force in H.
  destruct (get (particles m) i) as [p|] eqn:Hp; [|discriminate].
  destruct (get (particles m) j) as [q|] eqn:Hq; [|discriminate].
  cbn [bind] in H. destruct (within_cutoff rc p q).
  - set (F := pair_force rc gamma p q) in *.
    destruct (put (particles m) i _) as [ps1|] eqn:H1; [|discriminate].
    cbn [bind] in H.
    destruct (get ps1 j) as [q1|] eqn:Hq1; [|discriminate]. cbn [bind] in H.
    destruct (put ps1 j _) as [ps2|] eqn:H2; [|discriminate].
    cbn [bind] in H. inversion H; subst m'. cbn [particles].
    rewrite (total_put _ _ _ _ _ Hq1 H2), (total_put _ _ _ _ _ Hp H1).
    unfold set_a. cbn [a]. vec_alg.
  - inversion H; subst m'. reflexivity.
Qed.

(** X27. In exact arithmetic a force sweep that returns, of either kind and
    whatever the grid holds, leaves the sum of the accelerations of the
    array as it was: the kernel gives one particle what it takes from the
    other. *)
Theorem force_sweeps_keep_total_acceleration (fuel : nat) (self : Cells R)
  (cell0 cell1 N first last : Z) (rc gamma : R) m m' :
  dvs_calc_forces fuel self cell0 cell1 rc gamma m = Some m' \/
  dvs_calc_brute_forces N first last rc gamma m = Some m' ->
  total_acceleration (particles m') = total_acceleration (particles m).
Proof.
  set (Inv := fun m m' : Mem R =>
                total_acceleration (particles m')
                = total_acceleration (particles m)).
  assert (Hrefl : forall m, Inv m m) by reflexivity.
  assert (Htrans : forall m m' m'', Inv m m' -> Inv m' m'' -> Inv m m'')
    by (unfold Inv; intros; congruence).
  assert (Hk : forall i j c g m m',
             dvs_calc_force i j c g m = Some m' -> Inv m m')
    by (intros; now apply (kernel_keeps_total i j c g)).
  intros [H|H]; revert H.
  - apply (dvs_calc_forces_preserves Inv Hrefl Htrans Hk).
  - apply (dvs_calc_brute_forces_preserves Inv Hrefl Htrans Hk).
Qed.

Lemma kernel_stats_sym (rc : R) p q (st : Stats R) :
  kernel_stats rc q p st = kernel_stats rc p q st.
Proof.
  unfold kernel_stats. rewrite (within_cutoff_sym rc p q).
  now rewrite (vec_magnitude2_sub_sym (r p) (r q)).
Qed.

Lemma kernel_update_sym (rc gamma : R) p q (i j k : Z) pk :
  i <> j ->
  kernel_update rc gamma q p j i k pk = kernel_update rc gamma p q i j k pk.
Proof.
  intros Hij. unfold kernel_update.
  rewrite (within_cutoff_sym rc p q), (pair_force_antisym rc gamma p q).
  destruct (within_cutoff rc p q); [|reflexivity]. cbv zeta.
  set (F := pair_force rc gamma p q).
  destruct (Z.eqb_spec k i) as [Ei|Hki], (Z.eqb_spec k j) as [Ej|Hkj];
    try lia; try reflexivity;
    unfold set_a; cbn [r v a next]; f_equal; vec_alg.
Qed.

(** X28. In exact arithmetic the kernel does not depend on the order of its
    two particles: [dvs_calc_force(q, p, ...)] leaves the particles and the
    [Stats] that [dvs_calc_force(p, q, ...)] leaves. *)
Theorem kernel_symmetric (i j : Z) (rc gamma : R) m m1 m2 :
  dvs_calc_force i j rc gamma m = Some m1 ->
  dvs_calc_force j i rc gamma m = Some m2 ->
  particles m2 = particles m1 /\ stats m2 = stats m1.
Proof.
  intros H1 H2. destruct (Z.eq_dec i j) as [->|Hij].
  { split; congruence. }
  destruct (dvs_calc_force_inv _ _ _ _ _ _ H1) as (p & q & Hp & Hq).
  destruct (dvs_calc_force_result _ _ _ _ _ _ _ _ H1 Hp Hq) as [S1 G1].
  destruct (dvs_calc_force_result _ _ _ _ _ _ _ _ H2 Hq Hp) as [S2 G2].
  split; [|rewrite S1, S2; apply kernel_stats_sym].
  pose proof (Forall2_length (dvs_calc_force_keeps_frame _ _ _ _ _ _ H1))
    as L1.
  pose proof (Forall2_length (dvs_calc_force_keeps_frame _ _ _ _ _ _ H2))
    as L2.
  apply get_ext; [congruence|]. intros k.
  destruct (get (particles m) k) as [pk|] eqn:Hk.
  - rewrite (G1 k pk Hk), (G2 k pk Hk). f_equal.
    now apply kernel_update_sym.
  - rewrite (get_None_length _ (particles m1) k (eq_sym L1) Hk).
    apply (get_None_length _ (particles m2) k (eq_sym L2) Hk).
Qed.

Lemma pair_energy_nonneg (rc d : R) :
  rc <> 0 -> 0 < d -> 0 <= pair_energy rc d.
Proof.
  intros Hrc Hd. unfold pair_energy, lit_one, lit_two.
  cbn [sadd ssub smul sdiv of_long real_scalar].
  replace (1 / d + d / (rc * rc) - 2 / rc)
    with ((rc - d) * (rc - d) / (d * (rc * rc))) by (field; lra).
  apply Rmult_le_pos; [apply Rle_0_sqr|].
  apply Rlt_le, Rinv_0_lt_compat. apply Rmult_lt_0_compat; [exact Hd|].
  apply (Rsqr_pos_lt rc Hrc).
Qed.

Lemma vec_norm_sub_pos (u w : vec R) : u <> w -> 0 < vec_norm (vec_sub u w).
Proof.
  intros Hne. unfold vec_norm. apply sqrt_lt_R0.
  destruct u as [ux uy uz], w as [wx wy wz].
  unfold vec_magnitude2, vec_dot, vec_sub.
  cbn [x y z sadd ssub smul real_scalar].
  assert (P : forall t, t <> 0 -> 0 < t * t)
    by (intros t Ht; apply (Rsqr_pos_lt t Ht)).
  pose proof (Rle_0_sqr (ux - wx)) as Qx.
  pose proof (Rle_0_sqr (uy - wy)) as Qy.
  pose proof (Rle_0_sqr (uz - wz)) as Qz.
  unfold Rsqr in Qx, Qy, Qz.
  destruct (Req_dec ux wx) as [Ex|Nx];
    [destruct (Req_dec uy wy) as [Ey|Ny];
     [destruct (Req_dec uz wz) as [Ez|Nz]|]|].
  - subst. contradiction.
  - pose proof (P (uz - wz) ltac:(lra)). lra.
  - pose proof (P (uy - wy) ltac:(lra)). lra.
  - pose proof (P (ux - wx) ltac:(lra)). lra.
Qed.

Lemma energy_term_nonneg ps (rc : R) (i j : Z) :
  (forall p q, get ps i = Some p -> get ps j = Some q -> r p <> r q) ->
  0 <= energy_term ps rc (i, j).
Proof.
  intros Hd. unfold energy_term, pair_at. cbn [fst snd].
  destruct (get ps i) as [p|]; cbn [bind]; [|lra].
  destruct (get ps j) as [q|]; cbn [bind]; [|lra].
  destruct (within_cutoff rc p q) eqn:W; [|lra].
  apply pair_energy_nonneg.
  - intros ->. unfold within_cutoff in W.
    cbn [sltb smul real_scalar] in W. unfold Rltb in W.
    destruct (Rlt_dec _ _) as [C|C]; [|discriminate].
    pose proof (vec_magnitude2_nonneg (vec_sub (r p) (r q))). lra.
  - apply vec_norm_sub_pos. now apply Hd.
Qed.

(** X29. In exact arithmetic, for particles at pairwise different
    positions, the brute sweep never lowers [E_pot]: the energy
    [1/d + d/rc^2 - 2/rc] of an interacting pair is [(rc - d)^2 / (d rc^2)],
    which is not negative. *)
Theorem brute_forces_E_pot_grows (N first last : Z) (rc gamma : R) m :
  (0 <= first)%Z -> (N <= Z.of_nat (length (particles m)))%Z ->
  (forall i j p q, (i < j)%Z -> get (particles m) i = Some p ->
     get (particles m) j = Some q -> r p <> r q) ->
  exists m',
    dvs_calc_brute_forces N first last rc gamma m = Some m' /\
    E_pot (stats m) <= E_pot (stats m').
Proof.
  intros Hf HN Hd.
  destruct (brute_forces_runs N first last rc gamma m Hf HN) as [m' H].
  exists m'. split; [exact H|].
  rewrite dvs_calc_brute_forces_pairs in H.
  destruct (run_pairs_sum rc gamma _ _ _ H) as (_ & -> & _).
  assert (Hall : forall l,
             (forall i j, In (i, j) l -> (i < j)%Z) ->
             0 <= rsum (map (energy_term (particles m) rc) l)).
  { induction l as [|[i j] l IH]; intros Hl; unfold rsum, msum in *;
      cbn [map fold_right]; [lra|].
    assert (0 <= energy_term (particles m) rc (i, j)).
    { apply energy_term_nonneg. intros p q. apply Hd.
      apply Hl. now left. }
    specialize (IH (fun i j Hij => Hl i j (or_intror Hij))). lra. }
  specialize (Hall (brute_pairs N first last)
                (fun i j Hij => proj1 (proj2 (proj1 (in_brute_pairs _ _ _ _ _)
                                                Hij)))).
  lra.
Qed.

End RealSweeps.

Lemma force_sweeps_keep_total_acceleration_witness :
  interacts two_neighbours 1%R (0, 1)%Z = true /\
  exists m',
    dvs_calc_brute_forces 2 0 2 1%R 0%R
      (mkMem two_neighbours (mkStats 0 0 0%R) []) = Some m' /\
    total_acceleration (particles m') = total_acceleration two_neighbours.
Proof.
  split; [exact two_neighbours_interact|].
  destruct (brute_forces_runs 2 0 2 1%R 0%R
              (mkMem two_neighbours (mkStats 0 0 0%R) []))
    as [m' H]; [lia|simpl; lia|].
  exists m'. split; [exact H|].
  exact (force_sweeps_keep_total_acceleration O
           (mkCells 2%R 1 1 [(-1)%Z]) 0 0 2 0 2 1%R 0%R _ m' (or_intror H)).
Defined.

Lemma kernel_symmetric_witness :
  interacts two_neighbours 1%R (0, 1)%Z = true /\
  exists m1 m2,
    dvs_calc_force 0 1 1%R 0%R (mkMem two_neighbours (mkStats 0 0 0%R) [])
    = Some m1 /\
    dvs_calc_force 1 0 1%R 0%R (mkMem two_neighbours (mkStats 0 0 0%R) [])
    = Some m2 /\
    particles m2 = particles m1 /\ stats m2 = stats m1.
Proof.
  split; [exact two_neighbours_interact|].
  destruct (dvs_calc_force_runs 0 1 1%R 0%R
              (mkMem two_neighbours (mkStats 0 0 0%R) []) _ _
              eq_refl eq_refl)
    as (m1 & H1 & _).
  destruct (dvs_calc_force_runs 1 0 1%R 0%R
              (mkMem two_neighbours (mkStats 0 0 0%R) []) _ _
              eq_refl eq_refl)
    as (m2 & H2 & _).
  exists m1, m2. split; [exact H1|]. split; [exact H2|].
  exact (kernel_symmetric 0 1 1%R 0%R _ m1 m2 H1 H2).
Defined.

Lemma brute_forces_E_pot_grows_witness :
  interacts two_neighbours 1%R (0, 1)%Z = true /\
  exists m',
    dvs_calc_brute_forces 2 0 2 1%R 0%R
      (mkMem two_neighbours (mkStats 0 0 0%R) []) = Some m' /\
    (0 <= E_pot (stats m'))%R.
Proof.
  split; [exact two_neighbours_interact|].
  destruct (brute_forces_E_pot_grows 2 0 2 1%R 0%R
              (mkMem two_neighbours (mkStats 0 0 0%R) []))
    as (m' & H & HE).
  - lia.
  - simpl. lia.
  - intros i j p q Hij Hp Hq.
    pose proof (get_Some_range _ _ _ Hp) as Ri.
    pose proof (get_Some_range _ _ _ Hq) as Rj.
    simpl in Ri, Rj.
    assert (i = 0%Z) by lia. assert (j = 1%Z) by lia. subst i j.
    change (Some (mkParticle (mkvec 1 0 0) VEC_ZERO VEC_ZERO 0)%R = Some p)
      in Hp.
    change (Some (mkParticle (mkvec (4 / 5) (- 3 / 5) 0) VEC_ZERO VEC_ZERO
                    0)%R = Some q) in Hq.
    injection Hp as <-. injection Hq as <-. simpl.
    intros E. injection E as E1 E2. lra.
  - exists m'. split; [exact H|exact HE].
Defined.

(** ** The bins of the box *)

Section Slabs.

Local Open Scope R_scope.

(** X30. In exact arithmetic, on a grid with [dr = 2/L] and [L] in the
    range of [int], the bin that [dvs_populate_cells] gives a coordinate [c]
    of the box [-1, 1] is the slab of the box that holds it:
    [b * dr <= c + 1 <= (b + 1) * dr] with [0 <= b <= L - 1]. *)
Theorem bin_of_slab (self : Cells R) (c : R) :
  (1 <= binning self < 2 ^ 31)%Z -> dr self = 2 / IZR (binning self) ->
  -1 <= c <= 1 ->
  (0 <= bin_of self c <= binning self - 1)%Z /\
  IZR (bin_of self c) * dr self <= c + 1
    <= IZR (bin_of self c + 1) * dr self.
Proof.
  intros HL Hdr Hc.
  pose proof (bin_defined_in_box self c HL Hdr Hc) as Hdef.
  assert (HLr : 1 <= IZR (binning self)) by (apply IZR_le; lia).
  assert (Hpos : 0 < dr self).
  { rewrite Hdr. apply Rdiv_lt_0_compat; lra. }
  assert (HLdr : IZR (binning self) * dr self = 2)
    by (rewrite Hdr; field; lra).
  unfold bin_of. cbn [floor_int sadd sdiv real_scalar lit_one of_long].
  rewrite to_int_in_range by exact Hdef.
  set (u := (c + 1) / dr self).
  assert (Hu : u * dr self = c + 1) by (unfold u; field; lra).
  pose proof (Zfloor_bound u) as [Hlo Hhi].
  set (n := Zfloor u) in *.
  assert (Hn0 : (0 <= n)%Z).
  { apply Zfloor_lub. unfold u. cbn [IZR].
    apply Rmult_le_pos; [lra|]. apply Rlt_le, Rinv_0_lt_compat, Hpos. }
  assert (HuL : u <= IZR (binning self)).
  { apply (Rmult_le_reg_r (dr self)); [exact Hpos|]. rewrite Hu, HLdr. lra. }
  assert (HnL : (n <= binning self)%Z).
  { apply le_IZR. lra. }
  unfold MAX, MIN.
  destruct (Z.ltb_spec n (binning self - 1)) as [C|C].
  - destruct (Z.ltb_spec 0 n) as [C0|C0].
    + split; [lia|]. rewrite plus_IZR. cbn [IZR]. rewrite <- Hu. split.
      * apply Rmult_le_compat_r; lra.
      * apply Rmult_le_compat_r; lra.
    + assert (n = 0%Z) by lia. split; [lia|].
      replace (IZR (0 + 1)) with 1 by reflexivity. cbn [IZR].
      rewrite <- Hu. subst n. rewrite H in *. cbn [IZR] in *. split.
      * rewrite Rmult_0_l. apply Rmult_le_pos; lra.
      * apply Rmult_le_compat_r; lra.
  - destruct (Z.ltb_spec 0 (binning self - 1)) as [C0|C0].
    + split; [lia|].
      replace (binning self - 1 + 1)%Z with (binning self) by lia.
      rewrite HLdr. rewrite minus_IZR. cbn [IZR]. split; [|lra].
      rewrite <- Hu. apply Rmult_le_compat_r; [lra|].
      assert (IZR (binning self - 1) <= IZR n) by (apply IZR_le; lia).
      rewrite minus_IZR in H. cbn [IZR] in H. lra.
    + assert (HL1 : binning self = 1%Z) by lia. split; [lia|].
      replace (IZR (0 + 1)) with 1 by reflexivity. cbn [IZR].
      rewrite HL1 in HLdr. cbn [IZR] in HLdr. lra.
Qed.

End Slabs.

Lemma bin_of_slab_witness :
  (0 <= bin_of (Cells_new (T := R) (fun _ => 0%Z) 2 2) (/ 2)%R <= 2 - 1)%Z /\
  (IZR (bin_of (Cells_new (T := R) (fun _ => 0%Z) 2 2) (/ 2)) *
     dr (Cells_new (T := R) (fun _ => 0%Z) 2 2) <= / 2 + 1
   <= IZR (bin_of (Cells_new (T := R) (fun _ => 0%Z) 2 2) (/ 2) + 1) *
        dr (Cells_new (T := R) (fun _ => 0%Z) 2 2))%R.
Proof.
  apply (bin_of_slab (Cells_new (fun _ => 0%Z) 2 2) (/ 2)%R).
  - simpl. lia.
  - reflexivity.
  - lra.
Defined.
